(** * TraktorBox: playlist transfer between Traktor (NML) and RecordBox (XML)

    A shallow embedding of [Parsers.py]: the path codec of [Song], the songs
    and playlists model, the two parsers with their shared [Parser] base
    class, and [Exporter.convert_traktor_song_to_recordbox].

    Python objects are embedded as follows.
    - [str] is [string]; the methods used by the source ([replace], [split],
      [join], [removeprefix]) are written out in [PyStr].
    - An [int] is a [Z].  [list.insert] and [Element.insert] convert their
      index to a C [Py_ssize_t], which raises [OverflowError] outside its
      range, and then saturate at both ends ([PyList.insert], [ET.insert]).
    - The file system answers each write: it is done, refused, or fails
      after the file was opened ([write_file]).
    - An [xml.etree.ElementTree.Element] is the inductive [Element]; the
      handles [songs_tree] and [playlists_tree] that the parser keeps into
      its document are paths from the root, so that a mutation through the
      handle is a mutation of the document that [save_file] writes.
    - Methods that mutate [self] and may raise are computations in the monad
      [M]: a state transformer that also returns [Ok] or the exception. *)

From Stdlib Require Import ZArith Ascii String DecimalString.
From stdpp Require Import base option list strings gmap.

(** ** Python string methods *)

Module PyStr.

(** [s.startswith(pre)] *)
Fixpoint startswith (pre s : string) : bool :=
  match pre, s with
  | EmptyString, _ => true
  | String _ _, EmptyString => false
  | String a pre', String b s' =>
      if Ascii.eqb a b then startswith pre' s' else false
  end.

(** [sub in s] *)
Fixpoint contains (sub s : string) : bool :=
  startswith sub s
  || match s with
     | EmptyString => false
     | String _ s' => contains sub s'
     end.

(** [drop n s]: the slice [s[n:]]. *)
Fixpoint drop (n : nat) (s : string) : string :=
  match n, s with
  | O, _ => s
  | S _, EmptyString => EmptyString
  | S n', String _ s' => drop n' s'
  end.

(** [s.removeprefix(pre)] *)
Definition removeprefix (pre s : string) : string :=
  if startswith pre s then drop (String.length pre) s else s.

(** The scan behind [replace] and [split]: occurrences of the pattern are
    found from left to right and do not overlap.  [skip] counts the
    characters of the occurrence just matched that are still to be
    passed over. *)
Fixpoint replace_scan (old new : string) (skip : nat) (s : string) : string :=
  match s with
  | EmptyString => EmptyString
  | String c s' =>
      match skip with
      | S k => replace_scan old new k s'
      | O =>
          if startswith old s
          then new +:+ replace_scan old new (String.length old - 1) s'
          else String c (replace_scan old new 0 s')
      end
  end.

(** With an empty pattern Python puts [new] around every character. *)
Fixpoint replace_empty (new s : string) : string :=
  match s with
  | EmptyString => new
  | String c s' => new +:+ String c (replace_empty new s')
  end.

(** [s.replace(old, new)] *)
Definition replace (old new s : string) : string :=
  match old with
  | EmptyString => replace_empty new s
  | String _ _ => replace_scan old new 0 s
  end.

(** [cur] is the piece being accumulated. *)
Fixpoint split_scan (sep : string) (skip : nat) (cur : string) (s : string)
  : list string :=
  match s with
  | EmptyString => [cur]
  | String c s' =>
      match skip with
      | S k => split_scan sep k cur s'
      | O =>
          if startswith sep s
          then cur :: split_scan sep (String.length sep - 1) EmptyString s'
          else split_scan sep 0 (cur +:+ String c EmptyString) s'
      end
  end.

(** [s.split(sep)] for a separator that is not empty (Python raises
    [ValueError] on the empty one; the source only splits on literals). *)
Definition split (sep s : string) : list string :=
  split_scan sep 0 EmptyString s.

(** [sep.join(l)] *)
Fixpoint join (sep : string) (l : list string) : string :=
  match l with
  | [] => EmptyString
  | [x] => x
  | x :: l' => x +:+ sep +:+ join sep l'
  end.

(** [str(n)] for a length. *)
Definition of_nat (n : nat) : string :=
  NilEmpty.string_of_uint (Nat.to_uint n).

End PyStr.

(** ** Path codec ([Song]'s class methods) *)

Module Song_codec.

Definition backslash : string := String (ascii_of_nat 92) EmptyString.

(** [parse.unquote] is the standard library's percent-decoder; it is an
    argument of the one method that calls it. *)
Definition record_path_to_normal_path (unquote : string -> string)
    (record_path : string) : string :=
  let normal_path := unquote record_path in
  let normal_path := PyStr.removeprefix "file://localhost/" normal_path in
  PyStr.replace "/" backslash normal_path.

Definition normal_path_to_traktor_path (path : string) : string :=
  PyStr.replace backslash "/:" path.

Definition traktor_path_to_normal_path (traktor_path : string) : string :=
  let normal_path := PyStr.split "/:" traktor_path in
  PyStr.join backslash normal_path.

End Song_codec.

(** ** Exceptions and results *)

(** [OSError] stands for whichever of its subclasses a refused or failed
    write raises ([PermissionError], [FileNotFoundError] for a missing
    directory, ...); [FileNotFoundError] is the one of a missing source
    file. *)
Inductive exn : Type :=
| KeyError (key : string)
| AttributeError (attr : string)
| TypeError (what : string)
| UnboundLocalError (var : string)
| ValueError (what : string)
| FileNotFoundError (path : string)
| OverflowError (what : string)
| OSError (path : string)
| Exception (msg : string).

Inductive result (A : Type) : Type :=
| Ok (a : A)
| Raise (e : exn).
Arguments Ok {A} a.
Arguments Raise {A} e.

Definition result_bind {A B} (r : result A) (k : A -> result B) : result B :=
  match r with
  | Ok a => k a
  | Raise e => Raise e
  end.

Definition of_option {A} (e : exn) (o : option A) : result A :=
  match o with
  | Some a => Ok a
  | None => Raise e
  end.

Notation "'let?' x := r 'in' k" := (result_bind r (fun x => k))
  (at level 10, x pattern, r at level 100, k at level 200, only parsing).

(** ** Python list methods *)

Module PyList.

(** The range of a C [Py_ssize_t], on a 64-bit build of CPython. *)
Definition PY_SSIZE_T_MIN : Z := (-9223372036854775808)%Z.
Definition PY_SSIZE_T_MAX : Z := 9223372036854775807%Z.

(** The conversion of an [int] argument to [Py_ssize_t]. *)
Definition as_ssize_t (index : Z) : result Z :=
  if ((PY_SSIZE_T_MIN <=? index) && (index <=? PY_SSIZE_T_MAX))%Z
  then Ok index
  else Raise (OverflowError "Python int too large to convert to C ssize_t").

(** CPython's [ins1(self, where, v)]: a negative [where] counts from the
    end, and one beyond either end lands on that end. *)
Definition insert_position (n : nat) (index : Z) : nat :=
  let n := Z.of_nat n in
  let where_ :=
    if (index <? 0)%Z
    then (let w := (index + n)%Z in if (w <? 0)%Z then 0%Z else w)
    else index in
  let where_ := if (where_ >? n)%Z then n else where_ in
  Z.to_nat where_.

Definition ins1 {A} (where_ : Z) (x : A) (l : list A) : list A :=
  let i := insert_position (length l) where_ in
  take i l ++ x :: drop i l.

(** [l.insert(index, x)] *)
Definition insert {A} (index : Z) (x : A) (l : list A) : result (list A) :=
  let? where_ := as_ssize_t index in
  Ok (ins1 where_ x l).

(** [l.index(x)]: the first position holding a value equal to [x]. *)
Fixpoint index {A} `{EqDecision A} (x : A) (l : list A) : option nat :=
  match l with
  | [] => None
  | y :: l' => if decide (y = x) then Some 0 else S <$> index x l'
  end.

(** [min(l)] on a list of positions; [None] is Python's [ValueError]. *)
Fixpoint min (l : list nat) : option nat :=
  match l with
  | [] => None
  | x :: l' => match min l' with
               | None => Some x
               | Some m => Some (Nat.min x m)
               end
  end.

End PyList.

(** ** Songs and playlists *)

(** The two subclasses of [Song].  [RecordSong.size] is only set when the
    keyword is passed. *)
Inductive Song : Type :=
| RecordSong (name id path record_path file_name : string) (size : option Z)
| TraktorSong (name traktor_path path : string).

Definition song_name (s : Song) : string :=
  match s with
  | RecordSong name _ _ _ _ _ => name
  | TraktorSong name _ _ => name
  end.

Definition song_path (s : Song) : string :=
  match s with
  | RecordSong _ _ path _ _ _ => path
  | TraktorSong _ _ path => path
  end.

(** [song.id]: only a [RecordSong] has the attribute. *)
Definition song_id (s : Song) : result string :=
  match s with
  | RecordSong _ id _ _ _ _ => Ok id
  | TraktorSong _ _ _ => Raise (AttributeError "id")
  end.

(** [isinstance(song, TraktorSong)] *)
Definition is_TraktorSong (s : Song) : bool :=
  match s with
  | TraktorSong _ _ _ => true
  | RecordSong _ _ _ _ _ _ => false
  end.

(** [RecordSong.__init__] *)
Definition new_RecordSong (unquote : string -> string)
    (id name record_path : string) (size : option Z) : Song :=
  let path := Song_codec.record_path_to_normal_path unquote record_path in
  RecordSong name id path record_path
    (List.last (PyStr.split Song_codec.backslash path) EmptyString) size.

(** [TraktorSong.__init__] *)
Definition new_TraktorSong (name traktor_path : string) : Song :=
  TraktorSong name traktor_path
    (Song_codec.traktor_path_to_normal_path traktor_path).

Record Playlist : Type := mkPlaylist {
  playlist_name : string;
  playlist_songs : list Song
}.

Definition nb_entries (p : Playlist) : nat := length (playlist_songs p).

Global Instance Song_eq_dec : EqDecision Song.
Proof. solve_decision. Defined.

Global Instance Playlist_eq_dec : EqDecision Playlist.
Proof. solve_decision. Defined.

(** ** Element trees *)

(** [xml.etree.ElementTree.Element]: [attrib] is a dict, kept in insertion
    order as Python does. *)
#[warnings="-register-all"]
Inductive Element : Type := mkElement {
  tag : string;
  attrib : list (string * string);
  text : option string;
  tail : option string;
  children : list Element
}.

Module ET.

(** [ET.Element(tag)] *)
Definition new_Element (tag : string) : Element := mkElement tag [] None None [].

Fixpoint dict_set (k v : string) (d : list (string * string))
  : list (string * string) :=
  match d with
  | [] => [(k, v)]
  | (k', v') :: d' =>
      if String.eqb k' k then (k, v) :: d' else (k', v') :: dict_set k v d'
  end.

Fixpoint dict_get (k : string) (d : list (string * string)) : option string :=
  match d with
  | [] => None
  | (k', v) :: d' => if String.eqb k' k then Some v else dict_get k d'
  end.

(** [e.set(k, v)] *)
Definition set (k v : string) (e : Element) : Element :=
  mkElement (tag e) (dict_set k v (attrib e)) (text e) (tail e) (children e).

(** [e.attrib[k]] *)
Definition get (k : string) (e : Element) : result string :=
  of_option (KeyError k) (dict_get k (attrib e)).

(** [e.tail = s] *)
Definition set_tail (s : string) (e : Element) : Element :=
  mkElement (tag e) (attrib e) (text e) (Some s) (children e).

Definition set_children (l : list Element) (e : Element)
  : Element :=
  mkElement (tag e) (attrib e) (text e) (tail e) l.

(** [e.append(child)], which is what [ET.SubElement(e, tag)] does with the
    element it creates.  The source goes on mutating the sub-element
    through the reference it got back; here the sub-element is built in
    full and then appended, which leaves the same tree. *)
Definition append (child : Element) (e : Element)
  : Element :=
  set_children (children e ++ [child]) e.

(** [e.insert(index, child)]: the index is converted, and the child then
    placed among the children as [list.insert] places it. *)
Definition ins1 (where_ : Z) (child : Element) (e : Element) : Element :=
  set_children (PyList.ins1 where_ child (children e)) e.

Definition insert (index : Z) (child : Element) (e : Element)
  : result Element :=
  let? where_ := PyList.as_ssize_t index in
  Ok (ins1 where_ child e).

End ET.

(** [collect f l]: the concatenation of the [f x], stopping at the first
    exception. *)
Fixpoint collect {A B} (f : A -> result (list B)) (l : list A)
  : result (list B) :=
  match l with
  | [] => Ok []
  | x :: l' =>
      let? ys := f x in
      let? zs := collect f l' in
      Ok (ys ++ zs)
  end.

(** ** Handles into the document *)

(** A handle is the path of child positions from the root to an element.
    The parser only ever inserts children under the element its own handle
    designates, so the handles it keeps are not displaced. *)
Definition handle : Type := list nat.

Fixpoint deref (h : handle) (e : Element) : option Element :=
  match h with
  | [] => Some e
  | i :: h' =>
      match children e !! i with
      | Some c => deref h' c
      | None => None
      end
  end.

Fixpoint update (h : handle) (f : Element -> Element) (e : Element) : Element :=
  match h with
  | [] => f e
  | i :: h' =>
      match children e !! i with
      | Some c => ET.set_children (<[i := update h' f c]> (children e)) e
      | None => e
      end
  end.

(** ** The parser object and the world around it *)

Record Parser : Type := mkParser {
  verbose : bool;
  file_path : string;
  tree : Element;
  playlists_tree : option handle;
  songs_tree : option handle;
  songs : list Song;
  playlists : list Playlist
}.

Definition set_tree (t : Element) (p : Parser) : Parser :=
  mkParser (verbose p) (file_path p) t (playlists_tree p) (songs_tree p)
    (songs p) (playlists p).
Definition set_playlists_tree (h : option handle) (p : Parser) : Parser :=
  mkParser (verbose p) (file_path p) (tree p) h (songs_tree p)
    (songs p) (playlists p).
Definition set_songs_tree (h : option handle) (p : Parser) : Parser :=
  mkParser (verbose p) (file_path p) (tree p) (playlists_tree p) h
    (songs p) (playlists p).
Definition set_songs (l : list Song) (p : Parser) : Parser :=
  mkParser (verbose p) (file_path p) (tree p) (playlists_tree p) (songs_tree p)
    l (playlists p).
Definition set_playlists (l : list Playlist) (p : Parser) : Parser :=
  mkParser (verbose p) (file_path p) (tree p) (playlists_tree p) (songs_tree p)
    (songs p) l.

(** The element behind [self.playlists_tree] and [self.songs_tree]. *)
Definition playlists_fragment (p : Parser) : option Element :=
  match playlists_tree p with
  | Some h => deref h (tree p)
  | None => None
  end.

Definition songs_fragment (p : Parser) : option Element :=
  match songs_tree p with
  | Some h => deref h (tree p)
  | None => None
  end.

(** The children of [self.playlists_tree] ([[]] when the handle is unset). *)
Definition playlist_nodes (s : Parser) : list Element :=
  match playlists_fragment s with
  | Some e => children e
  | None => []
  end.

(** What [ElementTree.write] was called with. *)
Record write_options : Type := mkWriteOptions {
  encoding : string;
  xml_declaration : bool;
  short_empty_elements : bool
}.

(** A file holds bytes of unknown origin, or the serialization of a tree,
    kept as the tree and the options rather than as its bytes, or what a
    write that failed has left of it. *)
Inductive File : Type :=
| Bytes (content : string)
| Serialized (options : write_options) (root : Element)
| Partial.

(** How the file system answers [open(path, "w")] and the writes that
    follow: the file is written; or it cannot be opened (a missing
    directory, a read-only file) and is left as it is; or it is opened, which
    truncates it, and the writing fails. *)
Inductive write_outcome : Type :=
| Written
| Refused
| Torn.

(** [fs_write] is the answer of the file system to a write at each path;
    [uuid1] stands for [uuid.uuid1()]: its result at the n-th call. *)
Record World : Type := mkWorld {
  self : Parser;
  disk : gmap string File;
  fs_write : string -> write_outcome;
  uuid1 : nat -> string;
  uuid_calls : nat
}.

Definition set_self (p : Parser) (w : World) : World :=
  mkWorld p (disk w) (fs_write w) (uuid1 w) (uuid_calls w).
Definition set_disk (d : gmap string File) (w : World) : World :=
  mkWorld (self w) d (fs_write w) (uuid1 w) (uuid_calls w).

(** ** Stateful computations that may raise *)

Section StateExn.
Context {St : Type}.

Definition SE (A : Type) : Type := St -> result A * St.

Definition ret {A} (a : A) : SE A := fun s => (Ok a, s).

(** An exception leaves the state as it was when it was raised. *)
Definition bind {A B} (c : SE A) (k : A -> SE B) : SE B :=
  fun s =>
    match c s with
    | (Ok a, s') => k a s'
    | (Raise e, s') => (Raise e, s')
    end.

Definition lift {A} (r : result A) : SE A := fun s => (r, s).

Definition gets {A} (f : St -> A) : SE A := fun s => (Ok (f s), s).

Definition modify (f : St -> St) : SE unit := fun s => (Ok tt, f s).

(** [for x in l: body(x)] over a list that the body does not mutate. *)
Fixpoint for_each {A} (l : list A) (body : A -> SE unit) : SE unit :=
  match l with
  | [] => ret tt
  | x :: l' => bind (body x) (fun _ => for_each l' body)
  end.

End StateExn.
Arguments SE St A : clear implicits.

Notation "'do' x <- c ; k" := (bind c (fun x => k))
  (at level 10, x pattern, c at level 100, k at level 200, only parsing).

(** Methods of a parser. *)
Definition M (A : Type) : Type := SE World A.

Definition modify_self (f : Parser -> Parser) : M unit :=
  modify (fun w => set_self (f (self w)) w).

(** [list(enumerate(l))] *)
Definition enumerate {A} (l : list A) : list (nat * A) := imap pair l.

Definition newline : string := String (ascii_of_nat 10) EmptyString.

(** ** The abstract [Parser] class *)

Class ParserClass : Type := {
  get_songs_and_playlists : M unit;
  add_playlist_to_tree : Playlist -> option Z -> M unit;
  _save_tree : string -> M unit
}.

(** Writing [f] to the file at [path]. *)
Definition write_file (path : string) (f : File) : M unit :=
  do answer <- gets (fun w => fs_write w path);
  do d <- gets disk;
  match answer with
  | Written => modify (set_disk (<[path := f]> d))
  | Refused => lift (Raise (OSError path))
  | Torn =>
      do _ <- modify (set_disk (<[path := Partial]> d));
      lift (Raise (OSError path))
  end.

(** [shutil.copy(src, dst)] between plain files: the source is opened
    first. *)
Definition shutil_copy (src dst : string) : M unit :=
  do d <- gets disk;
  do f <- lift (of_option (FileNotFoundError src) (d !! src));
  write_file dst f.

(** [self.tree.write(file_path, ...)] *)
Definition tree_write (file_path : string) (options : write_options) : M unit :=
  do s <- gets self;
  write_file file_path (Serialized options (tree s)).

Module Parser_.

(** [Parser.__init__]: [ET.parse(path)] has produced the document [doc]. *)
Definition init `{ParserClass} (path : string) (doc : Element)
    (verbose : bool) : M unit :=
  do _ <- modify (set_self (mkParser verbose path doc None None [] []));
  get_songs_and_playlists.

(** [playlists] is a list of the caller's, not [self.playlists] itself,
    which the loop body extends. *)
Definition add_playlists_to_tree `{ParserClass} (playlists : list Playlist)
  : M unit :=
  for_each playlists (fun playlist => add_playlist_to_tree playlist None).

Definition save_file `{ParserClass} (path : option string)
    (backup : bool) : M unit :=
  do s <- gets self;
  let path :=
    match path with
    | None => file_path s
    | Some p => p
    end in
  do _ <- (if backup
           then shutil_copy (file_path s) (file_path s +:+ ".bak")
           else ret tt);
  _save_tree path.

End Parser_.

(** [len([x for x in self.playlists_tree])] *)
Definition playlists_tree_len : M nat :=
  do s <- gets self;
  match playlists_fragment s with
  | Some e => ret (length (children e))
  | None => lift (Raise (TypeError "'NoneType' object is not iterable"))
  end.

(** [self.playlists_tree.insert(index, node)]: the document is mutated
    through the handle. *)
Definition playlists_tree_insert (index : Z) (node : Element) : M unit :=
  do s <- gets self;
  match playlists_tree s, playlists_fragment s with
  | Some h, Some e =>
      do e <- lift (ET.insert index node e);
      modify_self (set_tree (update h (fun _ => e) (tree s)))
  | _, _ => lift (Raise (AttributeError "insert"))
  end.

(** [self.playlists.insert(index, playlist)] *)
Definition playlists_insert (index : Z) (playlist : Playlist) : M unit :=
  do s <- gets self;
  do l <- lift (PyList.insert index playlist (playlists s));
  modify_self (set_playlists l).

(** Run a traversal that has local variables of type [L] next to [self]. *)
Definition with_locals {L A} (init : L) (c : SE (Parser * L) A) : M A :=
  fun w =>
    let '(r, (p, _)) := c (self w, init) in
    (r, set_self p w).

Definition on_self {L} (f : Parser -> Parser) : SE (Parser * L) unit :=
  modify (fun '(p, l) => (f p, l)).

Definition on_locals {L} (f : L -> L) : SE (Parser * L) unit :=
  modify (fun '(p, l) => (p, f l)).

(** ** [TraktorParser] *)

Module TraktorParser.

(** Local variables of [get_songs_and_playlists] that outlive one loop
    iteration: the dict of songs by path, and [traktor_path], which is only
    assigned when a [LOCATION] child is met. *)
Record locals : Type := mkLocals {
  songs_dict : gmap string Song;
  traktor_path : option string
}.

Definition read_location (elmt : Element) : SE (Parser * locals) unit :=
  if String.eqb (tag elmt) "LOCATION"
  then
    do volume <- lift (ET.get "VOLUME" elmt);
    do dir <- lift (ET.get "DIR" elmt);
    do file <- lift (ET.get "FILE" elmt);
    on_locals (fun l => mkLocals (songs_dict l) (Some (volume +:+ dir +:+ file)))
  else ret tt.

Definition read_song (song : Element) : SE (Parser * locals) unit :=
  do name <- lift (ET.get "TITLE" song);
  do _ <- for_each (children song) read_location;
  do bound <- gets (fun fr => traktor_path (snd fr));
  do path <- lift (of_option (UnboundLocalError "traktor_path") bound);
  let traktor_song := new_TraktorSong name path in
  do _ <- on_self (fun s => set_songs (songs s ++ [traktor_song]) s);
  on_locals (fun l => mkLocals (<[path := traktor_song]> (songs_dict l)) (traktor_path l)).

(** The songs of one playlist node: node, then its [PLAYLIST] children,
    then their [ENTRY] children, then their [PRIMARYKEY] children. *)
Definition read_primarykey (d : gmap string Song) (primarykey : Element)
  : result (list Song) :=
  let? traktor_track_path := ET.get "KEY" primarykey in
  let? song := of_option (KeyError traktor_track_path) (d !! traktor_track_path) in
  Ok [song].

Definition read_entries (d : gmap string Song) (playlist : Element)
  : result (list Song) :=
  let? nb_element := ET.get "ENTRIES" playlist in
  collect (fun entry => collect (read_primarykey d) (children entry))
    (children playlist).

Definition read_playlist (node : Element) : SE (Parser * locals) unit :=
  do name <- lift (ET.get "NAME" node);
  do d <- gets (fun fr => songs_dict (snd fr));
  do playlist_songs <- lift (collect (read_entries d) (children node));
  let traktor_playlist := mkPlaylist name playlist_songs in
  on_self (fun s => set_playlists (playlists s ++ [traktor_playlist]) s).

Definition read_root_child (ic : nat * Element) : SE (Parser * locals) unit :=
  let '(i, child) := ic in
  do _ <- (if String.eqb (tag child) "COLLECTION"
           then
             do _ <- on_self (set_songs_tree (Some [i]));
             for_each (children child) read_song
           else ret tt);
  if String.eqb (tag child) "PLAYLISTS"
  then
    for_each (enumerate (children child)) (fun '(j, node) =>
      for_each (enumerate (children node)) (fun '(k, subnodes) =>
        do _ <- on_self (set_playlists_tree (Some [i; j; k]));
        for_each (children subnodes) read_playlist))
  else ret tt.

Definition get_songs_and_playlists : M unit :=
  with_locals (mkLocals ∅ None)
    (do root <- gets (fun fr => tree (fst fr));
     do _ <- on_self (set_playlists []);
     do _ <- on_self (set_songs []);
     for_each (enumerate (children root)) read_root_child).

(** [add_traktor_track_to_playlist]: returns the parent with its new
    [ENTRY] child. *)
Definition add_traktor_track_to_playlist (playlist_parent : Element)
    (song : Song) : Element :=
  let key := Song_codec.normal_path_to_traktor_path (song_path song) in
  let track_primary_key :=
    ET.set_tail newline
      (ET.set "KEY" key (ET.set "TYPE" "TRACK" (ET.new_Element "PRIMARYKEY"))) in
  let track_entry :=
    ET.append track_primary_key (ET.set_tail newline (ET.new_Element "ENTRY")) in
  ET.append track_entry playlist_parent.

(** The [NODE] element built for a playlist; [uuid] is [str(uuid.uuid1())]. *)
Definition playlist_node (uuid : string) (playlist : Playlist) : Element :=
  let node := ET.new_Element "NODE" in
  let node := ET.set "TYPE" "PLAYLIST" node in
  let node := ET.set "NAME" (playlist_name playlist) node in
  let playlist_xml := ET.new_Element "PLAYLIST" in
  let playlist_xml := ET.set "ENTRIES" (PyStr.of_nat (nb_entries playlist)) playlist_xml in
  let playlist_xml := ET.set "TYPE" "LIST" playlist_xml in
  let playlist_xml := ET.set "UUID" (PyStr.replace "-" "" uuid) playlist_xml in
  let playlist_xml :=
    fold_left add_traktor_track_to_playlist (playlist_songs playlist) playlist_xml in
  ET.append playlist_xml node.

(** [playlist.name in ["_LOOPS", "_RECORDINGS"]] *)
Definition is_ending (playlist : Playlist) : bool :=
  String.eqb (playlist_name playlist) "_LOOPS"
  || String.eqb (playlist_name playlist) "_RECORDINGS".

(** [min([self.playlists.index(playlist) for playlist in ending_playlists])].
    [Playlist] defines no [__eq__], so [index] compares object identities;
    here it compares values.  Either way the first position found holds a
    playlist with the name searched for, so the minimum is the same. *)
Definition min_ending_index (playlists ending_playlists : list Playlist)
  : result nat :=
  let? positions :=
    collect (fun playlist =>
               let? i := of_option (ValueError "x not in list")
                           (PyList.index playlist playlists) in
               Ok [i])
            ending_playlists in
  of_option (ValueError "min() arg is an empty sequence") (PyList.min positions).

Definition next_uuid : M string :=
  fun w =>
    (Ok (uuid1 w (uuid_calls w)),
     mkWorld (self w) (disk w) (fs_write w) (uuid1 w) (S (uuid_calls w))).

Definition add_playlist_to_tree (playlist : Playlist) (index : option Z)
  : M unit :=
  do uuid <- next_uuid;
  let node := playlist_node uuid playlist in
  do s <- gets self;
  let ending_playlists := List.filter is_ending (playlists s) in
  do max_index <- (if negb (Nat.eqb (length ending_playlists) 0)
                   then lift (min_ending_index (playlists s) ending_playlists)
                   else playlists_tree_len);
  let index :=
    match index with
    | None => Z.of_nat max_index
    | Some index =>
        if (index >? Z.of_nat max_index)%Z then Z.of_nat max_index else index
    end in
  do _ <- playlists_tree_insert index node;
  playlists_insert index playlist.

Definition _save_tree (file_path : string) : M unit :=
  tree_write file_path (mkWriteOptions "utf-8" true false).

#[export] Instance class : ParserClass := {
  get_songs_and_playlists := get_songs_and_playlists;
  add_playlist_to_tree := add_playlist_to_tree;
  _save_tree := _save_tree
}.

(** Inherited from [Parser]. *)
Definition init : string -> Element -> bool -> M unit := Parser_.init.
Definition add_playlists_to_tree : list Playlist -> M unit :=
  Parser_.add_playlists_to_tree.
Definition save_file : option string -> bool -> M unit := Parser_.save_file.

End TraktorParser.

(** ** [Exporter] *)

Module Exporter.

Definition convert_traktor_song_to_recordbox (traktor_song : Song)
    (recordbox_parser : Parser) : result Song :=
  let results :=
    List.filter (fun x => String.eqb (song_path x) (song_path traktor_song))
      (songs recordbox_parser) in
  match results with
  | x :: _ => Ok x
  | [] =>
      Raise (Exception
               ("Traktor Song " +:+ song_name traktor_song
                +:+ " doesn't exist in RecordBox Collection. Please add it to collection first"))
  end.

End Exporter.

(** ** [RecordBoxParser] *)

Module RecordBoxParser.

Section Traversal.

(** [urllib.parse.unquote] and [int] on a string come from Python's
    library; [int] raises [ValueError] on what it cannot read. *)
Variable unquote : string -> string.
Variable int : string -> option Z.

Definition read_song (ch : Element)
  : SE (Parser * gmap string Song) unit :=
  do id <- lift (ET.get "TrackID" ch);
  do name <- lift (ET.get "Name" ch);
  do location <- lift (ET.get "Location" ch);
  do size_attr <- lift (ET.get "Size" ch);
  do size <- lift (of_option (ValueError "invalid literal for int()") (int size_attr));
  let song := new_RecordSong unquote id name location (Some size) in
  do _ <- on_self (fun s => set_songs (songs s ++ [song]) s);
  on_locals (fun d => <[id := song]> d).

Definition read_playlist (playlist : Element)
  : SE (Parser * gmap string Song) unit :=
  do songs_id <- lift (collect (fun song => let? k := ET.get "Key" song in Ok [k])
                         (children playlist));
  do d <- gets snd;
  do songs <- lift (collect (fun id => let? s := of_option (KeyError id) (d !! id) in Ok [s])
                      songs_id);
  do name <- lift (ET.get "Name" playlist);
  let recordbox_playlist := mkPlaylist name songs in
  on_self (fun s => set_playlists (playlists s ++ [recordbox_playlist]) s).

Definition read_root_child (ic : nat * Element)
  : SE (Parser * gmap string Song) unit :=
  let '(i, child) := ic in
  do _ <- (if String.eqb (tag child) "COLLECTION"
           then
             do _ <- on_self (set_songs_tree (Some [i]));
             for_each (children child) read_song
           else ret tt);
  if String.eqb (tag child) "PLAYLISTS"
  then
    for_each (enumerate (children child)) (fun '(j, node_root) =>
      do _ <- on_self (set_playlists_tree (Some [i; j]));
      for_each (children node_root) read_playlist)
  else ret tt.

(** Unlike the Traktor one, this traversal does not reset [self.songs]
    and [self.playlists]: it appends to what [__init__] left there. *)
Definition get_songs_and_playlists : M unit :=
  with_locals (∅ : gmap string Song)
    (do root <- gets (fun fr => tree (fst fr));
     for_each (enumerate (children root)) read_root_child).

End Traversal.

(** One iteration of the loop over [playlist.songs]: [node] with its new
    [TRACK] child. *)
Definition add_track (s : Parser) (node : Element) (song : Song)
  : result Element :=
  let? song :=
    if is_TraktorSong song
    then Exporter.convert_traktor_song_to_recordbox song s
    else Ok song in
  let? id := song_id song in
  let track := ET.new_Element "TRACK" in
  let track := ET.set "Key" id track in
  let track := ET.set_tail newline track in
  Ok (ET.append track node).

Fixpoint add_tracks (s : Parser) (node : Element) (l : list Song)
  : result Element :=
  match l with
  | [] => Ok node
  | song :: l' =>
      let? node := add_track s node song in
      add_tracks s node l'
  end.

Definition playlist_header (playlist : Playlist) : Element :=
  let node := ET.new_Element "NODE" in
  let node := ET.set "Name" (playlist_name playlist) node in
  let node := ET.set "Type" "1" node in
  let node := ET.set "KeyType" "0" node in
  ET.set "Entries" (PyStr.of_nat (nb_entries playlist)) node.

(** [node] is a local variable: while the tracks are added it is not yet
    part of the document, and an exception raised by the loop drops it. *)
Definition add_playlist_to_tree (playlist : Playlist) (index : option Z)
  : M unit :=
  let node := playlist_header playlist in
  do s <- gets self;
  do node <- lift (add_tracks s node (playlist_songs playlist));
  do index <- match index with
              | None => do n <- playlists_tree_len; ret (Z.of_nat n)
              | Some index => ret index
              end;
  do _ <- playlists_tree_insert index node;
  playlists_insert index playlist.

Definition _save_tree (file_path : string) : M unit :=
  tree_write file_path (mkWriteOptions "utf-8" true true).

#[export] Instance class (unquote : string -> string)
    (int : string -> option Z) : ParserClass := {
  get_songs_and_playlists := get_songs_and_playlists unquote int;
  add_playlist_to_tree := add_playlist_to_tree;
  _save_tree := _save_tree
}.

(** Inherited from [Parser]. *)
Section Inherited.
Variable unquote : string -> string.
Variable int : string -> option Z.

Definition init : string -> Element -> bool -> M unit :=
  Parser_.init (H := class unquote int).
Definition add_playlists_to_tree : list Playlist -> M unit :=
  Parser_.add_playlists_to_tree (H := class unquote int).
Definition save_file : option string -> bool -> M unit :=
  Parser_.save_file (H := class unquote int).
End Inherited.

End RecordBoxParser.

(** ** [get_playlists_from_tree] *)

(** What [print] was given: a string, or the [attrib] dict of an element. *)
Inductive printed : Type :=
| Text (s : string)
| Attrib (d : list (string * string)).

(** A method that only prints: what it has printed, in order, and how it
    ended. *)
Definition Out (A : Type) : Type := list printed * result A.

Definition out_bind {A B} (c : Out A) (k : A -> Out B) : Out B :=
  match c with
  | (o, Ok a) => let '(o', r) := k a in (o ++ o', r)
  | (o, Raise e) => (o, Raise e)
  end.

Definition print (x : printed) : Out unit := ([x], Ok tt).

Fixpoint out_for_each {A} (l : list A) (body : A -> Out unit) : Out unit :=
  match l with
  | [] => ([], Ok tt)
  | x :: l' => out_bind (body x) (fun _ => out_for_each l' body)
  end.

(** [for playlist in self.playlists_tree] *)
Definition for_playlists_tree (s : Parser) (body : Element -> Out unit)
  : Out unit :=
  match playlists_fragment s with
  | Some e => out_for_each (children e) body
  | None => ([], Raise (TypeError "'NoneType' object is not iterable"))
  end.

Module TraktorControl.

Definition get_playlists_from_tree (s : Parser) (return_track : bool)
  : Out unit :=
  for_playlists_tree s (fun playlist =>
    out_bind ([], ET.get "NAME" playlist) (fun name =>
    out_bind (print (Text name)) (fun _ =>
    if return_track
    then
      out_for_each (children playlist) (fun abcd =>
        out_for_each (children abcd) (fun abc =>
          out_for_each (children abc) (fun ab =>
            out_bind ([], ET.get "KEY" ab) (fun key => print (Text key)))))
    else ([], Ok tt)))).

End TraktorControl.

Module RecordBoxControl.

Definition get_playlists_from_tree (s : Parser) (return_track : bool)
  : Out unit :=
  for_playlists_tree s (fun playlist =>
    out_bind ([], ET.get "Name" playlist) (fun name =>
    out_bind (print (Text name)) (fun _ =>
    if return_track
    then
      out_for_each (children playlist) (fun abcd => print (Attrib (attrib abcd)))
    else ([], Ok tt)))).

End RecordBoxControl.

(** ** The script [main.py] *)

Module Main.

Definition TRAKTOR_COLLECTION_PATH : string :=
  "C:\Users\Nono\Documents\Native Instruments\Traktor 3.0.0\collection.nml".

Definition RECORDBOX_COLLECTION_PATH : string :=
  "C:\Users\Nono\AppData\Roaming\Pioneer\rekordbox\recordbox.xml".

(** [l[:stop]] *)
Definition slice_until {A} (stop : Z) (l : list A) : list A :=
  let n := Z.of_nat (length l) in
  let stop := if (stop <? 0)%Z then Z.max 0 (stop + n) else Z.min stop n in
  take (Z.to_nat stop) l.

Section Script.
Variable unquote : string -> string.
Variable int : string -> option Z.

(** The copy of the playlists from Traktor to RecordBox.  [traktor_doc] and
    [recordbox_doc] are what [ET.parse] produces from the two collection
    files.  The script holds two parsers; [self] is the one whose method
    runs, and [traktor_parser] is only read once it is built. *)
Definition main (traktor_doc recordbox_doc : Element) : M unit :=
  do _ <- TraktorParser.init TRAKTOR_COLLECTION_PATH traktor_doc true;
  do traktor_parser <- gets self;
  let traktor_playlists := slice_until (-2) (playlists traktor_parser) in
  do _ <- RecordBoxParser.init unquote int RECORDBOX_COLLECTION_PATH
            recordbox_doc true;
  do _ <- RecordBoxParser.add_playlists_to_tree unquote int traktor_playlists;
  RecordBoxParser.save_file unquote int None true.

End Script.

End Main.

(** * Sample documents *)

Module Sample.

Definition elem (tag : string) (attrib : list (string * string))
    (children : list Element) : Element :=
  mkElement tag attrib None None children.

Definition backslash : string := Song_codec.backslash.

(** A Traktor collection: two tracks, the playlist [House] with both, and
    the two playlists that Traktor keeps last. *)
Definition traktor_entry (title file : string) : Element :=
  elem "ENTRY" [("TITLE", title)]
    [elem "LOCATION" [("DIR", "/:M/:"); ("FILE", file); ("VOLUME", "C:")] []].

Definition traktor_playlist (name : string) (keys : list string) : Element :=
  elem "NODE" [("TYPE", "PLAYLIST"); ("NAME", name)]
    [elem "PLAYLIST" [("ENTRIES", PyStr.of_nat (length keys)); ("TYPE", "LIST");
                      ("UUID", "6f1d")]
       (map (λ k, elem "ENTRY" []
                    [elem "PRIMARYKEY" [("TYPE", "TRACK"); ("KEY", k)] []])
            keys)].

Definition traktor_doc : Element :=
  elem "NML" [("VERSION", "19")]
    [elem "HEAD" [] [];
     elem "COLLECTION" [("ENTRIES", "2")]
       [traktor_entry "A" "a.mp3"; traktor_entry "B" "b.mp3"];
     elem "PLAYLISTS" []
       [elem "NODE" [("TYPE", "FOLDER"); ("NAME", "$ROOT")]
          [elem "SUBNODES" [("COUNT", "3")]
             [traktor_playlist "House" ["C:/:M/:a.mp3"; "C:/:M/:b.mp3"];
              traktor_playlist "_LOOPS" [];
              traktor_playlist "_RECORDINGS" []]]]].


(** A RecordBox collection with the same two files and one playlist. *)
Definition recordbox_track (id name location : string) : Element :=
  elem "TRACK" [("TrackID", id); ("Name", name); ("Location", location);
                ("Size", "1000")] [].

Definition recordbox_playlist (name : string) (keys : list string) : Element :=
  elem "NODE" [("Name", name); ("Type", "1"); ("KeyType", "0");
               ("Entries", PyStr.of_nat (length keys))]
    (map (λ k, elem "TRACK" [("Key", k)] []) keys).

Definition recordbox_doc (tracks : list Element) : Element :=
  elem "DJ_PLAYLISTS" [("Version", "1.0.0")]
    [elem "PRODUCT" [] [];
     elem "COLLECTION" [] tracks;
     elem "PLAYLISTS" []
       [elem "NODE" [("Type", "0"); ("Name", "ROOT"); ("Count", "1")]
          [recordbox_playlist "Warmup" ["1"]]]].

Definition both_tracks : list Element :=
  [recordbox_track "1" "A" "file://localhost/C:/M/a.mp3";
   recordbox_track "2" "B" "file://localhost/C:/M/b.mp3"].

Definition first_track_only : list Element :=
  [recordbox_track "1" "A" "file://localhost/C:/M/a.mp3"].

(** A document with two containers of playlists. *)
Definition two_containers_doc : Element :=
  elem "DJ_PLAYLISTS" []
    [elem "COLLECTION" [] both_tracks;
     elem "PLAYLISTS" []
       [elem "NODE" [] [recordbox_playlist "One" ["1"]];
        elem "NODE" [] [recordbox_playlist "Two" ["2"]]]].

(** The locations above have nothing to unquote, and the sizes are plain. *)
Definition unquote (s : string) : string := s.
Definition int (s : string) : option Z :=
  if String.eqb s "1000" then Some 1000%Z else None.

(** Before [__init__] has run there is no parser to speak of. *)
Definition blank : World :=
  mkWorld (mkParser false "" (ET.new_Element "") None None [] []) ∅
    (λ _, Written)
    (λ n, "c0ffee-" +:+ PyStr.of_nat n) 0.

(** The worlds after [TraktorParser("collection.nml")] and
    [RecordBoxParser("recordbox.xml")] on these documents. *)
Definition traktor_world : World :=
  Eval vm_compute in
  snd (TraktorParser.init "collection.nml" traktor_doc true blank).

Definition recordbox_world : World :=
  Eval vm_compute in
  snd (RecordBoxParser.init unquote int "recordbox.xml"
         (recordbox_doc both_tracks) true blank).


Definition recordbox_two_containers_world : World :=
  Eval vm_compute in
  snd (RecordBoxParser.init unquote int "recordbox.xml" two_containers_doc
         true blank).

Definition recordbox_world_one_track : World :=
  Eval vm_compute in
  snd (RecordBoxParser.init unquote int "recordbox.xml"
         (recordbox_doc first_track_only) true blank).

Definition song_a : Song :=
  TraktorSong "A" "C:/:M/:a.mp3" ("C:" +:+ backslash +:+ "M" +:+ backslash +:+ "a.mp3").
Definition song_b : Song :=
  TraktorSong "B" "C:/:M/:b.mp3" ("C:" +:+ backslash +:+ "M" +:+ backslash +:+ "b.mp3").

Definition house : Playlist := mkPlaylist "House" [song_a; song_b].
Definition techno : Playlist := mkPlaylist "Techno" [song_b].

(** The RecordBox parser with its library on disk next to an earlier
    export. *)
Definition recordbox_on_disk : World :=
  set_disk (<["recordbox.xml" := Bytes "library"]>
              (<["export.xml" := Bytes "earlier export"]> ∅))
    recordbox_world.

End Sample.

Module Sample_script.

(** The two collection files before the script runs, and the world it
    leaves. *)
Definition before : World :=
  set_disk (<[Main.RECORDBOX_COLLECTION_PATH := Bytes "library"]>
              (<[Main.TRAKTOR_COLLECTION_PATH := Bytes "collection"]> ∅))
    Sample.blank.

Definition after : World :=
  Eval vm_compute in
  snd (Main.main Sample.unquote Sample.int Sample.traktor_doc
         (Sample.recordbox_doc Sample.both_tracks) before).

(** The same with a RecordBox collection file that cannot be opened for
    writing. *)
Definition read_only : World :=
  mkWorld (self before) (disk before)
    (λ path, if String.eqb path Main.RECORDBOX_COLLECTION_PATH
             then Refused else Written)
    (uuid1 before) (uuid_calls before).

Definition after_read_only : World :=
  Eval vm_compute in
  snd (Main.main Sample.unquote Sample.int Sample.traktor_doc
         (Sample.recordbox_doc Sample.both_tracks) read_only).

End Sample_script.

(** * Vocabulary of the properties *)

(** Two handles diverge when, after a common prefix, they go into different
    children: neither element contains the other. *)
Fixpoint diverge (q h : handle) : Prop :=
  match q, h with
  | i :: q', j :: h' => i ≠ j ∨ (i = j ∧ diverge q' h')
  | _, _ => False
  end.

(** The reserved trailing playlists of the Traktor dialect. *)
Definition reserved (p : Playlist) : Prop :=
  playlist_name p = "_LOOPS" ∨ playlist_name p = "_RECORDINGS".

Global Instance reserved_dec (p : Playlist) : Decision (reserved p).
Proof. unfold reserved. apply _. Defined.

(** The ceiling: the smallest position of a reserved playlist, or the
    number of playlists when there is none. *)
Definition ceiling (l : list Playlist) : nat :=
  match list_find reserved l with
  | Some (i, _) => i
  | None => length l
  end.

(** [x] placed at position [k] of [l]. *)
Definition insert_at {A} (k : nat) (x : A) (l : list A) : list A :=
  take k l ++ x :: drop k l.

(** The parser after [node] and [playlist] went in at [index]. *)
Definition spliced (index : Z) (node : Element) (playlist : Playlist)
    (h : handle) (s : Parser) : Parser :=
  set_playlists (PyList.ins1 index playlist (playlists s))
    (set_tree (update h (ET.ins1 index node) (tree s)) s).

(** The indices that [list.insert] and [Element.insert] accept. *)
Definition fits_ssize_t (index : Z) : Prop :=
  (PyList.PY_SSIZE_T_MIN ≤ index ≤ PyList.PY_SSIZE_T_MAX)%Z.

Global Instance fits_ssize_t_dec (index : Z) : Decision (fits_ssize_t index).
Proof. unfold fits_ssize_t. apply _. Defined.

(** The world after one more call of [uuid.uuid1()]. *)
Definition tick (w : World) : World :=
  mkWorld (self w) (disk w) (fs_write w) (uuid1 w) (S (uuid_calls w)).

(** [max_index] and the final [index] of
    [TraktorParser.add_playlist_to_tree]. *)
Definition traktor_max_index (s : Parser) : nat :=
  match list_find reserved (playlists s) with
  | Some (i, _) => i
  | None => length (playlist_nodes s)
  end.

Definition traktor_index (max_index : nat) (index : option Z) : Z :=
  match index with
  | None => Z.of_nat max_index
  | Some i => if (i >? Z.of_nat max_index)%Z then Z.of_nat max_index else i
  end.

(** The final [index] of [RecordBoxParser.add_playlist_to_tree]. *)
Definition recordbox_index (s : Parser) (index : option Z) : Z :=
  match index with
  | None => Z.of_nat (length (playlist_nodes s))
  | Some i => i
  end.

(** The name attribute of a playlist node: [NAME] for Traktor, [Name] for
    RecordBox. *)
Definition node_name (key : string) (e : Element) : option string :=
  ET.dict_get key (attrib e).

(** Same length, and at every position the name of the playlist is the name
    attribute of the node. *)
Definition lockstep (key : string) (s : Parser) : Prop :=
  node_name key <$> playlist_nodes s
  = (λ p, Some (playlist_name p)) <$> playlists s.

(** The node that the parser builds for a playlist, if every song resolves. *)
Definition recordbox_node (s : Parser) (playlist : Playlist) : result Element :=
  RecordBoxParser.add_tracks s (RecordBoxParser.playlist_header playlist)
    (playlist_songs playlist).

(** The keywords that each [_save_tree] passes to [write]. *)
Definition traktor_options : write_options := mkWriteOptions "utf-8" true false.
Definition recordbox_options : write_options := mkWriteOptions "utf-8" true true.

(** What [save_file(path, backup=True)] leaves on disk: the file at the load
    path copied to the load path with [.bak] appended, then the tree written
    to the destination. *)
Definition saved_with_backup (options : write_options) (path : option string)
    (w w' : World) : Prop :=
  ∃ f,
    disk w !! file_path (self w) = Some f
    ∧ disk w'
      = <[default (file_path (self w)) path := Serialized options (tree (self w))]>
          (<[file_path (self w) +:+ ".bak" := f]> (disk w))
    ∧ self w' = self w.

(** The songs section and the playlists fragment are apart in the document:
    neither contains the other. *)
Definition handles_apart (s : Parser) : Prop :=
  match songs_tree s, playlists_tree s with
  | Some q, Some h => diverge q h
  | _, _ => True
  end.

(** The names of the playlists in the sequence. *)
Definition names (s : Parser) : list (option string) :=
  (λ p, Some (playlist_name p)) <$> playlists s.

(** What a part of a traversal does to the playlists side of the parser:
    the document is not modified, [ks] is what is added to the names of the
    playlists, and [playlists_tree] is assigned [h] or not assigned. *)
Definition traversed {L} (ks : list (option string)) (h : option handle)
    (s s' : Parser * L) : Prop :=
  tree (fst s') = tree (fst s)
  ∧ names (fst s') = names (fst s) ++ ks
  ∧ playlists_tree (fst s') = from_option Some (playlists_tree (fst s)) h.

(** The same for a part that goes through the containers [cs], each with
    its handle: the names added are those of the children of each, and
    [playlists_tree] is left on the last one. *)
Definition visited {L} (key : string) (cs : list (handle * Element))
    (s s' : Parser * L) : Prop :=
  traversed (cs ≫= λ c, node_name key <$> children (snd c)) (fst <$> last cs)
    s s'.

(** The containers that the Traktor traversal goes through, in order: the
    grandchildren of every [PLAYLISTS] child of the root. *)
Definition traktor_containers_of (ic : nat * Element) : list (handle * Element) :=
  if String.eqb (tag (snd ic)) "PLAYLISTS"
  then enumerate (children (snd ic)) ≫= λ jn,
         enumerate (children (snd jn)) ≫= λ ks,
           [([fst ic; fst jn; fst ks], snd ks)]
  else [].

Definition traktor_containers (root : Element) : list (handle * Element) :=
  enumerate (children root) ≫= traktor_containers_of.

(** A document has the shape the traversal expects when it goes through at
    most one container of playlists. *)
Definition traktor_single_container (doc : Element) : Prop :=
  length (traktor_containers doc) ≤ 1.

(** The containers that the RecordBox traversal goes through, in order: the
    children of every [PLAYLISTS] child of the root. *)
Definition recordbox_containers_of (ic : nat * Element)
  : list (handle * Element) :=
  if String.eqb (tag (snd ic)) "PLAYLISTS"
  then enumerate (children (snd ic)) ≫= λ jn, [([fst ic; fst jn], snd jn)]
  else [].

Definition recordbox_containers (root : Element) : list (handle * Element) :=
  enumerate (children root) ≫= recordbox_containers_of.

Definition recordbox_single_container (doc : Element) : Prop :=
  length (recordbox_containers doc) ≤ 1.

(** The traversal steps under which [songs_tree] stays as it is. *)
Definition same_songs_tree {L} (s s' : Parser * L) : Prop :=
  songs_tree (fst s') = songs_tree (fst s).

(** [songs_tree], once assigned, is on a child of the root that is tagged
    [COLLECTION]. *)
Definition songs_tree_on_collection {L} (root : Element) (s : Parser * L)
  : Prop :=
  ∀ q, songs_tree (fst s) = Some q →
       ∃ i child, q = [i] ∧ children root !! i = Some child
                  ∧ tag child = "COLLECTION".

(** What can be done with a parser once it is built. *)
Inductive operation : Type :=
| Add_playlist (playlist : Playlist) (index : option Z)
| Add_playlists (given : list Playlist)
| Save_file (path : option string) (backup : bool).

Definition perform `{ParserClass} (o : operation) : M unit :=
  match o with
  | Add_playlist playlist index => add_playlist_to_tree playlist index
  | Add_playlists given => Parser_.add_playlists_to_tree given
  | Save_file path backup => Parser_.save_file path backup
  end.

(** The [ENTRY] element that [add_traktor_track_to_playlist] makes for a
    song, and the [TRACK] element of the RecordBox dialect for an id. *)
Definition traktor_entry_node (song : Song) : Element :=
  mkElement "ENTRY" [] None (Some newline)
    [mkElement "PRIMARYKEY"
       [("TYPE", "TRACK");
        ("KEY", Song_codec.normal_path_to_traktor_path (song_path song))]
       None (Some newline) []].

Definition recordbox_track_node (id : string) : Element :=
  mkElement "TRACK" [("Key", id)] None (Some newline) [].

(** The song that the RecordBox parser refers to for a song of a playlist:
    the counterpart of a [TraktorSong], any other song itself. *)
Definition resolve (s : Parser) (song : Song) : result Song :=
  if is_TraktorSong song
  then Exporter.convert_traktor_song_to_recordbox song s
  else Ok song.

(** Every song of every playlist of the parser is one of its songs. *)
Definition playlists_within (p : Parser) : Prop :=
  ∀ pl, pl ∈ playlists p → ∀ x, x ∈ playlist_songs pl → x ∈ songs p.

(** A song as the Traktor traversal makes them, and as the RecordBox
    traversal makes them. *)
Definition traktor_made (x : Song) : Prop :=
  match x with
  | TraktorSong _ traktor_path path =>
      path = Song_codec.traktor_path_to_normal_path traktor_path
  | RecordSong _ _ _ _ _ _ => False
  end.

Definition recordbox_made (unquote : string → string) (x : Song) : Prop :=
  match x with
  | RecordSong _ _ path record_path file_name (Some _) =>
      path = Song_codec.record_path_to_normal_path unquote record_path
      ∧ file_name = List.last (PyStr.split Song_codec.backslash path) EmptyString
  | _ => False
  end.

(** What holds of the collection while it is being read: the songs are of
    the dialect's making, the playlists read so far hold songs of the
    collection, and so does the dict, each under its own key. *)
Definition reading {L} (made : Song → Prop) (dict : L → gmap string Song)
    (keyed : string → Song → Prop) (s : Parser * L) : Prop :=
  Forall made (songs (fst s))
  ∧ playlists_within (fst s)
  ∧ ∀ k v, dict (snd s) !! k = Some v → v ∈ songs (fst s) ∧ keyed k v.

Definition traktor_keyed (k : string) (v : Song) : Prop :=
  match v with
  | TraktorSong _ traktor_path _ => traktor_path = k
  | RecordSong _ _ _ _ _ _ => False
  end.

Definition recordbox_keyed (k : string) (v : Song) : Prop := song_id v = Ok k.

(** * Properties *)

(** ** The model on the sample documents *)

Example split_keeps_empty_pieces :
  PyStr.split "/:" "a/:/:b/:" = ["a"; ""; "b"; ""].
Proof. reflexivity. Qed.

Example replace_does_not_overlap : PyStr.replace "aa" "b" "aaa" = "ba".
Proof. reflexivity. Qed.

Example traktor_path_decoded :
  Song_codec.traktor_path_to_normal_path "C:/:M/:a.mp3"
  = "C:" +:+ Sample.backslash +:+ "M" +:+ Sample.backslash +:+ "a.mp3".
Proof. reflexivity. Qed.

Example record_path_decoded :
  Song_codec.record_path_to_normal_path Sample.unquote
    "file://localhost/C:/M/a.mp3"
  = "C:" +:+ Sample.backslash +:+ "M" +:+ Sample.backslash +:+ "a.mp3".
Proof. reflexivity. Qed.

Example insert_negative_index :
  PyList.insert (-1) 9 [1; 2; 3] = Ok [1; 2; 9; 3].
Proof. reflexivity. Qed.

Example insert_far_negative_index :
  PyList.insert (-10) 9 [1; 2; 3] = Ok [9; 1; 2; 3].
Proof. reflexivity. Qed.

Example insert_index_beyond_end :
  PyList.insert 10 9 [1; 2; 3] = Ok [1; 2; 3; 9].
Proof. reflexivity. Qed.

Example insert_index_overflow :
  PyList.insert (2 ^ 63) 9 [1; 2; 3]
  = Raise (OverflowError "Python int too large to convert to C ssize_t")
  ∧ PyList.insert (2 ^ 63 - 1) 9 [1; 2; 3] = Ok [1; 2; 3; 9]
  ∧ PyList.insert (- 2 ^ 63 - 1) 9 [1; 2; 3]
    = Raise (OverflowError "Python int too large to convert to C ssize_t")
  ∧ PyList.insert (- 2 ^ 63) 9 [1; 2; 3] = Ok [9; 1; 2; 3].
Proof. repeat split. Qed.

Example traktor_world_parsed :
  TraktorParser.init "collection.nml" Sample.traktor_doc true Sample.blank
  = (Ok tt, Sample.traktor_world).
Proof. vm_compute. reflexivity. Qed.

Example traktor_world_playlists :
  playlist_name <$> playlists (self Sample.traktor_world)
  = ["House"; "_LOOPS"; "_RECORDINGS"]
  ∧ playlists_tree (self Sample.traktor_world) = Some [2; 0; 0]
  ∧ songs_tree (self Sample.traktor_world) = Some [1]
  ∧ songs (self Sample.traktor_world) = [Sample.song_a; Sample.song_b].
Proof. repeat split. Qed.

Example recordbox_world_parsed :
  RecordBoxParser.init Sample.unquote Sample.int "recordbox.xml"
    (Sample.recordbox_doc Sample.both_tracks) true Sample.blank
  = (Ok tt, Sample.recordbox_world).
Proof. vm_compute. reflexivity. Qed.

(** Transferring [House] to the RecordBox collection: one new node after
    the playlist that was there, with the keys of the two tracks in order. *)
Example house_transferred :
  playlist_nodes
    (self (snd (RecordBoxParser.add_playlists_to_tree Sample.unquote Sample.int
                  [Sample.house] Sample.recordbox_world)))
  = [Sample.recordbox_playlist "Warmup" ["1"];
     mkElement "NODE"
       [("Name", "House"); ("Type", "1"); ("KeyType", "0"); ("Entries", "2")]
       None None
       [mkElement "TRACK" [("Key", "1")] None (Some newline) [];
        mkElement "TRACK" [("Key", "2")] None (Some newline) []]].
Proof. vm_compute. reflexivity. Qed.

(** A playlist new to the Traktor collection goes before [_LOOPS], also
    when a later position is asked for. *)
Example techno_before_loops :
  playlist_name
  <$> playlists
        (self (snd (TraktorParser.add_playlist_to_tree Sample.techno
                      (Some 3%Z) Sample.traktor_world)))
  = ["House"; "Techno"; "_LOOPS"; "_RECORDINGS"].
Proof. vm_compute. reflexivity. Qed.

(** ** Strings *)

Section PyStr_facts.

Lemma string_app_cons (c : ascii) (s1 s2 : string) :
  String c s1 +:+ s2 = String c (s1 +:+ s2).
Proof. reflexivity. Qed.

Lemma string_app_nil_r (s : string) : s +:+ "" = s.
Proof.
  induction s as [|c s IH]; [reflexivity|].
  by rewrite string_app_cons, IH.
Qed.

Lemma string_app_assoc (s1 s2 s3 : string) :
  (s1 +:+ s2) +:+ s3 = s1 +:+ (s2 +:+ s3).
Proof.
  induction s1 as [|c s1 IH]; [reflexivity|].
  by rewrite !string_app_cons, IH.
Qed.

Lemma split_scan_not_nil sep skip cur s : PyStr.split_scan sep skip cur s ≠ [].
Proof.
  revert skip cur. induction s as [|c s IH]; intros skip cur; [done|].
  cbn [PyStr.split_scan]. destruct skip; [|by apply IH].
  destruct (PyStr.startswith sep (String c s)); [done|by apply IH].
Qed.

Lemma join_cons sep x l :
  l ≠ [] → PyStr.join sep (x :: l) = x +:+ sep +:+ PyStr.join sep l.
Proof. by destruct l. Qed.

Local Abbreviation enc := Song_codec.normal_path_to_traktor_path.

Lemma enc_cons (c : ascii) (p : string) :
  enc (String c p)
  = if Ascii.eqb (ascii_of_nat 92) c then "/:" +:+ enc p else String c (enc p).
Proof.
  unfold enc, PyStr.replace, Song_codec.backslash.
  cbn [PyStr.replace_scan PyStr.startswith String.length Nat.sub].
  by destruct (Ascii.eqb (ascii_of_nat 92) c).
Qed.

(** The encoding starts with a colon only where the path does. *)
Lemma enc_starts_with_colon (p : string) :
  PyStr.startswith ":" (enc p) = PyStr.startswith ":" p.
Proof.
  destruct p as [|c p]; [done|]. rewrite enc_cons.
  destruct (Ascii.eqb (ascii_of_nat 92) c) eqn:E; [|done].
  apply Ascii.eqb_eq in E as <-. done.
Qed.

Lemma split_enc (p cur : string) :
  PyStr.contains "/:" p = false →
  PyStr.join Song_codec.backslash (PyStr.split_scan "/:" 0 cur (enc p))
  = cur +:+ p.
Proof.
  revert cur. induction p as [|c p IH]; intros cur Hp.
  - cbn. by rewrite string_app_nil_r.
  - cbn [PyStr.contains] in Hp. apply orb_false_iff in Hp as [Hc Hp].
    rewrite enc_cons. destruct (Ascii.eqb (ascii_of_nat 92) c) eqn:E.
    + apply Ascii.eqb_eq in E as <-.
      change ("/:" +:+ enc p) with (String "/" (String ":" (enc p))).
      cbn [PyStr.split_scan PyStr.startswith String.length Nat.sub Ascii.eqb
           Bool.eqb].
      rewrite join_cons by apply split_scan_not_nil.
      by rewrite (IH "" Hp).
    + assert (PyStr.startswith "/:" (String c (enc p)) = false) as Hs.
      { cbn [PyStr.startswith] in Hc |- *.
        destruct (Ascii.eqb "/" c); [|done].
        change (PyStr.startswith ":" (enc p) = false).
        rewrite enc_starts_with_colon. exact Hc. }
      cbn [PyStr.split_scan]. rewrite Hs, (IH _ Hp).
      by rewrite string_app_assoc.
Qed.

End PyStr_facts.

(** C8. Decoding the token encoding of a native path gives the path back,
    for every path in which the two characters [/:] do not occur next to
    each other: [traktor_path_to_normal_path (normal_path_to_traktor_path p)
    = p], where encoding replaces every backslash by [/:] and decoding
    splits on [/:] and joins with a backslash. *)
Theorem traktor_path_round_trip (p : string) :
  PyStr.contains "/:" p = false →
  Song_codec.traktor_path_to_normal_path
    (Song_codec.normal_path_to_traktor_path p) = p.
Proof.
  intros Hp. unfold Song_codec.traktor_path_to_normal_path, PyStr.split.
  by rewrite split_enc.
Qed.

Lemma traktor_path_round_trip_witness :
  PyStr.contains "/:" ("C:" +:+ Song_codec.backslash +:+ "M/x:" +:+ Song_codec.backslash +:+ "a.mp3") = false
  ∧ Song_codec.traktor_path_to_normal_path
      (Song_codec.normal_path_to_traktor_path
         ("C:" +:+ Song_codec.backslash +:+ "M/x:" +:+ Song_codec.backslash +:+ "a.mp3"))
    = "C:" +:+ Song_codec.backslash +:+ "M/x:" +:+ Song_codec.backslash +:+ "a.mp3".
Proof.
  split; [reflexivity|].
  apply traktor_path_round_trip. reflexivity.
Defined.

(** ** Cross-format resolution *)

Section Filter_facts.
Context {A : Type} (f : A → bool).

Lemma filter_nil_iff (l : list A) :
  List.filter f l = [] ↔ Forall (λ y, f y = false) l.
Proof.
  induction l as [|y l IH]; cbn.
  - split; [constructor|done].
  - destruct (f y) eqn:E.
    + split; [done|]. intros H. inversion H; congruence.
    + rewrite IH. split; [by constructor|]. by inversion 1.
Qed.

Lemma filter_head_inv (l : list A) (x : A) (r : list A) :
  List.filter f l = x :: r →
  ∃ l1 l2, l = l1 ++ x :: l2 ∧ f x = true ∧ Forall (λ y, f y = false) l1.
Proof.
  induction l as [|y l IH]; cbn; [done|].
  destruct (f y) eqn:E.
  - intros [= -> _]. exists [], l. by repeat split.
  - intros H. destruct (IH H) as (l1 & l2 & -> & Hx & Hl1).
    exists (y :: l1), l2. repeat split; [done|by constructor].
Qed.

Lemma filter_head_intro (l1 l2 : list A) (x : A) :
  f x = true → Forall (λ y, f y = false) l1 →
  List.filter f (l1 ++ x :: l2) = x :: List.filter f l2.
Proof.
  intros Hx. induction 1 as [|y l1 Hy _ IH]; cbn.
  - by rewrite Hx.
  - by rewrite Hy.
Qed.

End Filter_facts.

Lemma convert_ok_iff (s : Song) (p : Parser) (x : Song) :
  Exporter.convert_traktor_song_to_recordbox s p = Ok x ↔
  ∃ l1 l2, songs p = l1 ++ x :: l2
           ∧ song_path x = song_path s
           ∧ Forall (λ y, song_path y ≠ song_path s) l1.
Proof.
  unfold Exporter.convert_traktor_song_to_recordbox.
  set (f := λ x, String.eqb (song_path x) (song_path s)).
  assert (∀ l, Forall (λ y, f y = false) l
               ↔ Forall (λ y, song_path y ≠ song_path s) l) as Hneq.
  { intros l. apply Forall_proper; [|done]. intros y. unfold f.
    apply String.eqb_neq. }
  split.
  - destruct (List.filter f (songs p)) as [|x' r] eqn:E; [done|].
    intros [= ->]. apply filter_head_inv in E as (l1 & l2 & ? & Hx & ?).
    exists l1, l2. repeat split; [done| |by apply Hneq].
    by apply String.eqb_eq.
  - intros (l1 & l2 & -> & Hx & Hl1).
    rewrite (filter_head_intro f); [done| |by apply Hneq].
    by apply String.eqb_eq.
Qed.

Lemma convert_raise_iff (s : Song) (p : Parser) :
  (∃ e, Exporter.convert_traktor_song_to_recordbox s p = Raise e) ↔
  Forall (λ y, song_path y ≠ song_path s) (songs p).
Proof.
  unfold Exporter.convert_traktor_song_to_recordbox.
  set (f := λ x, String.eqb (song_path x) (song_path s)).
  assert (Forall (λ y, f y = false) (songs p)
          ↔ Forall (λ y, song_path y ≠ song_path s) (songs p)) as Hneq.
  { apply Forall_proper; [|done]. intros y. unfold f. apply String.eqb_neq. }
  rewrite <- Hneq, <- filter_nil_iff.
  destruct (List.filter f (songs p)); split; eauto; try done.
  by intros [e ?].
Qed.

(** C4. [convert_traktor_song_to_recordbox s p] returns [x] exactly when
    [x] is the first song of [p.songs] whose path equals the path of [s];
    it raises exactly when no song of [p.songs] has that path.  Being a
    function of [s] and [p] alone, it neither creates a song nor returns a
    placeholder: what it returns is an element of [p.songs]. *)
Theorem convert_returns_first_path_match (s : Song) (p : Parser) :
  (∀ x, Exporter.convert_traktor_song_to_recordbox s p = Ok x ↔
        ∃ l1 l2, songs p = l1 ++ x :: l2
                 ∧ song_path x = song_path s
                 ∧ Forall (λ y, song_path y ≠ song_path s) l1)
  ∧ ((∃ e, Exporter.convert_traktor_song_to_recordbox s p = Raise e) ↔
     Forall (λ y, song_path y ≠ song_path s) (songs p))
  ∧ (∀ x, Exporter.convert_traktor_song_to_recordbox s p = Ok x →
          x ∈ songs p).
Proof.
  split; [|split].
  - intros x. apply convert_ok_iff.
  - apply convert_raise_iff.
  - intros x (l1 & l2 & -> & _)%convert_ok_iff.
    apply elem_of_app. right. by left.
Qed.

(** ** Lists *)

Ltac insert_position_cases :=
  unfold PyList.insert_position; cbv zeta;
  rewrite ?Z.gtb_ltb;
  repeat match goal with
    | |- context [(?a <? ?b)%Z] =>
        lazymatch constr:((a, b)) with
        | context [if _ then _ else _] => fail
        | _ => destruct (Z.ltb_spec a b)
        end
    end;
  lia.

Section PyList_facts.
Context {A : Type}.
Implicit Types (l : list A) (x : A).

Lemma insert_position_le n index : PyList.insert_position n index ≤ n.
Proof.
  insert_position_cases.
Qed.

(** An index between [0] and the length is the position itself. *)
Lemma insert_position_in_range n index :
  (0 ≤ index ≤ Z.of_nat n)%Z → PyList.insert_position n index = Z.to_nat index.
Proof.
  intros H. insert_position_cases.
Qed.

Lemma insert_position_nat n k : k ≤ n → PyList.insert_position n (Z.of_nat k) = k.
Proof. intros H. rewrite insert_position_in_range; lia. Qed.

(** An index beyond the length lands on the length. *)
Lemma insert_position_beyond n index :
  (Z.of_nat n < index)%Z → PyList.insert_position n index = n.
Proof.
  intros H. insert_position_cases.
Qed.

(** A negative index counts from the end, down to position [0]. *)
Lemma insert_position_negative n index :
  (index < 0)%Z →
  PyList.insert_position n index = Z.to_nat (Z.max 0 (index + Z.of_nat n)).
Proof.
  intros H. insert_position_cases.
Qed.

Lemma insert_lookup index x l :
  PyList.ins1 index x l !! PyList.insert_position (length l) index = Some x.
Proof.
  unfold PyList.ins1. pose proof (insert_position_le (length l) index).
  apply list_lookup_middle. rewrite length_take. lia.
Qed.

(** Taking the new element out again leaves the old list: the old elements
    keep their order and nothing else is added or lost. *)
Lemma insert_delete index x l :
  delete (PyList.insert_position (length l) index) (PyList.ins1 index x l) = l.
Proof.
  unfold PyList.ins1. pose proof (insert_position_le (length l) index).
  set (i := PyList.insert_position (length l) index) in *.
  rewrite delete_take_drop.
  rewrite take_app_length' by (rewrite length_take; lia).
  rewrite cons_middle, app_assoc.
  rewrite drop_app_length' by (rewrite length_app, length_take; cbn; lia).
  apply take_drop.
Qed.

Lemma insert_at_length x l : PyList.ins1 (Z.of_nat (length l)) x l = l ++ [x].
Proof.
  unfold PyList.ins1. rewrite insert_position_nat by done.
  by rewrite take_ge, drop_ge by done.
Qed.

Lemma insert_fmap {B} (g : A → B) index x l :
  g <$> PyList.ins1 index x l = PyList.ins1 index (g x) (g <$> l).
Proof.
  unfold PyList.ins1. rewrite length_fmap.
  by rewrite fmap_app, fmap_cons, fmap_take, fmap_drop.
Qed.

Context `{EqDecision A}.

Lemma index_Some x l j :
  PyList.index x l = Some j → l !! j = Some x ∧ ∀ k, l !! k = Some x → j ≤ k.
Proof.
  revert j. induction l as [|y l IH]; intros j; cbn; [done|].
  destruct (decide (y = x)) as [->|Hne].
  - intros [= <-]. split; [done|]. lia.
  - destruct (PyList.index x l) as [j'|]; [|done]. intros [= <-].
    destruct (IH j' eq_refl) as [Hj Hmin]. split; [done|].
    intros [|k]; cbn; [congruence|]. intros Hk. apply Hmin in Hk. lia.
Qed.

Lemma index_elem_of x l : x ∈ l → is_Some (PyList.index x l).
Proof.
  induction 1 as [x l|x y l _ IH]; cbn.
  - rewrite decide_True by done. eauto.
  - destruct (decide (y = x)); [eauto|]. destruct IH as [j ->]. eauto.
Qed.

End PyList_facts.

Lemma min_Some (l : list nat) :
  l ≠ [] → ∃ m, PyList.min l = Some m ∧ m ∈ l ∧ ∀ j, j ∈ l → m ≤ j.
Proof.
  induction l as [|x l IH]; [done|]. intros _. cbn.
  destruct l as [|y l].
  - exists x. cbn. split; [done|]. split; [by left|].
    intros j ->%list_elem_of_singleton. done.
  - destruct IH as (m & -> & Hm & Hmin); [done|].
    exists (Nat.min x m). split; [done|]. split.
    + destruct (Nat.min_spec x m) as [[_ ->]|[_ ->]]; [by left|by right].
    + intros j [->|Hj]%elem_of_cons; [lia|]. apply Hmin in Hj. lia.
Qed.

(** [collect] over a function that returns one value or raises. *)
Lemma collect_singletons {A B} (g : A → option B) (e : A → exn) (l : list A) :
  Forall (λ x, is_Some (g x)) l →
  ∃ r, collect (λ x, let? i := of_option (e x) (g x) in Ok [i]) l = Ok r
       ∧ Forall2 (λ x i, g x = Some i) l r.
Proof.
  induction 1 as [|x l [i Hi] _ (r & Hr & IH)]; cbn.
  - exists []. by split.
  - exists (i :: r). rewrite Hi. cbn. rewrite Hr. cbn. split; [done|].
    by constructor.
Qed.

(** ** Handles *)

Lemma deref_update (h : handle) (f : Element → Element) (t : Element) :
  deref h (update h f t) = f <$> deref h t.
Proof.
  revert t. induction h as [|i h IH]; intros t; cbn; [done|].
  destruct (children t !! i) as [c|] eqn:E; cbn.
  - rewrite list_lookup_insert_eq by (by eapply lookup_lt_Some). apply IH.
  - by rewrite E.
Qed.

Lemma deref_update_diverge (q h : handle) (f : Element → Element) (t : Element) :
  diverge q h → deref q (update h f t) = deref q t.
Proof.
  revert h t. induction q as [|i q IH]; intros [|j h] t; cbn; try done.
  intros Hd. destruct (children t !! j) as [c|] eqn:E; [|done]. cbn.
  destruct Hd as [Hne|[-> Hd]].
  - by rewrite list_lookup_insert_ne.
  - rewrite list_lookup_insert_eq by (by eapply lookup_lt_Some).
    rewrite E. by apply IH.
Qed.

(** ** Where the Traktor parser inserts *)

Lemma is_ending_reserved (p : Playlist) :
  TraktorParser.is_ending p = true ↔ reserved p.
Proof.
  unfold TraktorParser.is_ending, reserved.
  by rewrite orb_true_iff, !String.eqb_eq.
Qed.

Lemma elem_of_filter_ending (p : Playlist) (l : list Playlist) :
  p ∈ List.filter TraktorParser.is_ending l ↔ p ∈ l ∧ reserved p.
Proof.
  rewrite !list_elem_of_In, filter_In, is_ending_reserved. done.
Qed.

(** What the source computes from the playlists named [_LOOPS] or
    [_RECORDINGS] is the position that [list_find] gives. *)
Lemma min_ending_index_find (l : list Playlist) :
  match list_find reserved l with
  | Some (i, _) =>
      List.filter TraktorParser.is_ending l ≠ []
      ∧ TraktorParser.min_ending_index l (List.filter TraktorParser.is_ending l)
        = Ok i
  | None => List.filter TraktorParser.is_ending l = []
  end.
Proof.
  destruct (list_find reserved l) as [[i x]|] eqn:E.
  - apply list_find_Some in E as (Hi & Hx & Hfirst).
    assert (x ∈ List.filter TraktorParser.is_ending l) as Hxin.
    { apply elem_of_filter_ending. split; [|done].
      by eapply list_elem_of_lookup_2. }
    split; [by intros Hnil; rewrite Hnil in Hxin; inversion Hxin|].
    unfold TraktorParser.min_ending_index.
    destruct (collect_singletons (λ q, PyList.index q l)
                (λ _, ValueError "x not in list")
                (List.filter TraktorParser.is_ending l)) as (r & -> & Hr).
    { apply Forall_forall. intros q [Hq _]%elem_of_filter_ending.
      by apply index_elem_of. }
    cbn. destruct (min_Some r) as (m & -> & Hm & Hmin).
    { intros ->. apply Forall2_nil_inv_r in Hr. rewrite Hr in Hxin.
      inversion Hxin. }
    cbn. f_equal.
    (* [m] is the first position of some reserved playlist *)
    apply list_elem_of_lookup_1 in Hm as [k Hk].
    destruct (Forall2_lookup_r _ _ _ _ _ Hr Hk) as (q & Hq & Hqm).
    apply index_Some in Hqm as [Hlq _].
    apply list_elem_of_lookup_2, elem_of_filter_ending in Hq as [_ Hqres].
    assert (¬ m < i) by (intros Hlt; by eapply Hfirst).
    (* and the first position of [x] is among the positions *)
    apply list_elem_of_lookup_1 in Hxin as [kx Hkx].
    destruct (Forall2_lookup_l _ _ _ _ _ Hr Hkx) as (jx & Hjx & Hxj).
    apply index_Some in Hxj as [_ Hxmin].
    apply list_elem_of_lookup_2, Hmin in Hjx. apply Hxmin in Hi. lia.
  - apply list_find_None in E. apply filter_nil_iff.
    eapply Forall_impl; [exact E|]. intros p Hp. cbn in Hp.
    destruct (TraktorParser.is_ending p) eqn:Ep; [|done].
    by apply is_ending_reserved in Ep.
Qed.

Lemma playlist_nodes_spliced index node playlist h s frag :
  playlists_tree s = Some h → deref h (tree s) = Some frag →
  playlist_nodes (spliced index node playlist h s)
  = PyList.ins1 index node (children frag).
Proof.
  intros Hh Hd. unfold playlist_nodes, playlists_fragment, spliced. cbn.
  by rewrite Hh, deref_update, Hd.
Qed.

Lemma playlist_nodes_fragment s h frag :
  playlists_tree s = Some h → deref h (tree s) = Some frag →
  playlist_nodes s = children frag.
Proof.
  intros Hh Hd. unfold playlist_nodes, playlists_fragment. by rewrite Hh, Hd.
Qed.

(** *** The conversion of the index *)

Lemma as_ssize_t_fits (index : Z) :
  fits_ssize_t index → PyList.as_ssize_t index = Ok index.
Proof.
  unfold fits_ssize_t, PyList.as_ssize_t. intros [H1 H2].
  apply Z.leb_le in H1, H2. by rewrite H1, H2.
Qed.

Lemma as_ssize_t_overflow (index : Z) :
  ¬ fits_ssize_t index →
  PyList.as_ssize_t index
  = Raise (OverflowError "Python int too large to convert to C ssize_t").
Proof.
  unfold fits_ssize_t, PyList.as_ssize_t. intros H.
  destruct (Z.leb_spec PyList.PY_SSIZE_T_MIN index);
    destruct (Z.leb_spec index PyList.PY_SSIZE_T_MAX); cbn; try done.
  exfalso. apply H. done.
Qed.

Lemma as_ssize_t_Ok (index where_ : Z) :
  PyList.as_ssize_t index = Ok where_ → where_ = index ∧ fits_ssize_t index.
Proof.
  destruct (decide (fits_ssize_t index)) as [H|H].
  - rewrite as_ssize_t_fits by done. by intros [= <-].
  - by rewrite as_ssize_t_overflow.
Qed.

Lemma update_const (h : handle) (f : Element → Element) (e c : Element) :
  deref h e = Some c → update h (λ _, f c) e = update h f e.
Proof.
  revert e. induction h as [|i h IH]; intros e; cbn.
  - by intros [= ->].
  - destruct (children e !! i) as [c'|]; [|done].
    intros Hd. by rewrite (IH _ Hd).
Qed.

(** The two insertions that end both [add_playlist_to_tree]: they are made
    with the same index, which is converted by the first. *)
Lemma insert_both_run (index : Z) (node : Element) (playlist : Playlist)
    (w : World) (h : handle) (frag : Element) :
  playlists_tree (self w) = Some h → deref h (tree (self w)) = Some frag →
  bind (playlists_tree_insert index node)
    (λ _, playlists_insert index playlist) w
  = match PyList.as_ssize_t index with
    | Ok _ => (Ok tt, set_self (spliced index node playlist h (self w)) w)
    | Raise e => (Raise e, w)
    end.
Proof.
  intros Hh Hd.
  unfold playlists_tree_insert, playlists_insert, bind, gets, lift,
    modify_self, modify, playlists_fragment, ET.insert, PyList.insert.
  rewrite Hh, Hd.
  destruct (PyList.as_ssize_t index) as [i|e] eqn:Hi; cbn; [|done].
  apply as_ssize_t_Ok in Hi as [-> _].
  rewrite (update_const h (ET.ins1 index node) _ frag Hd).
  by destruct w.
Qed.

Lemma insert_both_no_fragment (index : Z) (node : Element)
    (playlist : Playlist) (w : World) :
  playlists_fragment (self w) = None →
  bind (playlists_tree_insert index node)
    (λ _, playlists_insert index playlist) w
  = (Raise (AttributeError "insert"), w).
Proof.
  intros Hf. unfold playlists_tree_insert, bind, gets, lift.
  rewrite Hf. by destruct (playlists_tree (self w)).
Qed.

(** The run of [TraktorParser.add_playlist_to_tree] when the handle is set. *)
Lemma traktor_add_run playlist index w h frag :
  playlists_tree (self w) = Some h → deref h (tree (self w)) = Some frag →
  TraktorParser.add_playlist_to_tree playlist index w
  = match PyList.as_ssize_t
            (traktor_index (traktor_max_index (self w)) index) with
    | Ok _ =>
        (Ok tt,
         set_self
           (spliced (traktor_index (traktor_max_index (self w)) index)
              (TraktorParser.playlist_node (uuid1 w (uuid_calls w)) playlist)
              playlist h (self w))
           (tick w))
    | Raise e => (Raise e, tick w)
    end.
Proof.
  intros Hh Hd.
  unfold traktor_max_index. rewrite (playlist_nodes_fragment _ _ _ Hh Hd).
  pose proof (min_ending_index_find (playlists (self w))) as Hfind.
  pose proof (λ index node,
                insert_both_run index node playlist (tick w) h frag Hh Hd)
    as Hboth.
  unfold TraktorParser.add_playlist_to_tree.
  unfold bind at 1. unfold TraktorParser.next_uuid at 1. fold (tick w).
  unfold bind at 1. unfold gets at 1. cbn [self tick].
  unfold bind at 1.
  destruct (list_find reserved (playlists (self w))) as [[i x]|].
  - destruct Hfind as [Hne Hmin].
    destruct (List.filter TraktorParser.is_ending (playlists (self w)))
      as [|y ys] eqn:Hfilter; [done|].
    cbn [length Nat.eqb negb]. unfold lift at 1. rewrite Hmin.
    rewrite Hboth. fold (traktor_index i index).
    by destruct (PyList.as_ssize_t (traktor_index i index)).
  - rewrite Hfind. cbn [length Nat.eqb negb].
    unfold playlists_tree_len, bind at 1, gets at 1, playlists_fragment.
    cbn [self tick]. rewrite Hh, Hd. unfold ret.
    rewrite Hboth. fold (traktor_index (length (children frag)) index).
    by destruct (PyList.as_ssize_t
                   (traktor_index (length (children frag)) index)).
Qed.

(** Without a usable handle the call raises and leaves the parser alone. *)
Lemma traktor_add_raise playlist index w :
  playlists_fragment (self w) = None →
  ∃ e, TraktorParser.add_playlist_to_tree playlist index w = (Raise e, tick w).
Proof.
  intros Hf.
  pose proof (min_ending_index_find (playlists (self w))) as Hfind.
  pose proof (λ index node,
                insert_both_no_fragment index node playlist (tick w) Hf)
    as Hboth.
  unfold TraktorParser.add_playlist_to_tree.
  unfold bind at 1. unfold TraktorParser.next_uuid at 1. fold (tick w).
  unfold bind at 1. unfold gets at 1. cbn [self tick].
  unfold bind at 1.
  destruct (list_find reserved (playlists (self w))) as [[i x]|].
  - destruct Hfind as [Hne Hmin].
    destruct (List.filter TraktorParser.is_ending (playlists (self w)))
      as [|y ys] eqn:Hfilter; [done|].
    cbn [length Nat.eqb negb]. unfold lift at 1. rewrite Hmin.
    rewrite Hboth. eauto.
  - rewrite Hfind. cbn [length Nat.eqb negb].
    unfold playlists_tree_len, bind at 1, gets at 1, lift.
    cbn [self tick]. rewrite Hf. eauto.
Qed.

(** However it ends, the call has either spliced the node and the playlist
    in, or raised and left the parser alone. *)
Lemma traktor_add_cases playlist index w r w' :
  TraktorParser.add_playlist_to_tree playlist index w = (r, w') →
  (∃ h frag,
     playlists_tree (self w) = Some h ∧ deref h (tree (self w)) = Some frag
     ∧ fits_ssize_t (traktor_index (traktor_max_index (self w)) index)
     ∧ r = Ok tt
     ∧ w' = set_self
              (spliced (traktor_index (traktor_max_index (self w)) index)
                 (TraktorParser.playlist_node (uuid1 w (uuid_calls w)) playlist)
                 playlist h (self w))
              (tick w))
  ∨ (∃ e, r = Raise e ∧ w' = tick w).
Proof.
  intros Hrun.
  destruct (playlists_fragment (self w)) as [frag|] eqn:Hf.
  - unfold playlists_fragment in Hf.
    destruct (playlists_tree (self w)) as [h|] eqn:Hh; [|done].
    rewrite (traktor_add_run _ _ _ _ _ Hh Hf) in Hrun.
    destruct (PyList.as_ssize_t _) as [i|e] eqn:Hi.
    + apply as_ssize_t_Ok in Hi as [_ Hfits].
      injection Hrun as <- <-. left. by exists h, frag.
    + injection Hrun as <- <-. right. eauto.
  - destruct (traktor_add_raise playlist index w Hf) as [e He].
    rewrite He in Hrun. injection Hrun as <- <-. right. eauto.
Qed.

Lemma traktor_add_inv playlist index w w' :
  TraktorParser.add_playlist_to_tree playlist index w = (Ok tt, w') →
  ∃ h frag,
    playlists_tree (self w) = Some h ∧ deref h (tree (self w)) = Some frag
    ∧ w' = set_self
             (spliced (traktor_index (traktor_max_index (self w)) index)
                (TraktorParser.playlist_node (uuid1 w (uuid_calls w)) playlist)
                playlist h (self w))
             (tick w).
Proof.
  intros [(h & frag & Hh & Hd & _ & _ & ->)|(e & [=] & _)]%traktor_add_cases.
  by exists h, frag.
Qed.

Section insert_at_facts.
Context {A : Type}.
Implicit Types (l : list A) (x : A).

Lemma insert_in_range index x l :
  (0 ≤ index ≤ Z.of_nat (length l))%Z →
  PyList.ins1 index x l = insert_at (Z.to_nat index) x l.
Proof.
  intros H. unfold PyList.ins1, insert_at.
  by rewrite insert_position_in_range.
Qed.

Lemma insert_at_lookup k x l : k ≤ length l → insert_at k x l !! k = Some x.
Proof.
  intros H. unfold insert_at. apply list_lookup_middle.
  rewrite length_take. lia.
Qed.


End insert_at_facts.

Section Insert_steps.
Context {A : Type}.
Implicit Types l : list A.

Lemma insert_nat (c : nat) (x : A) l :
  PyList.ins1 (Z.of_nat c) x l = take c l ++ x :: drop c l.
Proof.
  unfold PyList.ins1.
  destruct (decide (c ≤ length l)) as [Hc|Hc].
  - by rewrite insert_position_nat.
  - rewrite insert_position_beyond by lia.
    rewrite !take_ge, !drop_ge by lia. done.
Qed.

Lemma take_insert_step (c : nat) (x : A) l :
  take (S c) (take c l ++ x :: drop c l) = take c l ++ [x].
Proof.
  destruct (decide (c ≤ length l)) as [Hc|Hc].
  - rewrite take_app_ge by (rewrite length_take; lia).
    rewrite length_take. replace (S c - c `min` length l) with 1 by lia.
    done.
  - rewrite (drop_ge l c) by lia. apply take_ge.
    rewrite length_app, length_take. cbn. lia.
Qed.

Lemma drop_insert_step (c : nat) (x : A) l :
  drop (S c) (take c l ++ x :: drop c l) = drop c l.
Proof.
  destruct (decide (c ≤ length l)) as [Hc|Hc].
  - rewrite drop_app_ge by (rewrite length_take; lia).
    rewrite length_take. replace (S c - c `min` length l) with 1 by lia.
    done.
  - rewrite (drop_ge l c) by lia. apply drop_ge.
    rewrite length_app, length_take. cbn. lia.
Qed.

End Insert_steps.

Lemma ceiling_spec (l : list Playlist) :
  ceiling l ≤ length l
  ∧ (∀ j q, l !! j = Some q → reserved q → ceiling l ≤ j)
  ∧ (∀ q, q ∈ l → reserved q → ∃ x, l !! ceiling l = Some x ∧ reserved x).
Proof.
  unfold ceiling. destruct (list_find reserved l) as [[i x]|] eqn:E.
  - apply list_find_Some in E as (Hi & Hx & Hfirst). repeat split.
    + apply lookup_lt_Some in Hi. lia.
    + intros j q Hj Hq. destruct (decide (i ≤ j)); [done|].
      exfalso. eapply Hfirst; [exact Hj|lia|done].
    + eauto.
  - apply list_find_None in E. repeat split; [done| |].
    + intros j q Hj Hq. exfalso.
      eapply Forall_lookup_1 in E; [|exact Hj]. done.
    + intros q Hq Hr. exfalso. rewrite Forall_forall in E. by eapply E.
Qed.






(** ** Where the RecordBox parser inserts *)

Lemma playlists_tree_len_run (w : World) :
  playlists_tree_len w
  = match playlists_fragment (self w) with
    | Some frag => (Ok (length (children frag)), w)
    | None => (Raise (TypeError "'NoneType' object is not iterable"), w)
    end.
Proof.
  unfold playlists_tree_len, bind, gets.
  by destruct (playlists_fragment (self w)).
Qed.

(** The run of [RecordBoxParser.add_playlist_to_tree] when every song
    resolves and the handle is set. *)
Lemma recordbox_add_run playlist index w h frag node :
  playlists_tree (self w) = Some h → deref h (tree (self w)) = Some frag →
  RecordBoxParser.add_tracks (self w)
    (RecordBoxParser.playlist_header playlist) (playlist_songs playlist)
  = Ok node →
  RecordBoxParser.add_playlist_to_tree playlist index w
  = match PyList.as_ssize_t (recordbox_index (self w) index) with
    | Ok _ =>
        (Ok tt,
         set_self
           (spliced (recordbox_index (self w) index) node playlist h (self w))
           w)
    | Raise e => (Raise e, w)
    end.
Proof.
  intros Hh Hd Hnode. unfold recordbox_index.
  rewrite (playlist_nodes_fragment _ _ _ Hh Hd).
  unfold RecordBoxParser.add_playlist_to_tree.
  unfold bind at 1, gets at 1. unfold bind at 1, lift at 1. rewrite Hnode.
  unfold bind at 1. destruct index as [i|].
  - unfold ret at 1. apply (insert_both_run _ _ _ _ _ _ Hh Hd).
  - unfold bind at 1. rewrite playlists_tree_len_run.
    unfold playlists_fragment. rewrite Hh, Hd. unfold ret at 1.
    apply (insert_both_run _ _ _ _ _ _ Hh Hd).
Qed.

(** Any exception leaves the world exactly as it was: the node under
    construction was never reachable from the document. *)
Lemma recordbox_add_raise playlist index w e w' :
  RecordBoxParser.add_playlist_to_tree playlist index w = (Raise e, w') →
  w' = w.
Proof.
  destruct (RecordBoxParser.add_tracks (self w)
              (RecordBoxParser.playlist_header playlist)
              (playlist_songs playlist)) as [node|e'] eqn:Hnode.
  - destruct (playlists_fragment (self w)) as [frag|] eqn:Hf.
    + unfold playlists_fragment in Hf.
      destruct (playlists_tree (self w)) as [h|] eqn:Hh; [|done].
      rewrite (recordbox_add_run _ _ _ _ _ _ Hh Hf Hnode).
      destruct (PyList.as_ssize_t _); [done|]. by intros [= _ <-].
    + unfold RecordBoxParser.add_playlist_to_tree.
      unfold bind at 1, gets at 1. unfold bind at 1, lift at 1. rewrite Hnode.
      unfold bind at 1. destruct index as [i|].
      * unfold ret at 1. rewrite insert_both_no_fragment by done.
        by intros [= _ <-].
      * unfold bind at 1. rewrite playlists_tree_len_run, Hf.
        by intros [= _ <-].
  - unfold RecordBoxParser.add_playlist_to_tree.
    unfold bind at 1, gets at 1. unfold bind at 1, lift at 1. rewrite Hnode.
    by intros [= _ <-].
Qed.

(** However it ends, the call has either spliced the node and the playlist
    in, or raised and left the world as it was. *)
Lemma recordbox_add_cases playlist index w r w' :
  RecordBoxParser.add_playlist_to_tree playlist index w = (r, w') →
  (∃ h frag node,
     playlists_tree (self w) = Some h ∧ deref h (tree (self w)) = Some frag
     ∧ RecordBoxParser.add_tracks (self w)
         (RecordBoxParser.playlist_header playlist) (playlist_songs playlist)
       = Ok node
     ∧ fits_ssize_t (recordbox_index (self w) index)
     ∧ r = Ok tt
     ∧ w' = set_self
              (spliced (recordbox_index (self w) index) node playlist h (self w))
              w)
  ∨ (∃ e, r = Raise e ∧ w' = w).
Proof.
  intros Hrun. destruct r as [[]|e].
  - left.
    destruct (RecordBoxParser.add_tracks (self w)
                (RecordBoxParser.playlist_header playlist)
                (playlist_songs playlist)) as [node|e] eqn:Hnode.
    + destruct (playlists_fragment (self w)) as [frag|] eqn:Hf.
      * unfold playlists_fragment in Hf.
        destruct (playlists_tree (self w)) as [h|] eqn:Hh; [|done].
        rewrite (recordbox_add_run _ _ _ _ _ _ Hh Hf Hnode) in Hrun.
        destruct (PyList.as_ssize_t _) as [i|e] eqn:Hi; [|done].
        apply as_ssize_t_Ok in Hi as [_ Hfits].
        injection Hrun as <-. by exists h, frag, node.
      * exfalso. revert Hrun. unfold RecordBoxParser.add_playlist_to_tree.
        unfold bind at 1, gets at 1. unfold bind at 1, lift at 1.
        rewrite Hnode. unfold bind at 1. destruct index as [i|].
        -- unfold ret at 1. by rewrite insert_both_no_fragment.
        -- unfold bind at 1. by rewrite playlists_tree_len_run, Hf.
    + exfalso. revert Hrun. unfold RecordBoxParser.add_playlist_to_tree.
      unfold bind at 1, gets at 1. unfold bind at 1, lift at 1.
      by rewrite Hnode.
  - right. apply recordbox_add_raise in Hrun as ->. eauto.
Qed.

Lemma recordbox_add_inv playlist index w w' :
  RecordBoxParser.add_playlist_to_tree playlist index w = (Ok tt, w') →
  ∃ h frag node,
    playlists_tree (self w) = Some h ∧ deref h (tree (self w)) = Some frag
    ∧ RecordBoxParser.add_tracks (self w)
        (RecordBoxParser.playlist_header playlist) (playlist_songs playlist)
      = Ok node
    ∧ w' = set_self
             (spliced (recordbox_index (self w) index) node playlist h (self w))
             w.
Proof.
  intros [(h & frag & node & Hh & Hd & Hn & _ & _ & ->)|(e & [=] & _)]
           %recordbox_add_cases.
  by exists h, frag, node.
Qed.

(** ** Generic facts about runs *)

Lemma for_each_invariant {St A} (P : St → Prop) (body : A → SE St unit)
    (l : list A) :
  (∀ x s r s', x ∈ l → P s → body x s = (r, s') → P s') →
  ∀ s r s', P s → for_each l body s = (r, s') → P s'.
Proof.
  induction l as [|x l IH]; intros Hbody s r s' Hs; cbn.
  - by intros [= _ <-].
  - unfold bind. destruct (body x s) as [[[]|e] s1] eqn:E.
    + apply IH; [|by eapply Hbody; [left|..]].
      intros y ?????. eapply Hbody; [by right|done..].
    + intros [= _ <-]. by eapply Hbody; [left|..].
Qed.

Lemma for_each_cons_ok {St A} (body : A → SE St unit) x (l : list A) s r s' :
  for_each (x :: l) body s = (r, s') →
  (∃ e, body x s = (Raise e, s') ∧ r = Raise e)
  ∨ (∃ s1, body x s = (Ok tt, s1) ∧ for_each l body s1 = (r, s')).
Proof.
  cbn. unfold bind. destruct (body x s) as [[[]|e] s1].
  - right. eauto.
  - intros [= <- <-]. left. eauto.
Qed.

Lemma write_file_run path f w :
  write_file path f w
  = match fs_write w path with
    | Written => (Ok tt, set_disk (<[path := f]> (disk w)) w)
    | Refused => (Raise (OSError path), w)
    | Torn => (Raise (OSError path), set_disk (<[path := Partial]> (disk w)) w)
    end.
Proof.
  unfold write_file, bind, gets, lift, modify. by destruct (fs_write w path).
Qed.

Lemma write_file_self path f w r w' :
  write_file path f w = (r, w') →
  self w' = self w ∧ fs_write w' = fs_write w.
Proof.
  rewrite write_file_run.
  destruct (fs_write w path); by intros [= _ <-].
Qed.

Lemma shutil_copy_run src dst w :
  shutil_copy src dst w
  = match disk w !! src with
    | Some f => write_file dst f w
    | None => (Raise (FileNotFoundError src), w)
    end.
Proof.
  unfold shutil_copy, bind, gets, lift. by destruct (disk w !! src).
Qed.

Lemma shutil_copy_self src dst w r w' :
  shutil_copy src dst w = (r, w') →
  self w' = self w ∧ fs_write w' = fs_write w.
Proof.
  rewrite shutil_copy_run. destruct (disk w !! src).
  - apply write_file_self.
  - by intros [= _ <-].
Qed.

Lemma tree_write_run path options w :
  tree_write path options w
  = write_file path (Serialized options (tree (self w))) w.
Proof. reflexivity. Qed.

Lemma tree_write_self path options w r w' :
  tree_write path options w = (r, w') →
  self w' = self w ∧ fs_write w' = fs_write w.
Proof. rewrite tree_write_run. apply write_file_self. Qed.

(** ** Lock-step of the playlists sequence and the tree fragment *)

Lemma lockstep_spliced key index node playlist h s frag :
  playlists_tree s = Some h → deref h (tree s) = Some frag →
  node_name key node = Some (playlist_name playlist) →
  lockstep key s → lockstep key (spliced index node playlist h s).
Proof.
  intros Hh Hd Hname Hs. unfold lockstep in *.
  rewrite (playlist_nodes_spliced _ _ _ _ _ _ Hh Hd).
  rewrite (playlist_nodes_fragment _ _ _ Hh Hd) in Hs.
  cbn [spliced playlists set_playlists].
  by rewrite !insert_fmap, Hname, Hs.
Qed.

Lemma traktor_node_name uuid playlist :
  node_name "NAME" (TraktorParser.playlist_node uuid playlist)
  = Some (playlist_name playlist).
Proof. reflexivity. Qed.

Lemma add_track_shape s node song node' :
  RecordBoxParser.add_track s node song = Ok node' →
  tag node' = tag node ∧ attrib node' = attrib node
  ∧ ∃ track, children node' = children node ++ [track].
Proof.
  unfold RecordBoxParser.add_track, result_bind.
  destruct (if is_TraktorSong song then _ else _) as [song'|]; [|done].
  destruct (song_id song') as [id|]; [|done].
  intros [= <-]. cbn. eauto.
Qed.

Lemma add_tracks_shape s node l node' :
  RecordBoxParser.add_tracks s node l = Ok node' →
  tag node' = tag node ∧ attrib node' = attrib node
  ∧ ∃ tracks, children node' = children node ++ tracks
              ∧ length tracks = length l.
Proof.
  revert node. induction l as [|song l IH]; intros node; cbn.
  - intros [= <-]. repeat split. exists []. by rewrite app_nil_r.
  - unfold result_bind.
    destruct (RecordBoxParser.add_track s node song) as [node1|] eqn:E; [|done].
    intros H. apply IH in H as (Ht & Ha & tracks & Hc & Hl).
    apply add_track_shape in E as (Ht1 & Ha1 & track & Hc1).
    repeat split; [congruence|congruence|].
    exists (track :: tracks). rewrite Hc, Hc1, <- app_assoc. cbn.
    split; [done|]. by rewrite Hl.
Qed.

Lemma recordbox_node_name s playlist node :
  RecordBoxParser.add_tracks s (RecordBoxParser.playlist_header playlist)
    (playlist_songs playlist) = Ok node →
  node_name "Name" node = Some (playlist_name playlist).
Proof.
  intros (_ & Ha & _)%add_tracks_shape. unfold node_name. by rewrite Ha.
Qed.

Lemma traktor_add_lockstep playlist index w r w' :
  lockstep "NAME" (self w) →
  TraktorParser.add_playlist_to_tree playlist index w = (r, w') →
  lockstep "NAME" (self w').
Proof.
  intros Hs
    [(h & frag & Hh & Hd & _ & _ & ->)|(e & _ & ->)]%traktor_add_cases;
    [|done].
  cbn [self set_self].
  eapply lockstep_spliced; [done..|apply traktor_node_name|done].
Qed.

Lemma recordbox_add_lockstep playlist index w r w' :
  lockstep "Name" (self w) →
  RecordBoxParser.add_playlist_to_tree playlist index w = (r, w') →
  lockstep "Name" (self w').
Proof.
  intros Hs Hrun. destruct r as [[]|e].
  - apply recordbox_add_inv in Hrun as (h & frag & node & Hh & Hd & Hn & ->).
    cbn [self set_self]. eapply lockstep_spliced; [done..| |done].
    by eapply recordbox_node_name.
  - by apply recordbox_add_raise in Hrun as ->.
Qed.

(** ** Failure of the cross-format resolution *)

Lemma add_tracks_unresolved s node l song :
  song ∈ l → is_TraktorSong song = true →
  (∃ e, Exporter.convert_traktor_song_to_recordbox song s = Raise e) →
  ∃ e, RecordBoxParser.add_tracks s node l = Raise e.
Proof.
  intros Hin Hsong [e He]. revert node.
  induction Hin as [song l|song song' l _ IH]; intros node; cbn;
    unfold result_bind.
  - unfold RecordBoxParser.add_track. rewrite Hsong, He. cbn. eauto.
  - destruct (RecordBoxParser.add_track s node song') as [node1|e1]; eauto.
Qed.

(** C3, as the code has it.  When some [TraktorSong] of the playlist has no
    song with its path in the RecordBox collection, the call raises, also
    when earlier songs of the playlist did resolve, and it leaves the world
    exactly as it found it: the node that was being built is not attached to
    the tree fragment, and the playlist is not in the sequence. *)
Theorem recordbox_add_unresolved_leaves_parser_unchanged
    (playlist : Playlist) (index : option Z) (w : World) (song : Song) :
  song ∈ playlist_songs playlist →
  is_TraktorSong song = true →
  Forall (λ y, song_path y ≠ song_path song) (songs (self w)) →
  ∃ e, RecordBoxParser.add_playlist_to_tree playlist index w = (Raise e, w).
Proof.
  intros Hin Hsong Hnone.
  destruct (add_tracks_unresolved (self w)
              (RecordBoxParser.playlist_header playlist)
              (playlist_songs playlist) song Hin Hsong) as [e He].
  { by apply convert_raise_iff. }
  exists e. unfold RecordBoxParser.add_playlist_to_tree, bind, gets, lift.
  by rewrite He.
Qed.

Lemma recordbox_add_unresolved_witness :
  Sample.song_b ∈ playlist_songs Sample.house
  ∧ ∃ e, RecordBoxParser.add_playlist_to_tree Sample.house None
           Sample.recordbox_world_one_track
         = (Raise e, Sample.recordbox_world_one_track).
Proof.
  assert (Sample.song_b ∈ playlist_songs Sample.house) as Hin.
  { apply (bool_decide_unpack _). vm_compute. exact I. }
  split; [exact Hin|].
  apply (recordbox_add_unresolved_leaves_parser_unchanged Sample.house None
           Sample.recordbox_world_one_track Sample.song_b Hin).
  - reflexivity.
  - apply (bool_decide_unpack _). vm_compute. exact I.
Defined.

(** The first song of [House] resolves, the second does not; the call
    raises, and no node has been added to the tree fragment. *)
Lemma recordbox_no_partial_node_attached :
  (∃ x, Exporter.convert_traktor_song_to_recordbox Sample.song_a
          (self Sample.recordbox_world_one_track) = Ok x)
  ∧ (∃ e, Exporter.convert_traktor_song_to_recordbox Sample.song_b
            (self Sample.recordbox_world_one_track) = Raise e)
  ∧ (∃ e, fst (RecordBoxParser.add_playlist_to_tree Sample.house None
                 Sample.recordbox_world_one_track) = Raise e)
  ∧ ¬ ∃ node,
        node ∈ playlist_nodes
                 (self (snd (RecordBoxParser.add_playlist_to_tree Sample.house
                               None Sample.recordbox_world_one_track)))
        ∧ node ∉ playlist_nodes (self Sample.recordbox_world_one_track).
Proof.
  split; [eexists; vm_compute; reflexivity|].
  split; [eexists; vm_compute; reflexivity|].
  split; [eexists; vm_compute; reflexivity|].
  intros (node & Hin & Hnot). apply Hnot.
  revert Hin. vm_compute. exact (λ H, H).
Qed.

(** ** Positions in the RecordBox dialect *)

Lemma add_tracks_songs s s' node l :
  songs s = songs s' →
  RecordBoxParser.add_tracks s node l = RecordBoxParser.add_tracks s' node l.
Proof.
  intros Hs. revert node. induction l as [|song l IH]; intros node; cbn; [done|].
  unfold RecordBoxParser.add_track, Exporter.convert_traktor_song_to_recordbox.
  rewrite Hs. unfold result_bind.
  destruct (match (if is_TraktorSong song then _ else _) with
            | Ok a => _ | Raise e => Raise e end); [apply IH|done].
Qed.

Lemma recordbox_add_none playlist w w' :
  RecordBoxParser.add_playlist_to_tree playlist None w = (Ok tt, w') →
  ∃ node,
    recordbox_node (self w) playlist = Ok node
    ∧ playlist_nodes (self w') = playlist_nodes (self w) ++ [node]
    ∧ songs (self w') = songs (self w)
    ∧ playlists (self w')
      = PyList.ins1 (Z.of_nat (length (playlist_nodes (self w)))) playlist
          (playlists (self w)).
Proof.
  intros (h & frag & node & Hh & Hd & Hn & ->)%recordbox_add_inv.
  exists node. cbn [self set_self recordbox_index].
  rewrite (playlist_nodes_spliced _ _ _ _ _ _ Hh Hd).
  rewrite (playlist_nodes_fragment _ _ _ Hh Hd).
  by rewrite insert_at_length.
Qed.

(** C5. With [index=None] the RecordBox parser puts the new node at the
    current end of the tree fragment, at the position equal to the number of
    children it had.  [add_playlists_to_tree] leaves the nodes of the given
    playlists after all the nodes that were there, in the order given; and
    when the sequence was as long as the fragment, the playlists themselves
    are after all the playlists that were there, in the order given. *)
Theorem recordbox_appends_in_order (unquote : string → string)
    (int : string → option Z) :
  (∀ playlist w w',
     RecordBoxParser.add_playlist_to_tree playlist None w = (Ok tt, w') →
     ∃ node,
       recordbox_node (self w) playlist = Ok node
       ∧ playlist_nodes (self w') = playlist_nodes (self w) ++ [node]
       ∧ playlist_nodes (self w') !! length (playlist_nodes (self w))
         = Some node)
  ∧ (∀ given w w',
       RecordBoxParser.add_playlists_to_tree unquote int given w = (Ok tt, w') →
       ∃ nodes,
         Forall2 (λ playlist node, recordbox_node (self w) playlist = Ok node)
           given nodes
         ∧ playlist_nodes (self w') = playlist_nodes (self w) ++ nodes
         ∧ (length (playlist_nodes (self w)) = length (playlists (self w)) →
            playlists (self w') = playlists (self w) ++ given)).
Proof.
  split.
  - intros playlist w w' (node & Hn & Hnodes & _)%recordbox_add_none.
    exists node. split; [done|]. split; [done|].
    rewrite Hnodes. by apply list_lookup_middle.
  - unfold RecordBoxParser.add_playlists_to_tree, Parser_.add_playlists_to_tree.
    cbn [add_playlist_to_tree RecordBoxParser.class].
    intros given. induction given as [|playlist given IH]; intros w w'.
    + cbn. intros [= <-]. exists []. rewrite !app_nil_r. by repeat split.
    + intros [(e & _ & [=])|(w1 & Hfirst & Hrest)]%for_each_cons_ok.
      apply recordbox_add_none in Hfirst as (node & Hn & Hnodes & Hsongs & Hpl).
      apply IH in Hrest as (nodes & Hall & Hnodes' & Hpl').
      exists (node :: nodes). split; [|split].
      * constructor; [done|]. eapply Forall2_impl; [exact Hall|].
        intros p n. unfold recordbox_node.
        by rewrite (add_tracks_songs (self w1) (self w)).
      * by rewrite Hnodes', Hnodes, <- app_assoc.
      * intros Hlen. rewrite Hlen, insert_at_length in Hpl.
        rewrite Hpl', Hpl, <- ?app_assoc; [done|].
        by rewrite Hnodes, Hpl, !length_app, Hlen.
Qed.

Lemma recordbox_appends_in_order_witness :
  ∃ nodes,
    playlist_nodes
      (self (snd (RecordBoxParser.add_playlists_to_tree Sample.unquote
                    Sample.int [Sample.house; Sample.techno]
                    Sample.recordbox_world)))
    = playlist_nodes (self Sample.recordbox_world) ++ nodes
    ∧ playlists
        (self (snd (RecordBoxParser.add_playlists_to_tree Sample.unquote
                      Sample.int [Sample.house; Sample.techno]
                      Sample.recordbox_world)))
      = playlists (self Sample.recordbox_world) ++ [Sample.house; Sample.techno].
Proof.
  destruct (recordbox_appends_in_order Sample.unquote Sample.int) as [_ H].
  destruct (H [Sample.house; Sample.techno] Sample.recordbox_world
              (snd (RecordBoxParser.add_playlists_to_tree Sample.unquote
                      Sample.int [Sample.house; Sample.techno]
                      Sample.recordbox_world)))
    as (nodes & _ & Hnodes & Hplaylists).
  - vm_compute. reflexivity.
  - exists nodes. split; [exact Hnodes|]. apply Hplaylists.
    vm_compute. reflexivity.
Defined.

Lemma convert_returns_first_path_match_witness :
  ∃ x, Exporter.convert_traktor_song_to_recordbox Sample.song_a
         (self Sample.recordbox_world) = Ok x
       ∧ song_id x = Ok "1".
Proof.
  destruct (convert_returns_first_path_match Sample.song_a
              (self Sample.recordbox_world)) as (H & _ & _).
  eexists. split.
  - apply H. exists [], (drop 1 (songs (self Sample.recordbox_world))).
    split; [reflexivity|]. split; [reflexivity|]. constructor.
  - reflexivity.
Defined.

(** C6, as the code has it.  With an explicit index the RecordBox parser
    hands that index unchanged to both insertions; nothing is clamped to a
    reserved position.  When the call succeeds the index fits a C [ssize_t],
    and the place where the node and the playlist end up is the one
    [list.insert] gives: the index itself when it lies between [0] and the
    length, the end when it is larger, and counted from the end (not before
    position [0]) when it is negative.  With an index that does not fit a C
    [ssize_t] the call raises and leaves the world as it was; the exception
    is [OverflowError] when the songs resolve and the fragment is there. *)
Theorem recordbox_insert_explicit_index (playlist : Playlist) (i : Z)
    (w : World) :
  (∀ w',
     RecordBoxParser.add_playlist_to_tree playlist (Some i) w = (Ok tt, w') →
     fits_ssize_t i
     ∧ ∃ node,
         recordbox_node (self w) playlist = Ok node
         ∧ PyList.insert i node (playlist_nodes (self w))
           = Ok (playlist_nodes (self w'))
         ∧ PyList.insert i playlist (playlists (self w))
           = Ok (playlists (self w'))
         ∧ ((0 ≤ i ≤ Z.of_nat (length (playlist_nodes (self w))))%Z →
            playlist_nodes (self w')
            = insert_at (Z.to_nat i) node (playlist_nodes (self w))
            ∧ playlist_nodes (self w') !! Z.to_nat i = Some node)
         ∧ ((0 ≤ i ≤ Z.of_nat (length (playlists (self w))))%Z →
            playlists (self w')
            = insert_at (Z.to_nat i) playlist (playlists (self w))
            ∧ playlists (self w') !! Z.to_nat i = Some playlist)
         ∧ ((Z.of_nat (length (playlist_nodes (self w))) < i)%Z →
            playlist_nodes (self w') = playlist_nodes (self w) ++ [node])
         ∧ ((i < 0)%Z →
            playlist_nodes (self w')
            = insert_at
                (Z.to_nat
                   (Z.max 0 (i + Z.of_nat (length (playlist_nodes (self w))))))
                node (playlist_nodes (self w))))
  ∧ (¬ fits_ssize_t i →
     ∃ e,
       RecordBoxParser.add_playlist_to_tree playlist (Some i) w = (Raise e, w)
       ∧ (is_Some (playlists_fragment (self w)) →
          (∃ node, recordbox_node (self w) playlist = Ok node) →
          ∃ what, e = OverflowError what)).
Proof.
  split.
  - intros w' [(h & frag & node & Hh & Hd & Hn & Hfits & _ & ->)|(e & [=] & _)]
                %recordbox_add_cases.
    cbn [recordbox_index] in Hfits. split; [done|].
    exists node. cbn [self set_self recordbox_index].
    rewrite (playlist_nodes_spliced _ _ _ _ _ _ Hh Hd).
    rewrite (playlist_nodes_fragment _ _ _ Hh Hd).
    cbn [spliced playlists set_playlists].
    unfold PyList.insert. rewrite as_ssize_t_fits by done. cbn [result_bind].
    split; [done|]. split; [done|]. split; [done|].
    split; [|split; [|split]].
    + intros Hi. rewrite insert_in_range by done. split; [done|].
      apply insert_at_lookup. lia.
    + intros Hi. rewrite insert_in_range by done. split; [done|].
      apply insert_at_lookup. lia.
    + intros Hi. unfold PyList.ins1. rewrite insert_position_beyond by done.
      by rewrite take_ge, drop_ge.
    + intros Hi. unfold PyList.ins1. by rewrite insert_position_negative.
  - intros Hfits.
    destruct (RecordBoxParser.add_playlist_to_tree playlist (Some i) w)
      as [r w'] eqn:Hrun.
    pose proof Hrun as [(h & frag & node & _ & _ & _ & Hi & _)|(e & -> & ->)]
                         %recordbox_add_cases; [done|].
    exists e. split; [done|].
    intros [frag Hf] [node Hn]. unfold playlists_fragment in Hf.
    destruct (playlists_tree (self w)) as [h|] eqn:Hh; [|done].
    unfold recordbox_node in Hn.
    rewrite (recordbox_add_run _ _ _ _ _ _ Hh Hf Hn) in Hrun.
    cbn [recordbox_index] in Hrun.
    rewrite as_ssize_t_overflow in Hrun by done.
    injection Hrun as <-. eauto.
Qed.

Lemma recordbox_insert_explicit_index_witness :
  ∃ node,
    playlist_nodes
      (self (snd (RecordBoxParser.add_playlist_to_tree Sample.techno (Some 0%Z)
                    Sample.recordbox_world)))
    = insert_at 0 node (playlist_nodes (self Sample.recordbox_world)).
Proof.
  destruct (recordbox_insert_explicit_index Sample.techno 0
              Sample.recordbox_world) as [H _].
  destruct (H (snd (RecordBoxParser.add_playlist_to_tree Sample.techno
                      (Some 0%Z) Sample.recordbox_world)))
    as (_ & node & _ & _ & _ & Hnodes & _).
  - vm_compute. reflexivity.
  - exists node. apply Hnodes. vm_compute. split; discriminate.
Defined.

(** One playlist is there; [Techno] is inserted with index [5].  It is not
    at position [5] afterwards, in the fragment or in the sequence: it is at
    position [1], the end.  With index [2^63] it is not inserted at all. *)
Lemma recordbox_index_beyond_end_lands_at_end :
  RecordBoxParser.add_playlist_to_tree Sample.techno (Some (2 ^ 63)%Z)
    Sample.recordbox_world
  = (Raise (OverflowError "Python int too large to convert to C ssize_t"),
     Sample.recordbox_world)
  ∧ fst (RecordBoxParser.add_playlist_to_tree Sample.techno (Some 5%Z)
         Sample.recordbox_world) = Ok tt
  ∧ length (playlists (self Sample.recordbox_world)) = 1
  ∧ playlist_nodes
      (self (snd (RecordBoxParser.add_playlist_to_tree Sample.techno (Some 5%Z)
                    Sample.recordbox_world))) !! 5 = None
  ∧ playlists
      (self (snd (RecordBoxParser.add_playlist_to_tree Sample.techno (Some 5%Z)
                    Sample.recordbox_world))) !! 5 = None
  ∧ playlists
      (self (snd (RecordBoxParser.add_playlist_to_tree Sample.techno (Some 5%Z)
                    Sample.recordbox_world))) !! 1 = Some Sample.techno.
Proof. vm_compute. repeat split. Qed.

(** ** Songs of an inserted playlist *)






(** ** Saving *)

(** [save_file(path, backup=True)] in full: the copy to [.bak], then the
    write of the tree, each as the file system answers it. *)
Lemma save_file_backup_run `{ParserClass} (options : write_options)
    (path : option string) (w : World) :
  (∀ p, _save_tree p = tree_write p options) →
  let load := file_path (self w) in
  let dest := default load path in
  let tree_file := Serialized options (tree (self w)) in
  Parser_.save_file path true w
  = match disk w !! load with
    | None => (Raise (FileNotFoundError load), w)
    | Some f =>
        match fs_write w (load +:+ ".bak") with
        | Written =>
            match fs_write w dest with
            | Written =>
                (Ok tt,
                 set_disk (<[dest := tree_file]>
                             (<[load +:+ ".bak" := f]> (disk w))) w)
            | Refused =>
                (Raise (OSError dest),
                 set_disk (<[load +:+ ".bak" := f]> (disk w)) w)
            | Torn =>
                (Raise (OSError dest),
                 set_disk (<[dest := Partial]>
                             (<[load +:+ ".bak" := f]> (disk w))) w)
            end
        | Refused => (Raise (OSError (load +:+ ".bak")), w)
        | Torn =>
            (Raise (OSError (load +:+ ".bak")),
             set_disk (<[load +:+ ".bak" := Partial]> (disk w)) w)
        end
    end.
Proof.
  intros Hsave. cbv zeta. unfold Parser_.save_file.
  unfold bind at 1, gets at 1. unfold bind at 1.
  rewrite shutil_copy_run, Hsave.
  destruct (disk w !! file_path (self w)) as [f|] eqn:Hf; [|done].
  rewrite write_file_run.
  destruct (fs_write w (file_path (self w) +:+ ".bak")); [|done..].
  rewrite tree_write_run, write_file_run. cbn [fs_write set_disk self disk].
  replace (match path with Some p => p | None => file_path (self w) end)
    with (default (file_path (self w)) path) by (by destruct path).
  by destruct (fs_write w (default (file_path (self w)) path)).
Qed.

Lemma save_file_run `{ParserClass} (options : write_options)
    (path : option string) (w w' : World) :
  (∀ p, _save_tree p = tree_write p options) →
  Parser_.save_file path true w = (Ok tt, w') →
  saved_with_backup options path w w'.
Proof.
  intros Hsave. rewrite (save_file_backup_run options) by done. cbv zeta.
  destruct (disk w !! file_path (self w)) as [f|] eqn:Hf; [|done].
  destruct (fs_write w (file_path (self w) +:+ ".bak")); [|done..].
  destruct (fs_write w _); [|done..].
  intros [= <-]. exists f. done.
Qed.

(** A save that succeeded was answered [Written] twice. *)
Lemma save_file_answers `{ParserClass} (options : write_options)
    (path : option string) (w w' : World) :
  (∀ p, _save_tree p = tree_write p options) →
  Parser_.save_file path true w = (Ok tt, w') →
  fs_write w (file_path (self w) +:+ ".bak") = Written
  ∧ fs_write w (default (file_path (self w)) path) = Written
  ∧ fs_write w' = fs_write w.
Proof.
  intros Hsave. rewrite (save_file_backup_run options) by done. cbv zeta.
  destruct (disk w !! file_path (self w)) as [f|] eqn:Hf; [|done].
  destruct (fs_write w (file_path (self w) +:+ ".bak")); [|done..].
  destruct (fs_write w _); [|done..].
  by intros [= <-].
Qed.

Lemma save_file_missing `{ParserClass} (path : option string) (w : World) :
  disk w !! file_path (self w) = None →
  Parser_.save_file path true w
  = (Raise (FileNotFoundError (file_path (self w))), w).
Proof.
  intros Hf. unfold Parser_.save_file.
  unfold bind at 1, gets at 1. unfold bind at 1.
  by rewrite shutil_copy_run, Hf.
Qed.

(** C10, as the code has it.  [save_file(p, backup=True)] first copies the
    file at the parser's load path to the load path with [.bak] appended,
    replacing whatever was there, and then writes the tree to [p]; when [p] is
    [None] the tree is written to the load path.  The file that was at [p] is
    only backed up when [p] is the load path.  When no file is at the load
    path the call raises before anything is written. *)
Theorem save_file_backs_up_load_path (unquote : string → string)
    (int : string → option Z) (path : option string) (w w' : World) :
  (TraktorParser.save_file path true w = (Ok tt, w') →
   saved_with_backup traktor_options path w w')
  ∧ (RecordBoxParser.save_file unquote int path true w = (Ok tt, w') →
     saved_with_backup recordbox_options path w w')
  ∧ (disk w !! file_path (self w) = None →
     TraktorParser.save_file path true w
     = (Raise (FileNotFoundError (file_path (self w))), w)
     ∧ RecordBoxParser.save_file unquote int path true w
       = (Raise (FileNotFoundError (file_path (self w))), w)).
Proof.
  split; [|split].
  - by apply save_file_run.
  - by apply save_file_run.
  - intros Hf. split; by apply save_file_missing.
Qed.

Lemma save_file_backs_up_load_path_witness :
  saved_with_backup recordbox_options (Some "export.xml")
    Sample.recordbox_on_disk
    (snd (RecordBoxParser.save_file Sample.unquote Sample.int
            (Some "export.xml") true Sample.recordbox_on_disk)).
Proof.
  apply (save_file_backs_up_load_path Sample.unquote Sample.int
           (Some "export.xml") Sample.recordbox_on_disk).
  vm_compute. reflexivity.
Defined.

(** The library was loaded from [recordbox.xml] and is saved to
    [export.xml], where an earlier export lies.  Afterwards there is no
    [export.xml.bak]: the earlier export is overwritten without a copy, and
    the backup that was made is [recordbox.xml.bak]. *)
Lemma save_file_does_not_back_up_destination :
  fst (RecordBoxParser.save_file Sample.unquote Sample.int (Some "export.xml")
         true Sample.recordbox_on_disk) = Ok tt
  ∧ disk Sample.recordbox_on_disk !! "export.xml" = Some (Bytes "earlier export")
  ∧ disk (snd (RecordBoxParser.save_file Sample.unquote Sample.int
                 (Some "export.xml") true Sample.recordbox_on_disk))
    !! "export.xml.bak" = None
  ∧ disk (snd (RecordBoxParser.save_file Sample.unquote Sample.int
                 (Some "export.xml") true Sample.recordbox_on_disk))
    !! "recordbox.xml.bak" = Some (Bytes "library")
  ∧ disk (snd (RecordBoxParser.save_file Sample.unquote Sample.int
                 (Some "export.xml") true Sample.recordbox_on_disk))
    !! "export.xml"
    = Some (Serialized recordbox_options (tree (self Sample.recordbox_on_disk))).
Proof. vm_compute. repeat split. Qed.

(** ** What an insertion leaves alone *)

Lemma spliced_frame index node playlist h frag s :
  playlists_tree s = Some h → deref h (tree s) = Some frag →
  handles_apart s →
  let s' := spliced index node playlist h s in
  songs s' = songs s
  ∧ songs_tree s' = songs_tree s
  ∧ songs_fragment s' = songs_fragment s
  ∧ playlists_tree s' = playlists_tree s
  ∧ file_path s' = file_path s
  ∧ (∀ q, diverge q h → deref q (tree s') = deref q (tree s))
  ∧ (∃ frag', playlists_fragment s' = Some frag'
              ∧ tag frag' = tag frag ∧ attrib frag' = attrib frag
              ∧ text frag' = text frag ∧ tail frag' = tail frag)
  ∧ (∃ k, playlist_nodes s' !! k = Some node
          ∧ delete k (playlist_nodes s') = playlist_nodes s)
  ∧ (∃ k, playlists s' !! k = Some playlist
          ∧ delete k (playlists s') = playlists s).
Proof.
  intros Hh Hd Hapart s'. subst s'.
  repeat split; try done.
  - unfold songs_fragment, handles_apart in *. cbn.
    destruct (songs_tree s) as [q|]; [|done]. rewrite Hh in Hapart.
    by apply deref_update_diverge.
  - intros q Hq. cbn. by apply deref_update_diverge.
  - exists (ET.ins1 index node frag). split; [|done].
    unfold playlists_fragment. cbn. by rewrite Hh, deref_update, Hd.
  - rewrite (playlist_nodes_spliced _ _ _ _ _ _ Hh Hd).
    rewrite (playlist_nodes_fragment _ _ _ Hh Hd).
    eexists. split; [apply insert_lookup|apply insert_delete].
  - cbn. eexists. split; [apply insert_lookup|apply insert_delete].
Qed.

(** ** Traversals *)

Section Run_facts.
Context {St : Type}.

Lemma bind_inv {A B} (c : SE St A) (k : A → SE St B) s r s' :
  bind c k s = (r, s') →
  (∃ a s1, c s = (Ok a, s1) ∧ k a s1 = (r, s'))
  ∨ (∃ e, c s = (Raise e, s') ∧ r = Raise e).
Proof.
  unfold bind. destruct (c s) as [[a|e] s1].
  - intros H. left. eauto.
  - intros [= <- <-]. right. eauto.
Qed.

(** A relation between the state before and after that every iteration
    respects is respected by the loop, whether it ends or raises. *)
Lemma for_each_rel {A} (R : St → St → Prop) `{!Reflexive R, !Transitive R}
    (body : A → SE St unit) (l : list A) :
  (∀ x s r s', x ∈ l → body x s = (r, s') → R s s') →
  ∀ s r s', for_each l body s = (r, s') → R s s'.
Proof.
  induction l as [|x l IH]; intros Hbody s r s'; cbn.
  - by intros [= _ <-].
  - intros [(a & s1 & H1 & H2)|(e & H1 & _)]%bind_inv.
    + transitivity s1.
      * eapply Hbody; [by left|done].
      * eapply IH; [|done]. intros y ?????. eapply Hbody; [by right|done].
    + eapply Hbody; [by left|done].
Qed.

(** A loop that ends has run every iteration to its end, in order. *)
Lemma for_each_steps {A B} (Q : list B → St → St → Prop) (g : A → list B)
    (body : A → SE St unit) (l : list A) :
  (∀ s, Q [] s s) →
  (∀ k1 k2 s1 s2 s3, Q k1 s1 s2 → Q k2 s2 s3 → Q (k1 ++ k2) s1 s3) →
  (∀ x s s', x ∈ l → body x s = (Ok tt, s') → Q (g x) s s') →
  ∀ s s', for_each l body s = (Ok tt, s') → Q (l ≫= g) s s'.
Proof.
  intros Hnil Happ. induction l as [|x l IH]; intros Hbody s s'; cbn.
  - intros [= <-]. apply Hnil.
  - intros [(a & s1 & H1 & H2)|(e & _ & [=])]%bind_inv. destruct a.
    eapply Happ.
    + eapply Hbody; [by left|done].
    + eapply IH; [|done]. intros y ????. eapply Hbody; [by right|done].
Qed.

End Run_facts.

Lemma enumerate_lookup {A} (l : list A) (i : nat) (x : A) :
  (i, x) ∈ enumerate l → l !! i = Some x.
Proof.
  unfold enumerate. intros (j & y & [= -> ->] & H)%elem_of_lookup_imap. done.
Qed.

Section Traversed_facts.
Context {L : Type}.
Implicit Types s : Parser * L.

Lemma traversed_nil s : traversed [] None s s.
Proof. unfold traversed. by rewrite app_nil_r. Qed.

Lemma traversed_app ks1 ks2 h1 h2 s1 s2 s3 :
  traversed ks1 h1 s1 s2 → traversed ks2 h2 s2 s3 →
  traversed (ks1 ++ ks2) (from_option Some h1 h2) s1 s3.
Proof.
  intros (Ht1 & Hn1 & Hp1) (Ht2 & Hn2 & Hp2). unfold traversed.
  rewrite Ht2, Ht1, Hn2, Hn1, Hp2, Hp1, app_assoc.
  by destruct h1, h2.
Qed.

Lemma visited_nil key s : visited key [] s s.
Proof. apply traversed_nil. Qed.

Lemma visited_app key cs1 cs2 s1 s2 s3 :
  visited key cs1 s1 s2 → visited key cs2 s2 s3 →
  visited key (cs1 ++ cs2) s1 s3.
Proof.
  intros H1 H2. unfold visited. rewrite bind_app, last_app.
  replace (fst <$> match last cs2 with Some y => Some y | None => last cs1 end)
    with (from_option Some (fst <$> last cs1) (fst <$> last cs2))
    by (by destruct (last cs1), (last cs2)).
  by eapply traversed_app.
Qed.

#[global] Instance traversed_nil_refl : Reflexive (traversed (L:=L) [] None).
Proof. intros s. apply traversed_nil. Qed.

#[global] Instance traversed_nil_trans : Transitive (traversed (L:=L) [] None).
Proof.
  intros s1 s2 s3 H1 H2. by apply (traversed_app [] [] None None s1 s2 s3).
Qed.

Lemma lift_inv {A} (x : result A) s r s' :
  lift x s = (r, s') → r = x ∧ s' = s.
Proof. by intros [= <- <-]. Qed.

End Traversed_facts.

(** Inversion of one step of a run. *)
Ltac run_inv H :=
  let a := fresh "a" in
  let s1 := fresh "s" in
  let e := fresh "e" in
  let H1 := fresh "Hstep" in
  let Hr := fresh "Hr" in
  apply bind_inv in H as [(a & s1 & H1 & H)|(e & H & Hr)];
  [|first [discriminate Hr|subst]].

Section Step_inversions.
Context {St : Type}.

Lemma ret_inv {A} (a : A) (s : St) r s' : ret a s = (r, s') → r = Ok a ∧ s' = s.
Proof. by intros [= <- <-]. Qed.

Lemma gets_inv {A} (f : St → A) (s : St) r s' :
  gets f s = (r, s') → r = Ok (f s) ∧ s' = s.
Proof. by intros [= <- <-]. Qed.

Lemma modify_inv (f : St → St) (s : St) r s' :
  modify f s = (r, s') → r = Ok tt ∧ s' = f s.
Proof. by intros [= <- <-]. Qed.

End Step_inversions.

Lemma on_self_inv {L} (f : Parser → Parser) (s : Parser * L) r s' :
  on_self f s = (r, s') → r = Ok tt ∧ s' = (f (fst s), snd s).
Proof. destruct s. by intros [= <- <-]. Qed.

Lemma on_locals_inv {L} (f : L → L) (s : Parser * L) r s' :
  on_locals f s = (r, s') → r = Ok tt ∧ s' = (fst s, f (snd s)).
Proof. destruct s. by intros [= <- <-]. Qed.

Ltac run_steps :=
  repeat match goal with
    | H : bind _ _ _ = _ |- _ => run_inv H
    | H : lift _ _ = _ |- _ => apply lift_inv in H as [? ->]
    | H : ret _ _ = _ |- _ => apply ret_inv in H as [? ->]
    | H : gets _ _ = _ |- _ => apply gets_inv in H as [? ->]
    | H : on_self _ _ = _ |- _ => apply on_self_inv in H as [? ->]
    | H : on_locals _ _ = _ |- _ => apply on_locals_inv in H as [? ->]
    | H : Ok ?a = Ok _ |- _ => is_var a; injection H as ->
    end.

Ltac traversed_trivial :=
  unfold traversed, names in *; cbn in *; rewrite ?app_nil_r in *;
  intuition congruence.

(** *** The Traktor traversal *)

Lemma traktor_read_location elmt s r s' :
  TraktorParser.read_location elmt s = (r, s') → traversed [] None s s'.
Proof.
  unfold TraktorParser.read_location.
  destruct (String.eqb (tag elmt) "LOCATION"); intros H; run_steps;
    traversed_trivial.
Qed.

Lemma traktor_read_song song s r s' :
  TraktorParser.read_song song s = (r, s') → traversed [] None s s'.
Proof.
  unfold TraktorParser.read_song. intros H.
  run_inv H; [|run_steps; traversed_trivial].
  apply lift_inv in Hstep as [_ ->].
  run_inv H.
  - apply (for_each_rel (traversed [] None)) in Hstep;
      [|intros ?????; by eapply traktor_read_location].
    run_steps; traversed_trivial.
  - apply (for_each_rel (traversed [] None)) in H;
      [done|intros ?????; by eapply traktor_read_location].
Qed.

Lemma bind_singleton_fmap {A B} (f : A → B) (l : list A) :
  l ≫= (λ x, [f x]) = f <$> l.
Proof. induction l as [|x l IH]; [done|]. by rewrite bind_cons, IH. Qed.

Lemma get_node_name key e name :
  Ok name = ET.get key e → node_name key e = Some name.
Proof.
  unfold ET.get, node_name.
  destruct (ET.dict_get key (attrib e)); cbn; [by intros [= ->]|done].
Qed.

(** A loop over playlist nodes adds their names, in order. *)
Lemma for_each_playlist_nodes {L} key (body : Element → SE (Parser * L) unit)
    (nodes : list Element) :
  (∀ node s s', body node s = (Ok tt, s') →
                traversed [node_name key node] None s s') →
  ∀ s s', for_each nodes body s = (Ok tt, s') →
          traversed (node_name key <$> nodes) None s s'.
Proof.
  intros Hbody s s' Hrun. rewrite <- bind_singleton_fmap.
  eapply (for_each_steps (λ ks, traversed ks None)); [| | |exact Hrun].
  - apply traversed_nil.
  - intros ks1 ks2 s1 s2 s3 H1 H2.
    by apply (traversed_app ks1 ks2 None None s1 s2 s3).
  - intros node ?? _. apply Hbody.
Qed.

(** Entering a container and reading its playlist nodes. *)
Lemma enter_container {L} key (h : handle) (c : Element)
    (body : Element → SE (Parser * L) unit) s s' :
  (∀ node s s', body node s = (Ok tt, s') →
                traversed [node_name key node] None s s') →
  bind (on_self (set_playlists_tree (Some h)))
    (λ _, for_each (children c) body) s = (Ok tt, s') →
  visited key [(h, c)] s s'.
Proof.
  intros Hbody H. run_inv H. apply on_self_inv in Hstep as [_ ->].
  apply (for_each_playlist_nodes key _ _ Hbody) in H.
  unfold visited. rewrite bind_singleton. cbn [last fmap option_fmap option_map fst snd].
  destruct H as (Ht & Hn & Hp). repeat split; [exact Ht|exact Hn|exact Hp].
Qed.

Lemma for_each_visited {L A} key (g : A → list (handle * Element))
    (body : A → SE (Parser * L) unit) (l : list A) :
  (∀ x s s', x ∈ l → body x s = (Ok tt, s') → visited key (g x) s s') →
  ∀ s s', for_each l body s = (Ok tt, s') → visited key (l ≫= g) s s'.
Proof.
  apply (for_each_steps (visited key)).
  - apply visited_nil.
  - apply visited_app.
Qed.

Lemma traktor_read_playlist node s s' :
  TraktorParser.read_playlist node s = (Ok tt, s') →
  traversed [node_name "NAME" node] None s s'.
Proof.
  unfold TraktorParser.read_playlist. intros H. run_steps; try done.
  match goal with
  | Hn : Ok _ = ET.get "NAME" node |- _ => apply get_node_name in Hn as Hname
  end.
  unfold traversed, names. cbn. rewrite fmap_app. cbn. by rewrite Hname.
Qed.

Lemma traktor_read_root_child ic s s' :
  TraktorParser.read_root_child ic s = (Ok tt, s') →
  visited "NAME" (traktor_containers_of ic) s s'.
Proof.
  destruct ic as [i child].
  unfold TraktorParser.read_root_child, traktor_containers_of. cbn [fst snd].
  intros H. run_inv H.
  assert (traversed [] None s s0) as Hsongs.
  { destruct (String.eqb (tag child) "COLLECTION").
    - run_inv Hstep. apply on_self_inv in Hstep0 as [_ ->].
      apply (for_each_rel (traversed [] None)) in Hstep;
        [|intros ?????; by eapply traktor_read_song].
      traversed_trivial.
    - apply ret_inv in Hstep as [_ ->]. apply traversed_nil. }
  apply (visited_app "NAME" [] _ s s0 s'); [exact Hsongs|].
  destruct (String.eqb (tag child) "PLAYLISTS").
  - eapply for_each_visited; [|exact H]. intros [j node] s1 s2 _ Hnode.
    eapply for_each_visited; [|exact Hnode]. intros [k subnodes] s3 s4 _ Hsub.
    eapply enter_container; [|exact Hsub]. apply traktor_read_playlist.
  - apply ret_inv in H as [_ ->]. apply visited_nil.
Qed.

Lemma traktor_containers_deref root h c :
  (h, c) ∈ traktor_containers root → deref h root = Some c.
Proof.
  unfold traktor_containers, traktor_containers_of.
  intros ([i child] & Hin & Hi%enumerate_lookup)%list_elem_of_bind.
  cbn [fst snd] in Hin. destruct (String.eqb (tag child) "PLAYLISTS");
    [|by apply elem_of_nil in Hin].
  apply list_elem_of_bind in Hin as ([j node] & Hin & Hj%enumerate_lookup).
  apply list_elem_of_bind in Hin as ([k sub] & Hin & Hk%enumerate_lookup).
  apply list_elem_of_singleton in Hin as [= -> ->].
  cbn [fst snd] in *. cbn. by rewrite Hi, Hj, Hk.
Qed.

Lemma traktor_containers_under_playlists root h c :
  (h, c) ∈ traktor_containers root →
  ∃ i rest child, h = i :: rest ∧ children root !! i = Some child
                  ∧ tag child = "PLAYLISTS".
Proof.
  unfold traktor_containers, traktor_containers_of.
  intros ([i child] & Hin & Hi%enumerate_lookup)%list_elem_of_bind.
  cbn [fst snd] in Hin.
  destruct (String.eqb (tag child) "PLAYLISTS") eqn:Htag;
    [|by apply elem_of_nil in Hin].
  apply list_elem_of_bind in Hin as ([j node] & Hin & _).
  apply list_elem_of_bind in Hin as ([k sub] & Hin & _).
  apply list_elem_of_singleton in Hin as [= -> ->].
  exists i, [j; k], child. by apply String.eqb_eq in Htag.
Qed.

(** When the traversal is over, the names of the playlists are those of the
    children of the containers it went through, and [playlists_tree] is on
    the last of them. *)
Lemma traktor_traversal w w' :
  TraktorParser.get_songs_and_playlists w = (Ok tt, w') →
  let root := tree (self w) in
  tree (self w') = root
  ∧ names (self w')
    = traktor_containers root ≫= (λ c, node_name "NAME" <$> children (snd c))
  ∧ playlists_tree (self w')
    = from_option Some (playlists_tree (self w))
        (fst <$> last (traktor_containers root)).
Proof.
  unfold TraktorParser.get_songs_and_playlists, with_locals.
  destruct (bind _ _ _) as [r [p l]] eqn:H. intros [= -> <-]. cbn [self set_self].
  run_steps.
  apply (for_each_visited "NAME" traktor_containers_of) in H;
    [|intros ic ?? _; apply traktor_read_root_child].
  destruct H as (Ht & Hn & Hp). cbn in Ht, Hn, Hp. done.
Qed.

Lemma single_container_lockstep key (cs : list (handle * Element)) (s : Parser) :
  length cs ≤ 1 →
  (∀ h c, (h, c) ∈ cs → deref h (tree s) = Some c) →
  names s = cs ≫= (λ c, node_name key <$> children (snd c)) →
  playlists_tree s = fst <$> last cs →
  lockstep key s.
Proof.
  intros Hlen Hderef Hn Hp. unfold lockstep. fold (names s). rewrite Hn.
  unfold playlist_nodes, playlists_fragment. rewrite Hp.
  destruct cs as [|[h c] [|??]]; cbn in Hlen; [reflexivity| |lia].
  cbn. rewrite (Hderef h c) by by left. by rewrite app_nil_r.
Qed.

Lemma traktor_init_lockstep path doc verbose w w' :
  traktor_single_container doc →
  TraktorParser.init path doc verbose w = (Ok tt, w') →
  lockstep "NAME" (self w').
Proof.
  intros Hdoc H. unfold TraktorParser.init, Parser_.init in H.
  run_inv H. apply modify_inv in Hstep as [_ ->].
  apply traktor_traversal in H as (Ht & Hn & Hp). cbn in Ht, Hn, Hp.
  apply (single_container_lockstep "NAME" (traktor_containers doc));
    [done| |done|].
  - intros h c Hin. rewrite Ht. by apply traktor_containers_deref.
  - rewrite Hp. by destruct (last (traktor_containers doc)).
Qed.

(** *** The RecordBox traversal *)

Section RecordBox_traversal.
Variable unquote : string → string.
Variable int : string → option Z.

Lemma recordbox_read_song ch s r s' :
  RecordBoxParser.read_song unquote int ch s = (r, s') → traversed [] None s s'.
Proof.
  unfold RecordBoxParser.read_song. intros H. run_steps; traversed_trivial.
Qed.

Lemma recordbox_read_playlist playlist s s' :
  RecordBoxParser.read_playlist playlist s = (Ok tt, s') →
  traversed [node_name "Name" playlist] None s s'.
Proof.
  unfold RecordBoxParser.read_playlist. intros H. run_steps; try done.
  match goal with
  | Hn : Ok _ = ET.get "Name" playlist |- _ =>
      apply get_node_name in Hn as Hname
  end.
  unfold traversed, names. cbn. rewrite fmap_app. cbn. by rewrite Hname.
Qed.

Lemma recordbox_read_root_child ic s s' :
  RecordBoxParser.read_root_child unquote int ic s = (Ok tt, s') →
  visited "Name" (recordbox_containers_of ic) s s'.
Proof.
  destruct ic as [i child].
  unfold RecordBoxParser.read_root_child, recordbox_containers_of.
  cbn [fst snd]. intros H. run_inv H.
  assert (traversed [] None s s0) as Hsongs.
  { destruct (String.eqb (tag child) "COLLECTION").
    - run_inv Hstep. apply on_self_inv in Hstep0 as [_ ->].
      apply (for_each_rel (traversed [] None)) in Hstep;
        [|intros ?????; by eapply recordbox_read_song].
      traversed_trivial.
    - apply ret_inv in Hstep as [_ ->]. apply traversed_nil. }
  apply (visited_app "Name" [] _ s s0 s'); [exact Hsongs|].
  destruct (String.eqb (tag child) "PLAYLISTS").
  - eapply for_each_visited; [|exact H]. intros [j node_root] s1 s2 _ Hnode.
    eapply enter_container; [|exact Hnode]. apply recordbox_read_playlist.
  - apply ret_inv in H as [_ ->]. apply visited_nil.
Qed.

Lemma recordbox_containers_deref root h c :
  (h, c) ∈ recordbox_containers root → deref h root = Some c.
Proof.
  unfold recordbox_containers, recordbox_containers_of.
  intros ([i child] & Hin & Hi%enumerate_lookup)%list_elem_of_bind.
  cbn [fst snd] in Hin. destruct (String.eqb (tag child) "PLAYLISTS");
    [|by apply elem_of_nil in Hin].
  apply list_elem_of_bind in Hin as ([j node] & Hin & Hj%enumerate_lookup).
  apply list_elem_of_singleton in Hin as [= -> ->].
  cbn [fst snd] in *. cbn. by rewrite Hi, Hj.
Qed.

Lemma recordbox_containers_under_playlists root h c :
  (h, c) ∈ recordbox_containers root →
  ∃ i rest child, h = i :: rest ∧ children root !! i = Some child
                  ∧ tag child = "PLAYLISTS".
Proof.
  unfold recordbox_containers, recordbox_containers_of.
  intros ([i child] & Hin & Hi%enumerate_lookup)%list_elem_of_bind.
  cbn [fst snd] in Hin.
  destruct (String.eqb (tag child) "PLAYLISTS") eqn:Htag;
    [|by apply elem_of_nil in Hin].
  apply list_elem_of_bind in Hin as ([j node] & Hin & _).
  apply list_elem_of_singleton in Hin as [= -> ->].
  exists i, [j], child. by apply String.eqb_eq in Htag.
Qed.

Lemma recordbox_traversal w w' :
  RecordBoxParser.get_songs_and_playlists unquote int w = (Ok tt, w') →
  let root := tree (self w) in
  tree (self w') = root
  ∧ names (self w')
    = names (self w)
      ++ (recordbox_containers root
          ≫= (λ c, node_name "Name" <$> children (snd c)))
  ∧ playlists_tree (self w')
    = from_option Some (playlists_tree (self w))
        (fst <$> last (recordbox_containers root)).
Proof.
  unfold RecordBoxParser.get_songs_and_playlists, with_locals.
  destruct (bind _ _ _) as [r [p l]] eqn:H. intros [= -> <-]. cbn [self set_self].
  run_steps.
  apply (for_each_visited "Name" recordbox_containers_of) in H;
    [|intros ic ?? _; apply recordbox_read_root_child].
  destruct H as (Ht & Hn & Hp). cbn in Ht, Hn, Hp. done.
Qed.

Lemma recordbox_init_lockstep path doc verbose w w' :
  recordbox_single_container doc →
  RecordBoxParser.init unquote int path doc verbose w = (Ok tt, w') →
  lockstep "Name" (self w').
Proof.
  intros Hdoc H. unfold RecordBoxParser.init, Parser_.init in H.
  run_inv H. apply modify_inv in Hstep as [_ ->].
  apply recordbox_traversal in H as (Ht & Hn & Hp). cbn in Ht, Hn, Hp.
  apply (single_container_lockstep "Name" (recordbox_containers doc));
    [done| |done|].
  - intros h c Hin. rewrite Ht. by apply recordbox_containers_deref.
  - rewrite Hp. by destruct (last (recordbox_containers doc)).
Qed.

End RecordBox_traversal.

(** *** Where the handles point after a traversal *)

#[global] Instance same_songs_tree_refl {L} : Reflexive (same_songs_tree (L:=L)).
Proof. by intros s. Qed.

#[global] Instance same_songs_tree_trans {L} :
  Transitive (same_songs_tree (L:=L)).
Proof. unfold same_songs_tree. intros s1 s2 s3 H1 H2. congruence. Qed.

Ltac same_songs_tree_trivial :=
  unfold same_songs_tree in *; cbn in *; congruence.

Lemma traktor_read_song_songs_tree song s r s' :
  TraktorParser.read_song song s = (r, s') → same_songs_tree s s'.
Proof.
  unfold TraktorParser.read_song. intros H.
  run_inv H; [|run_steps; same_songs_tree_trivial].
  apply lift_inv in Hstep as [_ ->].
  assert (∀ r1 s1, for_each (children song) TraktorParser.read_location s
                   = (r1, s1) → same_songs_tree s s1) as Hloop.
  { intros r1 s1. apply (for_each_rel same_songs_tree).
    intros elmt s2 r2 s3 _. unfold TraktorParser.read_location.
    destruct (String.eqb (tag elmt) "LOCATION"); intros Hl; run_steps;
      same_songs_tree_trivial. }
  run_inv H.
  - apply Hloop in Hstep. run_steps; same_songs_tree_trivial.
  - by apply Hloop in H.
Qed.

Lemma traktor_read_playlist_songs_tree node s r s' :
  TraktorParser.read_playlist node s = (r, s') → same_songs_tree s s'.
Proof.
  unfold TraktorParser.read_playlist. intros H. run_steps;
    same_songs_tree_trivial.
Qed.

Lemma recordbox_read_song_songs_tree unquote int ch s r s' :
  RecordBoxParser.read_song unquote int ch s = (r, s') → same_songs_tree s s'.
Proof.
  unfold RecordBoxParser.read_song. intros H. run_steps;
    same_songs_tree_trivial.
Qed.

Lemma recordbox_read_playlist_songs_tree playlist s r s' :
  RecordBoxParser.read_playlist playlist s = (r, s') → same_songs_tree s s'.
Proof.
  unfold RecordBoxParser.read_playlist. intros H. run_steps;
    same_songs_tree_trivial.
Qed.

(** Entering a container and reading its nodes leaves [songs_tree] alone. *)
Lemma enter_container_songs_tree {L} (h : handle) (c : Element)
    (body : Element → SE (Parser * L) unit) s r s' :
  (∀ node s r s', body node s = (r, s') → same_songs_tree s s') →
  bind (on_self (set_playlists_tree (Some h)))
    (λ _, for_each (children c) body) s = (r, s') →
  same_songs_tree s s'.
Proof.
  intros Hbody H. run_inv H.
  - apply on_self_inv in Hstep as [_ ->].
    apply (for_each_rel same_songs_tree) in H;
      [|intros ????? ; by eapply Hbody].
    same_songs_tree_trivial.
  - apply on_self_inv in H as [_ ->]. same_songs_tree_trivial.
Qed.

Lemma songs_tree_on_collection_same {L} root (s s' : Parser * L) :
  same_songs_tree s s' →
  songs_tree_on_collection root s → songs_tree_on_collection root s'.
Proof. unfold same_songs_tree, songs_tree_on_collection. by intros ->. Qed.

(** The two branches of [read_root_child], common to both dialects. *)
Lemma read_root_child_songs_tree {L} root i child
    (read_songs read_playlists : SE (Parser * L) unit) s r s' :
  children root !! i = Some child →
  (∀ s r s', read_songs s = (r, s') → same_songs_tree s s') →
  (∀ s r s', read_playlists s = (r, s') → same_songs_tree s s') →
  songs_tree_on_collection root s →
  bind (if String.eqb (tag child) "COLLECTION"
        then bind (on_self (set_songs_tree (Some [i]))) (λ _, read_songs)
        else ret tt)
    (λ _, if String.eqb (tag child) "PLAYLISTS" then read_playlists else ret tt)
    s = (r, s') →
  songs_tree_on_collection root s'.
Proof.
  intros Hi Hsongs Hplaylists Hs H.
  assert (∀ r1 s1,
    (if String.eqb (tag child) "COLLECTION"
     then bind (on_self (set_songs_tree (Some [i]))) (λ _, read_songs)
     else ret tt) s = (r1, s1) → songs_tree_on_collection root s1) as Hfirst.
  { intros r1 s1. destruct (String.eqb (tag child) "COLLECTION") eqn:Htag.
    - apply String.eqb_eq in Htag. intros H1.
      assert (songs_tree_on_collection root
                (set_songs_tree (Some [i]) (fst s), snd s)) as Hset.
      { intros q [= <-]. eauto. }
      run_inv H1.
      + apply on_self_inv in Hstep as [_ ->]. apply Hsongs in H1.
        by eapply songs_tree_on_collection_same.
      + by apply on_self_inv in H1 as [_ ->].
    - by intros [_ ->]%ret_inv. }
  run_inv H.
  - apply Hfirst in Hstep.
    destruct (String.eqb (tag child) "PLAYLISTS").
    + apply Hplaylists in H. by eapply songs_tree_on_collection_same.
    + by apply ret_inv in H as [_ ->].
  - by eapply Hfirst.
Qed.

Lemma traktor_read_root_child_songs_tree root ic s r s' :
  ic ∈ enumerate (children root) →
  songs_tree_on_collection root s →
  TraktorParser.read_root_child ic s = (r, s') →
  songs_tree_on_collection root s'.
Proof.
  destruct ic as [i child]. intros Hi%enumerate_lookup Hs.
  unfold TraktorParser.read_root_child.
  apply (read_root_child_songs_tree root i child); [done| |  |done].
  - intros s1 r1 s2. apply (for_each_rel same_songs_tree).
    intros ??????. by eapply traktor_read_song_songs_tree.
  - intros s1 r1 s2. apply (for_each_rel same_songs_tree).
    intros [j node] s3 r3 s4 _. apply (for_each_rel same_songs_tree).
    intros [k subnodes] s5 r5 s6 _. apply enter_container_songs_tree.
    intros ????. apply traktor_read_playlist_songs_tree.
Qed.

Lemma recordbox_read_root_child_songs_tree unquote int root ic s r s' :
  ic ∈ enumerate (children root) →
  songs_tree_on_collection root s →
  RecordBoxParser.read_root_child unquote int ic s = (r, s') →
  songs_tree_on_collection root s'.
Proof.
  destruct ic as [i child]. intros Hi%enumerate_lookup Hs.
  unfold RecordBoxParser.read_root_child.
  apply (read_root_child_songs_tree root i child); [done| |  |done].
  - intros s1 r1 s2. apply (for_each_rel same_songs_tree).
    intros ??????. by eapply recordbox_read_song_songs_tree.
  - intros s1 r1 s2. apply (for_each_rel same_songs_tree).
    intros [j node_root] s3 r3 s4 _. apply enter_container_songs_tree.
    intros ????. apply recordbox_read_playlist_songs_tree.
Qed.

Lemma traktor_traversal_songs_tree w r w' :
  songs_tree (self w) = None →
  TraktorParser.get_songs_and_playlists w = (r, w') →
  ∀ q, songs_tree (self w') = Some q →
       ∃ i child, q = [i] ∧ children (tree (self w)) !! i = Some child
                  ∧ tag child = "COLLECTION".
Proof.
  intros Hnone. unfold TraktorParser.get_songs_and_playlists, with_locals.
  destruct (bind _ _ _) as [r1 [p l]] eqn:H. intros [= -> <-].
  cbn [self set_self]. run_inv H; [|by apply gets_inv in H as [? _]].
  apply gets_inv in Hstep as [[= ->] ->].
  run_inv H; [|by apply on_self_inv in H as [? _]].
  apply on_self_inv in Hstep as [_ ->].
  run_inv H; [|by apply on_self_inv in H as [? _]].
  apply on_self_inv in Hstep as [_ ->].
  apply (for_each_invariant (songs_tree_on_collection (tree (self w)))) in H.
  - exact H.
  - intros ic s1 r1 s2 Hin Hs1. by apply traktor_read_root_child_songs_tree.
  - intros q. cbn. by rewrite Hnone.
Qed.

Lemma recordbox_traversal_songs_tree unquote int w r w' :
  songs_tree (self w) = None →
  RecordBoxParser.get_songs_and_playlists unquote int w = (r, w') →
  ∀ q, songs_tree (self w') = Some q →
       ∃ i child, q = [i] ∧ children (tree (self w)) !! i = Some child
                  ∧ tag child = "COLLECTION".
Proof.
  intros Hnone. unfold RecordBoxParser.get_songs_and_playlists, with_locals.
  destruct (bind _ _ _) as [r1 [p l]] eqn:H. intros [= -> <-].
  cbn [self set_self]. run_inv H; [|by apply gets_inv in H as [? _]].
  apply gets_inv in Hstep as [[= ->] ->].
  apply (for_each_invariant (songs_tree_on_collection (tree (self w)))) in H.
  - exact H.
  - intros ic s1 r1 s2 Hin Hs1.
    by apply recordbox_read_root_child_songs_tree.
  - intros q. cbn. by rewrite Hnone.
Qed.

(** A handle under a [PLAYLISTS] child and one on a [COLLECTION] child go
    into different children of the root. *)
Lemma handles_apart_by_tag (root : Element) (s : Parser) :
  (∀ q, songs_tree s = Some q →
        ∃ i child, q = [i] ∧ children root !! i = Some child
                   ∧ tag child = "COLLECTION") →
  (∀ h, playlists_tree s = Some h →
        ∃ i rest child, h = i :: rest ∧ children root !! i = Some child
                        ∧ tag child = "PLAYLISTS") →
  handles_apart s.
Proof.
  intros Hsongs Hplaylists. unfold handles_apart.
  destruct (songs_tree s) as [q|]; [|done].
  destruct (playlists_tree s) as [h|]; [|done].
  destruct (Hsongs q eq_refl) as (i & child & -> & Hi & Htag).
  destruct (Hplaylists h eq_refl) as (i' & rest & child' & -> & Hi' & Htag').
  left. intros <-. rewrite Hi in Hi'. injection Hi' as <-.
  rewrite Htag in Htag'. discriminate.
Qed.

Lemma traktor_init_handles_apart path doc verbose w w' :
  TraktorParser.init path doc verbose w = (Ok tt, w') →
  handles_apart (self w').
Proof.
  intros H. unfold TraktorParser.init, Parser_.init in H.
  run_inv H. apply modify_inv in Hstep as [_ ->].
  apply (handles_apart_by_tag doc).
  - refine (traktor_traversal_songs_tree _ _ _ _ H). reflexivity.
  - apply traktor_traversal in H as (_ & _ & Hp). cbn in Hp.
    intros h Hh. rewrite Hh in Hp.
    destruct (last (traktor_containers doc)) as [[h' c]|] eqn:Hlast; [|done].
    injection Hp as ->. apply last_Some_elem_of in Hlast.
    by eapply traktor_containers_under_playlists.
Qed.

Lemma recordbox_init_handles_apart unquote int path doc verbose w w' :
  RecordBoxParser.init unquote int path doc verbose w = (Ok tt, w') →
  handles_apart (self w').
Proof.
  intros H. unfold RecordBoxParser.init, Parser_.init in H.
  run_inv H. apply modify_inv in Hstep as [_ ->].
  apply (handles_apart_by_tag doc).
  - refine (recordbox_traversal_songs_tree _ _ _ _ _ _ H). reflexivity.
  - apply recordbox_traversal in H as (_ & _ & Hp). cbn in Hp.
    intros h Hh. rewrite Hh in Hp.
    destruct (last (recordbox_containers doc)) as [[h' c]|] eqn:Hlast; [|done].
    injection Hp as ->. apply last_Some_elem_of in Hlast.
    by eapply recordbox_containers_under_playlists.
Qed.

(** ** Lock-step from a parsed document on *)

Lemma save_file_self `{ParserClass} (options : write_options) path backup
    w r w' :
  (∀ p, _save_tree p = tree_write p options) →
  Parser_.save_file path backup w = (r, w') → self w' = self w.
Proof.
  intros Hsave. unfold Parser_.save_file. intros Hrun.
  run_inv Hrun; [|by apply gets_inv in Hrun as [? _]].
  apply gets_inv in Hstep as [[= ->] ->].
  assert (∀ r1 w1, (if backup
                     then shutil_copy (file_path (self w))
                            (file_path (self w) +:+ ".bak")
                     else ret tt) w = (r1, w1) → self w1 = self w) as Hcopy.
  { intros r1 w1. destruct backup.
    - by intros [? _]%shutil_copy_self.
    - by intros [_ ->]%ret_inv. }
  run_inv Hrun.
  - rewrite Hsave in Hrun. apply tree_write_self in Hrun as [Hrun _].
    match goal with
    | Hc : (if backup then _ else _) _ = _ |- _ => apply Hcopy in Hc
    end.
    congruence.
  - by eapply Hcopy.
Qed.

Section Perform_invariant.
Context `{ParserClass} (P : Parser → Prop) (options : write_options).
Hypothesis add_keeps : ∀ playlist index w r w',
  P (self w) → add_playlist_to_tree playlist index w = (r, w') → P (self w').
Hypothesis save_writes : ∀ p, _save_tree p = tree_write p options.

Lemma perform_invariant o w r w' :
  P (self w) → perform o w = (r, w') → P (self w').
Proof.
  intros Hw. destruct o as [playlist index|given|path backup]; cbn.
  - by apply add_keeps.
  - unfold Parser_.add_playlists_to_tree.
    apply (for_each_invariant (λ w, P (self w))); [|done].
    intros playlist w1 r1 w2 _. apply add_keeps.
  - intros Hrun. by rewrite (save_file_self options _ _ _ _ _ save_writes Hrun).
Qed.

Lemma perform_all_invariant ops w r w' :
  P (self w) → for_each ops perform w = (r, w') → P (self w').
Proof.
  apply (for_each_invariant (λ w, P (self w))).
  intros o w1 r1 w2 _. apply perform_invariant.
Qed.

End Perform_invariant.

(** C2, as the code has it.  [add_playlist_to_tree], on either parser, keeps
    the playlists sequence and the tree fragment in lock-step when they were
    so before the call, whether it returns or raises: same length, and at
    each position the playlist's name is the node's name attribute.  A
    parser built from a document with at most one container of playlists
    starts in lock-step, and is in lock-step after any sequence of
    [add_playlist_to_tree], [add_playlists_to_tree] and [save_file],
    including a sequence cut short by an exception.  Lock-step is not
    established by the call, and not kept by every operation. *)
Theorem lockstep_after_every_operation (unquote : string → string)
    (int : string → option Z) :
  (∀ playlist index w r w',
     lockstep "NAME" (self w) →
     TraktorParser.add_playlist_to_tree playlist index w = (r, w') →
     lockstep "NAME" (self w'))
  ∧ (∀ playlist index w r w',
       lockstep "Name" (self w) →
       RecordBoxParser.add_playlist_to_tree playlist index w = (r, w') →
       lockstep "Name" (self w'))
  ∧ (∀ path doc verbose ops w0 w r w',
       traktor_single_container doc →
       TraktorParser.init path doc verbose w0 = (Ok tt, w) →
       for_each ops (perform (H := TraktorParser.class)) w = (r, w') →
       lockstep "NAME" (self w'))
  ∧ (∀ path doc verbose ops w0 w r w',
       recordbox_single_container doc →
       RecordBoxParser.init unquote int path doc verbose w0 = (Ok tt, w) →
       for_each ops (perform (H := RecordBoxParser.class unquote int)) w
       = (r, w') →
       lockstep "Name" (self w')).
Proof.
  split; [|split; [|split]].
  - intros ??????. by apply traktor_add_lockstep.
  - intros ??????. by apply recordbox_add_lockstep.
  - intros path doc verbose ops w0 w r w' Hdoc Hinit.
    apply (perform_all_invariant (lockstep "NAME") traktor_options).
    + intros ?????. apply traktor_add_lockstep.
    + done.
    + by eapply traktor_init_lockstep.
  - intros path doc verbose ops w0 w r w' Hdoc Hinit.
    apply (perform_all_invariant (lockstep "Name") recordbox_options).
    + intros ?????. apply recordbox_add_lockstep.
    + done.
    + by eapply recordbox_init_lockstep.
Qed.

Lemma lockstep_after_every_operation_witness :
  traktor_single_container Sample.traktor_doc
  ∧ lockstep "NAME"
      (self (snd (for_each [Add_playlist Sample.techno (Some 7%Z);
                            Add_playlists [Sample.house];
                            Save_file None false]
                    (perform (H := TraktorParser.class))
                    Sample.traktor_world))).
Proof.
  assert (traktor_single_container Sample.traktor_doc) as Hdoc.
  { unfold traktor_single_container. vm_compute. constructor. }
  split; [exact Hdoc|].
  destruct (lockstep_after_every_operation Sample.unquote Sample.int)
    as (_ & _ & H & _).
  apply (H "collection.nml" Sample.traktor_doc true
           [Add_playlist Sample.techno (Some 7%Z);
            Add_playlists [Sample.house];
            Save_file None false]
           Sample.blank Sample.traktor_world
           (fst (for_each [Add_playlist Sample.techno (Some 7%Z);
                           Add_playlists [Sample.house];
                           Save_file None false]
                   (perform (H := TraktorParser.class))
                   Sample.traktor_world))).
  - exact Hdoc.
  - vm_compute. reflexivity.
  - vm_compute. reflexivity.
Defined.

(** ** The frame of an insertion *)

Lemma traktor_add_handles_apart playlist index w r w' :
  handles_apart (self w) →
  TraktorParser.add_playlist_to_tree playlist index w = (r, w') →
  handles_apart (self w').
Proof.
  by intros Hw
    [(h & frag & _ & _ & _ & _ & ->)|(e & _ & ->)]%traktor_add_cases.
Qed.

Lemma recordbox_add_handles_apart playlist index w r w' :
  handles_apart (self w) →
  RecordBoxParser.add_playlist_to_tree playlist index w = (r, w') →
  handles_apart (self w').
Proof.
  intros Hw Hrun. destruct r as [[]|e].
  - by apply recordbox_add_inv in Hrun as (h & frag & node & _ & _ & _ & ->).
  - by apply recordbox_add_raise in Hrun as ->.
Qed.

(** C9. A successful [add_playlist_to_tree], on either parser, changes the
    document only by one new child under the playlists fragment, and the
    parser only by that and by one new entry of its playlists sequence.
    The songs list and the songs section are as before; so is every element
    of the document outside the fragment, and the fragment's own tag,
    attributes and text.  Taking the new node out of the fragment's children
    gives the children as they were, each with its content and in the same
    order; likewise for the sequence.  The files on disk are not touched.
    This holds for a parser whose songs section and playlists fragment are
    apart in the document, which is the case of every parser built from a
    document, whatever was done with it since. *)
Theorem add_playlist_frame (unquote : string → string)
    (int : string → option Z) :
  (∀ playlist index w w',
     handles_apart (self w) →
     TraktorParser.add_playlist_to_tree playlist index w = (Ok tt, w')
     ∨ RecordBoxParser.add_playlist_to_tree playlist index w = (Ok tt, w') →
     disk w' = disk w
     ∧ ∃ h frag index node,
         playlists_tree (self w) = Some h ∧ deref h (tree (self w)) = Some frag
         ∧ self w' = spliced index node playlist h (self w)
         ∧ songs (self w') = songs (self w)
         ∧ songs_tree (self w') = songs_tree (self w)
         ∧ songs_fragment (self w') = songs_fragment (self w)
         ∧ playlists_tree (self w') = playlists_tree (self w)
         ∧ file_path (self w') = file_path (self w)
         ∧ (∀ q, diverge q h →
                 deref q (tree (self w')) = deref q (tree (self w)))
         ∧ (∃ frag', playlists_fragment (self w') = Some frag'
                     ∧ tag frag' = tag frag ∧ attrib frag' = attrib frag
                     ∧ text frag' = text frag ∧ tail frag' = tail frag)
         ∧ (∃ k, playlist_nodes (self w') !! k = Some node
                 ∧ delete k (playlist_nodes (self w')) = playlist_nodes (self w))
         ∧ (∃ k, playlists (self w') !! k = Some playlist
                 ∧ delete k (playlists (self w')) = playlists (self w)))
  ∧ (∀ path doc verbose ops w0 w r w',
       TraktorParser.init path doc verbose w0 = (Ok tt, w) →
       for_each ops (perform (H := TraktorParser.class)) w = (r, w') →
       handles_apart (self w'))
  ∧ (∀ path doc verbose ops w0 w r w',
       RecordBoxParser.init unquote int path doc verbose w0 = (Ok tt, w) →
       for_each ops (perform (H := RecordBoxParser.class unquote int)) w
       = (r, w') →
       handles_apart (self w')).
Proof.
  split; [|split].
  - intros playlist index w w' Hapart [Hrun|Hrun].
    + apply traktor_add_inv in Hrun as (h & frag & Hh & Hd & ->).
      split; [done|]. do 4 eexists. split; [exact Hh|]. split; [exact Hd|].
      split; [reflexivity|]. cbn [self set_self].
      by apply (spliced_frame _ _ _ _ frag).
    + apply recordbox_add_inv in Hrun as (h & frag & node & Hh & Hd & _ & ->).
      split; [done|]. do 4 eexists. split; [exact Hh|]. split; [exact Hd|].
      split; [reflexivity|]. cbn [self set_self].
      by apply (spliced_frame _ _ _ _ frag).
  - intros path doc verbose ops w0 w r w' Hinit.
    apply (perform_all_invariant handles_apart traktor_options).
    + intros ?????. apply traktor_add_handles_apart.
    + done.
    + by eapply traktor_init_handles_apart.
  - intros path doc verbose ops w0 w r w' Hinit.
    apply (perform_all_invariant handles_apart recordbox_options).
    + intros ?????. apply recordbox_add_handles_apart.
    + done.
    + by eapply recordbox_init_handles_apart.
Qed.

Lemma add_playlist_frame_witness :
  handles_apart (self Sample.traktor_world)
  ∧ songs_fragment
      (self (snd (TraktorParser.add_playlist_to_tree Sample.techno None
                    Sample.traktor_world)))
    = songs_fragment (self Sample.traktor_world)
  ∧ ∃ k, delete k
           (playlist_nodes
              (self (snd (TraktorParser.add_playlist_to_tree Sample.techno None
                            Sample.traktor_world))))
         = playlist_nodes (self Sample.traktor_world).
Proof.
  destruct (add_playlist_frame Sample.unquote Sample.int) as (Hframe & Hinit & _).
  assert (handles_apart (self Sample.traktor_world)) as Hapart.
  { apply (Hinit "collection.nml" Sample.traktor_doc true [] Sample.blank
             Sample.traktor_world (Ok tt) Sample.traktor_world).
    - vm_compute. reflexivity.
    - reflexivity. }
  split; [exact Hapart|].
  destruct (Hframe Sample.techno None Sample.traktor_world
              (snd (TraktorParser.add_playlist_to_tree Sample.techno None
                      Sample.traktor_world)) Hapart)
    as (_ & h & frag & i & node & _ & _ & _ & _ & _ & Hsongs & _ & _ & _ & _
        & (k & _ & Hnodes) & _).
  - left. vm_compute. reflexivity.
  - split; [exact Hsongs|]. exists k. exact Hnodes.
Defined.

(** A parser freshly built from a document with two containers of one
    playlist each is out of step, and a successful [add_playlist_to_tree]
    leaves it so: three playlists in the sequence, two nodes in the
    fragment.  A parser built from a document with one container is out of
    step after a second [get_songs_and_playlists]. *)
Lemma lockstep_lost_outside_single_container :
  RecordBoxParser.init Sample.unquote Sample.int "recordbox.xml"
    Sample.two_containers_doc true Sample.blank
  = (Ok tt, Sample.recordbox_two_containers_world)
  ∧ fst (RecordBoxParser.add_playlist_to_tree Sample.techno None
           Sample.recordbox_two_containers_world) = Ok tt
  ∧ (playlist_name
     <$> playlists
           (self (snd (RecordBoxParser.add_playlist_to_tree Sample.techno
                         None Sample.recordbox_two_containers_world))))
    = ["One"; "Techno"; "Two"]
  ∧ (node_name "Name"
     <$> playlist_nodes
           (self (snd (RecordBoxParser.add_playlist_to_tree Sample.techno
                         None Sample.recordbox_two_containers_world))))
    = [Some "Two"; Some "Techno"]
  ∧ RecordBoxParser.init Sample.unquote Sample.int "recordbox.xml"
      (Sample.recordbox_doc Sample.both_tracks) true Sample.blank
    = (Ok tt, Sample.recordbox_world)
  ∧ fst (RecordBoxParser.get_songs_and_playlists Sample.unquote Sample.int
           Sample.recordbox_world) = Ok tt
  ∧ (playlist_name
     <$> playlists
           (self (snd (RecordBoxParser.get_songs_and_playlists Sample.unquote
                         Sample.int Sample.recordbox_world))))
    = ["Warmup"; "Warmup"]
  ∧ (node_name "Name"
     <$> playlist_nodes
           (self (snd (RecordBoxParser.get_songs_and_playlists Sample.unquote
                         Sample.int Sample.recordbox_world))))
    = [Some "Warmup"].
Proof. vm_compute. repeat split. Qed.

(** Why one container: the traversal appends the playlists of every
    container it meets and keeps the handle of the last one only.  With two
    containers of one playlist each, the sequence has two playlists and the
    fragment one node. *)
Example two_containers_out_of_step :
  fst (RecordBoxParser.init Sample.unquote Sample.int "recordbox.xml"
         Sample.two_containers_doc true Sample.blank) = Ok tt
  ∧ names
      (self (snd (RecordBoxParser.init Sample.unquote Sample.int
                    "recordbox.xml" Sample.two_containers_doc true
                    Sample.blank)))
    = [Some "One"; Some "Two"]
  ∧ node_name "Name"
    <$> playlist_nodes
          (self (snd (RecordBoxParser.init Sample.unquote Sample.int
                        "recordbox.xml" Sample.two_containers_doc true
                        Sample.blank)))
    = [Some "Two"].
Proof. vm_compute. repeat split. Qed.

(** * Further properties *)

(** ** The path codec *)

Section Codec_facts.

Local Abbreviation enc := Song_codec.normal_path_to_traktor_path.
Local Abbreviation dec := Song_codec.traktor_path_to_normal_path.
Local Abbreviation bs := Song_codec.backslash.

Lemma contains_backslash_cons (c : ascii) (s : string) :
  PyStr.contains bs (String c s)
  = Ascii.eqb (ascii_of_nat 92) c || PyStr.contains bs s.
Proof.
  cbn [PyStr.contains PyStr.startswith Song_codec.backslash].
  by destruct (Ascii.eqb (ascii_of_nat 92) c).
Qed.

Lemma contains_backslash_app (s1 s2 : string) :
  PyStr.contains bs (s1 +:+ s2)
  = PyStr.contains bs s1 || PyStr.contains bs s2.
Proof.
  induction s1 as [|c s1 IH].
  - change ("" +:+ s2) with s2. by destruct (PyStr.contains bs s2).
  - rewrite string_app_cons, !contains_backslash_cons, IH.
    by rewrite orb_assoc.
Qed.

(** A prefix without backslash goes through the encoding untouched. *)
Lemma enc_app_plain (cur s : string) :
  PyStr.contains bs cur = false → enc (cur +:+ s) = cur +:+ enc s.
Proof.
  induction cur as [|c cur IH]; [done|].
  rewrite contains_backslash_cons. intros [Hc Hcur]%orb_false_iff.
  rewrite string_app_cons, enc_cons, Hc, IH by done. done.
Qed.

Lemma enc_backslash (s : string) : enc (bs +:+ s) = "/:" +:+ enc s.
Proof. unfold Song_codec.backslash. by rewrite string_app_cons, enc_cons. Qed.

(** Splitting on the token and encoding the joined pieces gives back what
    was split, when it had no backslash of its own.  The second part is the
    scan while it passes over the colon of a token. *)
Lemma enc_join_split (t : string) :
  PyStr.contains bs t = false →
  (∀ cur, PyStr.contains bs cur = false →
          enc (PyStr.join bs (PyStr.split_scan "/:" 0 cur t)) = cur +:+ t)
  ∧ (∀ cur, PyStr.contains bs cur = false →
            enc (PyStr.join bs (PyStr.split_scan "/:" 1 cur t))
            = cur +:+ PyStr.drop 1 t).
Proof.
  induction t as [|c t IH].
  - intros _. split; intros cur Hcur; cbn [PyStr.split_scan PyStr.join PyStr.drop];
      rewrite <- (string_app_nil_r cur) at 1; by rewrite enc_app_plain.
  - rewrite contains_backslash_cons. intros [Hc Ht]%orb_false_iff.
    destruct (IH Ht) as [IH0 IH1]. split; intros cur Hcur.
    + cbn [PyStr.split_scan].
      destruct (PyStr.startswith "/:" (String c t)) eqn:Hs.
      * cbn [String.length Nat.sub].
        rewrite join_cons by apply split_scan_not_nil.
        rewrite enc_app_plain, enc_backslash, IH1 by done.
        f_equal. cbn [PyStr.startswith] in Hs.
        destruct (Ascii.eqb "/" c) eqn:Hc1; [|done].
        apply Ascii.eqb_eq in Hc1 as <-.
        destruct t as [|d t]; [done|].
        destruct (Ascii.eqb ":" d) eqn:Hd; [|done].
        apply Ascii.eqb_eq in Hd as <-. reflexivity.
      * rewrite IH0.
        -- by rewrite string_app_assoc.
        -- rewrite contains_backslash_app, Hcur, contains_backslash_cons, Hc.
           reflexivity.
    + cbn [PyStr.split_scan PyStr.drop]. by apply IH0.
Qed.

End Codec_facts.

(** X1. Encoding the decoding of a token path gives the token path back, for
    every token path without a backslash. *)
Theorem traktor_path_decode_encode (t : string) :
  PyStr.contains Song_codec.backslash t = false →
  Song_codec.normal_path_to_traktor_path
    (Song_codec.traktor_path_to_normal_path t) = t.
Proof.
  intros Ht. unfold Song_codec.traktor_path_to_normal_path, PyStr.split.
  by apply enc_join_split.
Qed.

Lemma traktor_path_decode_encode_witness :
  Song_codec.normal_path_to_traktor_path
    (Song_codec.traktor_path_to_normal_path "C:/:M/://:x/:a.mp3")
  = "C:/:M/://:x/:a.mp3".
Proof. apply traktor_path_decode_encode. reflexivity. Defined.

Section Single_character.
Variable a : ascii.
Local Abbreviation pat := (String a EmptyString).

Lemma contains_char_cons (c : ascii) (s : string) :
  PyStr.contains pat (String c s) = Ascii.eqb a c || PyStr.contains pat s.
Proof.
  cbn [PyStr.contains PyStr.startswith]. by destruct (Ascii.eqb a c).
Qed.

Lemma contains_char_app (s1 s2 : string) :
  PyStr.contains pat (s1 +:+ s2)
  = PyStr.contains pat s1 || PyStr.contains pat s2.
Proof.
  induction s1 as [|c s1 IH].
  - change ("" +:+ s2) with s2. by destruct (PyStr.contains pat s2).
  - rewrite string_app_cons, !contains_char_cons, IH. by rewrite orb_assoc.
Qed.

Lemma replace_char_cons (new : string) (c : ascii) (s : string) :
  PyStr.replace pat new (String c s)
  = if Ascii.eqb a c then new +:+ PyStr.replace pat new s
    else String c (PyStr.replace pat new s).
Proof.
  unfold PyStr.replace.
  cbn [PyStr.replace_scan PyStr.startswith String.length Nat.sub].
  by destruct (Ascii.eqb a c).
Qed.

(** After [s.replace(a, new)] no [a] is left, when [new] has none. *)
Lemma replace_char_gone (new s : string) :
  PyStr.contains pat new = false →
  PyStr.contains pat (PyStr.replace pat new s) = false.
Proof.
  intros Hnew. induction s as [|c s IH]; [done|].
  rewrite replace_char_cons. destruct (Ascii.eqb a c) eqn:Hc.
  - by rewrite contains_char_app, Hnew, IH.
  - by rewrite contains_char_cons, Hc, IH.
Qed.

(** Without [a] in it, [s.replace(a, new)] is [s]. *)
Lemma replace_char_absent (new s : string) :
  PyStr.contains pat s = false → PyStr.replace pat new s = s.
Proof.
  induction s as [|c s IH]; [done|].
  rewrite contains_char_cons, replace_char_cons.
  intros [-> Hs]%orb_false_iff. by rewrite IH.
Qed.

(** The last piece of [s.split(a)]: it has no [a], and what precedes it in
    [s] is empty or ends with [a]. *)
Lemma split_char_last (s cur : string) :
  let f := List.last (PyStr.split_scan pat 0 cur s) EmptyString in
  (PyStr.contains pat cur = false → PyStr.contains pat f = false)
  ∧ ∃ dir, cur +:+ s = dir +:+ f
           ∧ (dir = EmptyString ∨ ∃ d, dir = d +:+ pat).
Proof.
  revert cur. induction s as [|c s IH]; intros cur; cbn zeta.
  - cbn. split; [done|]. exists EmptyString. rewrite string_app_nil_r. eauto.
  - cbn [PyStr.split_scan PyStr.startswith String.length Nat.sub].
    destruct (Ascii.eqb a c) eqn:Hc.
    + apply Ascii.eqb_eq in Hc as <-.
      destruct (IH EmptyString) as [Hf (dir & Hdir & Hend)].
      pose proof (split_scan_not_nil pat 0 EmptyString s) as Hne.
      destruct (PyStr.split_scan pat 0 EmptyString s) as [|x l] eqn:E; [done|].
      change (List.last (cur :: x :: l) EmptyString)
        with (List.last (x :: l) EmptyString).
      split; [intros _; by apply Hf|].
      change (EmptyString +:+ s) with s in Hdir.
      exists (cur +:+ pat +:+ dir). split.
      * rewrite Hdir, !string_app_assoc. reflexivity.
      * right. destruct Hend as [->|[d ->]].
        -- exists cur. by rewrite string_app_nil_r.
        -- exists (cur +:+ pat +:+ d). by rewrite !string_app_assoc.
    + destruct (IH (cur +:+ String c EmptyString)) as [Hf (dir & Hdir & Hend)].
      split.
      * intros Hcur. apply Hf.
        by rewrite contains_char_app, Hcur, contains_char_cons, Hc.
      * exists dir. split; [|done]. rewrite <- Hdir, string_app_assoc.
        reflexivity.
Qed.

End Single_character.

(** X2. [record_path_to_normal_path] leaves no forward slash in the path,
    whatever the decoder gave; [normal_path_to_traktor_path] leaves no
    backslash; and a path without backslash is its own token path. *)
Theorem codec_separators (unquote : string → string) (p : string) :
  PyStr.contains "/" (Song_codec.record_path_to_normal_path unquote p) = false
  ∧ PyStr.contains Song_codec.backslash
      (Song_codec.normal_path_to_traktor_path p) = false
  ∧ (PyStr.contains Song_codec.backslash p = false →
     Song_codec.normal_path_to_traktor_path p = p).
Proof.
  split; [|split].
  - by apply replace_char_gone.
  - by apply replace_char_gone.
  - apply replace_char_absent.
Qed.

Lemma codec_separators_witness :
  Song_codec.normal_path_to_traktor_path "a.mp3" = "a.mp3".
Proof. apply (codec_separators Sample.unquote "a.mp3"). reflexivity. Defined.

(** X3. [RecordSong.file_name] is the part of the path after its last
    backslash: it has no backslash, and what precedes it in the path is
    empty or ends with a backslash. *)
Theorem record_song_file_name (unquote : string → string)
    (id name record_path : string) (size : option Z) :
  ∃ path file_name dir,
    new_RecordSong unquote id name record_path size
    = RecordSong name id path record_path file_name size
    ∧ path = Song_codec.record_path_to_normal_path unquote record_path
    ∧ path = dir +:+ file_name
    ∧ PyStr.contains Song_codec.backslash file_name = false
    ∧ (dir = EmptyString ∨ ∃ d, dir = d +:+ Song_codec.backslash).
Proof.
  unfold new_RecordSong, PyStr.split.
  set (path := Song_codec.record_path_to_normal_path unquote record_path).
  destruct (split_char_last (ascii_of_nat 92) path EmptyString)
    as [Hf (dir & Hdir & Hend)].
  eexists path, _, dir. split; [reflexivity|]. split; [done|].
  split; [exact Hdir|]. split; [by apply Hf|exact Hend].
Qed.

(** ** The nodes that the parsers build *)

Lemma fold_add_traktor_tracks (songs : list Song) (xml : Element) :
  fold_left TraktorParser.add_traktor_track_to_playlist songs xml
  = ET.set_children (children xml ++ (traktor_entry_node <$> songs)) xml.
Proof.
  revert xml. induction songs as [|song songs IH]; intros xml; cbn [fold_left].
  - destruct xml. cbn. by rewrite app_nil_r.
  - rewrite IH. destruct xml. cbn. by rewrite <- app_assoc.
Qed.

(** The node of [TraktorParser.add_playlist_to_tree] in full. *)
Lemma traktor_playlist_node_closed_form (uuid : string) (playlist : Playlist) :
  TraktorParser.playlist_node uuid playlist
  = mkElement "NODE"
      [("TYPE", "PLAYLIST"); ("NAME", playlist_name playlist)] None None
      [mkElement "PLAYLIST"
         [("ENTRIES", PyStr.of_nat (length (playlist_songs playlist)));
          ("TYPE", "LIST");
          ("UUID", PyStr.replace "-" "" uuid)]
         None None
         (traktor_entry_node <$> playlist_songs playlist)].
Proof.
  unfold TraktorParser.playlist_node. rewrite fold_add_traktor_tracks.
  reflexivity.
Qed.

Lemma add_tracks_resolve (s : Parser) (songs : list Song) (node node' : Element) :
  RecordBoxParser.add_tracks s node songs = Ok node' ↔
  ∃ ids, Forall2 (λ song id, result_bind (resolve s song) song_id = Ok id)
           songs ids
         ∧ node' = ET.set_children
                     (children node ++ (recordbox_track_node <$> ids)) node.
Proof.
  revert node. induction songs as [|song songs IH]; intros node;
    cbn [RecordBoxParser.add_tracks].
  - split.
    + intros [= <-]. exists []. split; [constructor|].
      destruct node. cbn. by rewrite app_nil_r.
    + intros (ids & Hall & ->). apply Forall2_nil_inv_l in Hall as ->.
      destruct node. cbn. by rewrite app_nil_r.
  - unfold RecordBoxParser.add_track at 1. fold (resolve s song).
    destruct (resolve s song) as [x|e] eqn:Hres; cbn [result_bind].
    + destruct (song_id x) as [id|e] eqn:Hsid; cbn [result_bind].
      * rewrite IH. split.
        -- intros (ids & Hall & ->). exists (id :: ids). split.
           ++ constructor; [by rewrite Hres|exact Hall].
           ++ destruct node. cbn. by rewrite <- app_assoc.
        -- intros (ids & Hall & ->).
           apply Forall2_cons_inv_l in Hall as (id' & ids' & Hid & Hall & ->).
           rewrite Hres in Hid. cbn in Hid. rewrite Hsid in Hid.
           injection Hid as <-. exists ids'. split; [done|].
           destruct node. cbn. by rewrite <- app_assoc.
      * split; [done|]. intros (ids & Hall & _).
        apply Forall2_cons_inv_l in Hall as (? & ? & Hid & _).
        rewrite Hres in Hid. cbn in Hid. by rewrite Hsid in Hid.
    + split; [done|]. intros (ids & Hall & _).
      apply Forall2_cons_inv_l in Hall as (? & ? & Hid & _).
      by rewrite Hres in Hid.
Qed.

(** The node of [RecordBoxParser.add_playlist_to_tree] in full, which is
    built exactly when every song of the playlist resolves to a song with an
    id. *)
Lemma recordbox_node_closed_form (s : Parser) (playlist : Playlist)
    (node : Element) :
  recordbox_node s playlist = Ok node ↔
  ∃ ids,
    Forall2 (λ song id, result_bind (resolve s song) song_id = Ok id)
      (playlist_songs playlist) ids
    ∧ node
      = mkElement "NODE"
          [("Name", playlist_name playlist); ("Type", "1"); ("KeyType", "0");
           ("Entries", PyStr.of_nat (length ids))]
          None None (recordbox_track_node <$> ids).
Proof.
  unfold recordbox_node. rewrite add_tracks_resolve. split.
  - intros (ids & Hall & ->). exists ids. split; [done|].
    unfold RecordBoxParser.playlist_header, nb_entries.
    by rewrite (Forall2_length _ _ _ Hall).
  - intros (ids & Hall & ->). exists ids. split; [done|].
    unfold RecordBoxParser.playlist_header, nb_entries.
    by rewrite (Forall2_length _ _ _ Hall).
Qed.

(** X4. In both dialects the node built for a playlist announces as many
    entries as it holds.  The Traktor node has one [PLAYLIST] child, whose
    [ENTRIES] is the number of its [ENTRY] children: one for each song of the
    playlist, in order, under the token path of the song.  The RecordBox
    node, when it is built, carries the name of the playlist, and its
    [Entries] is the number of its [TRACK] children: one for each song of
    the playlist, in order, under the id of what the song resolves to. *)
Theorem playlist_node_entries_count (uuid : string) (s : Parser)
    (playlist : Playlist) :
  (∃ playlist_xml,
     children (TraktorParser.playlist_node uuid playlist) = [playlist_xml]
     ∧ ET.get "ENTRIES" playlist_xml
       = Ok (PyStr.of_nat (length (children playlist_xml)))
     ∧ children playlist_xml = traktor_entry_node <$> playlist_songs playlist)
  ∧ (∀ node,
       recordbox_node s playlist = Ok node →
       ET.get "Name" node = Ok (playlist_name playlist)
       ∧ ET.get "Entries" node = Ok (PyStr.of_nat (length (children node)))
       ∧ Forall2 (λ song track,
                    ∃ id, result_bind (resolve s song) song_id = Ok id
                          ∧ track = recordbox_track_node id)
           (playlist_songs playlist) (children node)).
Proof.
  split.
  - rewrite traktor_playlist_node_closed_form. eexists. split; [reflexivity|].
    cbn [children]. split; [|reflexivity].
    by rewrite length_fmap.
  - intros node (ids & Hids & ->)%recordbox_node_closed_form.
    split; [reflexivity|]. cbn [children]. split.
    + by rewrite length_fmap.
    + clear -Hids. induction Hids as [|song id songs ids Hid _ IH];
        [constructor|].
      rewrite fmap_cons. constructor; [eauto|exact IH].
Qed.

Lemma playlist_node_entries_count_witness :
  ∃ node,
    recordbox_node (self Sample.recordbox_world) Sample.house = Ok node
    ∧ ET.get "Entries" node = Ok "2"
    ∧ length (children node) = 2.
Proof.
  destruct (playlist_node_entries_count "c0ffee" (self Sample.recordbox_world)
              Sample.house) as [_ H].
  eexists. split; [vm_compute; reflexivity|].
  edestruct H as (_ & Hentries & _); [vm_compute; reflexivity|].
  split; [|vm_compute; reflexivity].
  rewrite Hentries. vm_compute. reflexivity.
Defined.

(** ** Reading back what was written *)

Lemma read_traktor_entry (d : gmap string Song) (song : Song) :
  collect (TraktorParser.read_primarykey d) (children (traktor_entry_node song))
  = match d !! Song_codec.normal_path_to_traktor_path (song_path song) with
    | Some x => Ok [x]
    | None =>
        Raise (KeyError
                 (Song_codec.normal_path_to_traktor_path (song_path song)))
    end.
Proof.
  unfold traktor_entry_node. cbn [children collect].
  unfold TraktorParser.read_primarykey, ET.get.
  cbn -[Song_codec.normal_path_to_traktor_path].
  by destruct (d !! Song_codec.normal_path_to_traktor_path (song_path song)).
Qed.

Lemma collect_traktor_entries (d : gmap string Song) (songs found : list Song) :
  Forall2 (λ song x,
             d !! Song_codec.normal_path_to_traktor_path (song_path song)
             = Some x) songs found →
  collect (λ entry, collect (TraktorParser.read_primarykey d) (children entry))
    (traktor_entry_node <$> songs) = Ok found.
Proof.
  induction 1 as [|song x songs found Hx _ IH]; [done|].
  rewrite fmap_cons. cbn [collect]. by rewrite IH, read_traktor_entry, Hx.
Qed.

Lemma collect_traktor_entries_missing (d : gmap string Song) (songs : list Song)
    (song : Song) :
  song ∈ songs →
  d !! Song_codec.normal_path_to_traktor_path (song_path song) = None →
  ∃ e, collect (λ entry, collect (TraktorParser.read_primarykey d)
                           (children entry))
         (traktor_entry_node <$> songs) = Raise e.
Proof.
  intros Hin Hnone. induction Hin as [song songs|song song' songs _ IH];
    rewrite fmap_cons; cbn [collect]; rewrite read_traktor_entry.
  - rewrite Hnone. cbn. eauto.
  - destruct IH as [e ->]; [done|].
    destruct (d !! Song_codec.normal_path_to_traktor_path (song_path song'));
      cbn; eauto.
Qed.

Lemma read_traktor_playlist_children (d : gmap string Song) (uuid : string)
    (playlist : Playlist) :
  collect (TraktorParser.read_entries d)
    (children (TraktorParser.playlist_node uuid playlist))
  = collect (λ entry, collect (TraktorParser.read_primarykey d)
                        (children entry))
      (traktor_entry_node <$> playlist_songs playlist).
Proof.
  rewrite traktor_playlist_node_closed_form. cbn [children collect].
  unfold TraktorParser.read_entries at 1. unfold ET.get.
  cbn [attrib ET.dict_get String.eqb Ascii.eqb Bool.eqb of_option result_bind
       children].
  by destruct (collect _ _); cbn; rewrite ?app_nil_r.
Qed.

(** X5. The Traktor traversal reads the node that [add_playlist_to_tree] built
    for a playlist as the playlist of the same name, with the songs that
    the dict of the collection holds under the token paths of its songs, in
    order; the playlist itself, when those are its own songs.  When one of
    the token paths is not a key of the collection, it raises and adds
    nothing. *)
Theorem traktor_node_read_back (uuid : string) (playlist : Playlist)
    (s : Parser) (l : TraktorParser.locals) :
  (∀ found,
     Forall2 (λ song x,
                TraktorParser.songs_dict l
                  !! Song_codec.normal_path_to_traktor_path (song_path song)
                = Some x) (playlist_songs playlist) found →
     TraktorParser.read_playlist (TraktorParser.playlist_node uuid playlist)
       (s, l)
     = (Ok tt,
        (set_playlists
           (playlists s ++ [mkPlaylist (playlist_name playlist) found]) s,
         l)))
  ∧ (∀ song,
       song ∈ playlist_songs playlist →
       TraktorParser.songs_dict l
         !! Song_codec.normal_path_to_traktor_path (song_path song) = None →
       ∃ e, TraktorParser.read_playlist
              (TraktorParser.playlist_node uuid playlist) (s, l)
            = (Raise e, (s, l))).
Proof.
  assert (ET.get "NAME" (TraktorParser.playlist_node uuid playlist)
          = Ok (playlist_name playlist)) as Hname by reflexivity.
  split.
  - intros found Hfound.
    unfold TraktorParser.read_playlist, bind, lift, gets, on_self, modify.
    rewrite Hname. cbn [fst snd].
    rewrite read_traktor_playlist_children.
    by rewrite (collect_traktor_entries _ _ _ Hfound).
  - intros song Hin Hnone.
    destruct (collect_traktor_entries_missing _ _ _ Hin Hnone) as [e He].
    exists e.
    unfold TraktorParser.read_playlist, bind, lift, gets, on_self, modify.
    rewrite Hname. cbn [fst snd].
    by rewrite read_traktor_playlist_children, He.
Qed.

Lemma traktor_node_read_back_witness :
  TraktorParser.read_playlist
    (TraktorParser.playlist_node "c0ffee" Sample.house)
    (self Sample.traktor_world,
     TraktorParser.mkLocals
       (<["C:/:M/:a.mp3" := Sample.song_a]>
          (<["C:/:M/:b.mp3" := Sample.song_b]> ∅)) None)
  = (Ok tt,
     (set_playlists
        (playlists (self Sample.traktor_world) ++ [Sample.house])
        (self Sample.traktor_world),
      TraktorParser.mkLocals
        (<["C:/:M/:a.mp3" := Sample.song_a]>
           (<["C:/:M/:b.mp3" := Sample.song_b]> ∅)) None)).
Proof.
  apply (traktor_node_read_back "c0ffee" Sample.house
           (self Sample.traktor_world)
           (TraktorParser.mkLocals
              (<["C:/:M/:a.mp3" := Sample.song_a]>
                 (<["C:/:M/:b.mp3" := Sample.song_b]> ∅)) None)).
  repeat constructor; vm_compute; reflexivity.
Defined.

Lemma collect_track_keys (ids : list string) :
  collect (λ song, let? k := ET.get "Key" song in Ok [k])
    (recordbox_track_node <$> ids) = Ok ids.
Proof.
  induction ids as [|id ids IH]; [done|].
  rewrite fmap_cons. cbn [collect]. by rewrite IH.
Qed.

Lemma collect_lookups (d : gmap string Song) (ids : list string)
    (found : list Song) :
  Forall2 (λ id x, d !! id = Some x) ids found →
  collect (λ id, let? s := of_option (KeyError id) (d !! id) in Ok [s]) ids
  = Ok found.
Proof.
  induction 1 as [|id x ids found Hx _ IH]; [done|].
  cbn [collect]. by rewrite IH, Hx.
Qed.

(** X6. The RecordBox traversal reads the node that [add_playlist_to_tree]
    built for a playlist as the playlist of the same name, with the songs
    that the dict of the collection holds under the ids written, in order:
    the RecordBox counterparts of the songs of the playlist. *)
Theorem recordbox_node_read_back (s : Parser) (playlist : Playlist)
    (node : Element) (ids : list string) (found : list Song)
    (st : Parser) (d : gmap string Song) :
  recordbox_node s playlist = Ok node →
  Forall2 (λ song id, result_bind (resolve s song) song_id = Ok id)
    (playlist_songs playlist) ids →
  Forall2 (λ id x, d !! id = Some x) ids found →
  RecordBoxParser.read_playlist node (st, d)
  = (Ok tt,
     (set_playlists (playlists st ++ [mkPlaylist (playlist_name playlist) found])
        st,
      d)).
Proof.
  intros (ids' & Hids' & ->)%recordbox_node_closed_form Hids Hfound.
  assert (ids' = ids) as ->.
  { clear Hfound. revert ids Hids.
    induction Hids' as [|song id' songs ids' Hid' _ IH]; intros ids Hids.
    - by apply Forall2_nil_inv_l in Hids.
    - apply Forall2_cons_inv_l in Hids as (id & ids0 & Hid & Hids & ->).
      rewrite Hid' in Hid. injection Hid as ->. f_equal. by apply IH. }
  unfold RecordBoxParser.read_playlist, bind, lift, gets, on_self, modify.
  cbn [children]. rewrite collect_track_keys. cbn [snd fst].
  by rewrite (collect_lookups _ _ _ Hfound).
Qed.

Lemma recordbox_node_read_back_witness :
  ∃ node,
    recordbox_node (self Sample.recordbox_world) Sample.house = Ok node
    ∧ RecordBoxParser.read_playlist node
        (self Sample.recordbox_world,
         list_to_map (zip ["1"; "2"] (songs (self Sample.recordbox_world))))
      = (Ok tt,
         (set_playlists
            (playlists (self Sample.recordbox_world)
             ++ [mkPlaylist "House" (songs (self Sample.recordbox_world))])
            (self Sample.recordbox_world),
          list_to_map (zip ["1"; "2"] (songs (self Sample.recordbox_world))))).
Proof.
  eexists. split; [vm_compute; reflexivity|].
  apply (recordbox_node_read_back (self Sample.recordbox_world) Sample.house
           _ ["1"; "2"]).
  - vm_compute. reflexivity.
  - repeat constructor.
  - repeat constructor.
Defined.

(** ** The collection after a traversal *)

Section Reading_facts.
Context {L : Type} (made : Song → Prop) (dict : L → gmap string Song)
  (keyed : string → Song → Prop).

Lemma reading_on_handles (f : Parser → Parser) (s : Parser * L) :
  (∀ p, songs (f p) = songs p) → (∀ p, playlists (f p) = playlists p) →
  reading made dict keyed s → reading made dict keyed (f (fst s), snd s).
Proof.
  intros Hsongs Hplaylists (Hmade & Hwithin & Hdict).
  unfold reading, playlists_within. cbn [fst snd].
  rewrite Hsongs, Hplaylists. done.
Qed.

(** A song joins the collection, and the dict under its key. *)
Lemma reading_add_song (song : Song) (k : string) (d' : L) (s : Parser * L) :
  made song → keyed k song → dict d' = <[k := song]> (dict (snd s)) →
  reading made dict keyed s →
  reading made dict keyed (set_songs (songs (fst s) ++ [song]) (fst s), d').
Proof.
  intros Hsong Hkey Hd' (Hmade & Hwithin & Hdict).
  unfold reading, playlists_within. cbn [fst snd songs set_songs playlists].
  split; [|split].
  - apply Forall_app. split; [done|by constructor].
  - intros pl Hpl x Hx. apply elem_of_app. left. by eapply Hwithin.
  - intros k' v. rewrite Hd'. destruct (decide (k = k')) as [<-|Hne].
    + rewrite lookup_insert_eq. intros [= <-]. split; [|done].
      apply elem_of_app. right. by left.
    + rewrite lookup_insert_ne by done. intros Hv.
      destruct (Hdict k' v Hv) as [Hin Hk]. split; [|done].
      apply elem_of_app. by left.
Qed.

(** A playlist of songs taken from the dict joins the playlists. *)
Lemma reading_add_playlist (name : string) (found : list Song)
    (s : Parser * L) :
  (∀ x, x ∈ found → ∃ k, dict (snd s) !! k = Some x) →
  reading made dict keyed s →
  reading made dict keyed
    (set_playlists (playlists (fst s) ++ [mkPlaylist name found]) (fst s),
     snd s).
Proof.
  intros Hfound (Hmade & Hwithin & Hdict).
  unfold reading, playlists_within. cbn [fst snd songs set_playlists playlists].
  split; [done|]. split; [|done].
  intros pl [Hpl|Hpl%list_elem_of_singleton]%elem_of_app x Hx.
  - by eapply Hwithin.
  - subst pl. cbn in Hx. destruct (Hfound x Hx) as [k Hk].
    by apply (Hdict k x).
Qed.

End Reading_facts.

Lemma collect_elem_of {A B} (f : A → result (list B)) (l : list A)
    (r : list B) (P : B → Prop) :
  (∀ x ys, x ∈ l → f x = Ok ys → Forall P ys) →
  collect f l = Ok r → Forall P r.
Proof.
  revert r. induction l as [|x l IH]; intros r Hf; cbn [collect].
  - by intros [= <-].
  - unfold result_bind. destruct (f x) as [ys|] eqn:Hx; [|done].
    destruct (collect f l) as [zs|] eqn:Hl; [|done]. intros [= <-].
    apply Forall_app. split.
    + eapply Hf; [by left|done].
    + apply IH; [|done]. intros y ys' Hy. apply Hf. by right.
Qed.

Lemma read_primarykey_found (d : gmap string Song) (pk : Element)
    (ys : list Song) :
  TraktorParser.read_primarykey d pk = Ok ys →
  Forall (λ x, ∃ k, d !! k = Some x) ys.
Proof.
  unfold TraktorParser.read_primarykey, result_bind.
  destruct (ET.get "KEY" pk) as [k|]; [|done].
  destruct (d !! k) as [x|] eqn:Hx; [|done]. intros [= <-].
  repeat constructor. eauto.
Qed.

Lemma read_entries_found (d : gmap string Song) (nodes : list Element)
    (found : list Song) :
  collect (TraktorParser.read_entries d) nodes = Ok found →
  Forall (λ x, ∃ k, d !! k = Some x) found.
Proof.
  apply collect_elem_of. intros playlist ys _.
  unfold TraktorParser.read_entries, result_bind.
  destruct (ET.get "ENTRIES" playlist); [|done].
  apply collect_elem_of. intros entry ys' _.
  apply collect_elem_of. intros pk ys'' _. apply read_primarykey_found.
Qed.

Local Abbreviation traktor_reading :=
  (reading traktor_made TraktorParser.songs_dict traktor_keyed).

Lemma traktor_read_song_reading song s r s' :
  traktor_reading s → TraktorParser.read_song song s = (r, s') →
  traktor_reading s'.
Proof.
  intros Hs. unfold TraktorParser.read_song. intros H.
  run_inv H; [|by apply lift_inv in H as [_ ->]].
  apply lift_inv in Hstep as [_ ->].
  assert (∀ r1 s1, for_each (children song) TraktorParser.read_location s
                   = (r1, s1) → traktor_reading s1) as Hloop.
  { intros r1 s1. apply (for_each_invariant traktor_reading); [|done].
    intros elmt s2 r2 s3 _ Hs2. unfold TraktorParser.read_location.
    destruct (String.eqb (tag elmt) "LOCATION"); intros Hl; run_steps;
      by destruct s2. }
  run_inv H; [|by eapply Hloop].
  apply Hloop in Hstep. run_steps; try done.
  apply (reading_add_song _ _ _ (new_TraktorSong a a2) a2); try done.
Qed.

Lemma traktor_read_playlist_reading node s r s' :
  traktor_reading s → TraktorParser.read_playlist node s = (r, s') →
  traktor_reading s'.
Proof.
  intros Hs. unfold TraktorParser.read_playlist. intros H.
  run_steps; try done.
  apply reading_add_playlist; [|done].
  match goal with
  | Hc : Ok _ = collect _ _ |- _ =>
      symmetry in Hc; apply read_entries_found in Hc;
      rewrite Forall_forall in Hc; exact Hc
  end.
Qed.

Lemma traktor_read_root_child_reading ic s r s' :
  traktor_reading s → TraktorParser.read_root_child ic s = (r, s') →
  traktor_reading s'.
Proof.
  destruct ic as [i child]. intros Hs. unfold TraktorParser.read_root_child.
  intros H.
  assert (∀ r1 s1,
    (if String.eqb (tag child) "COLLECTION"
     then bind (on_self (set_songs_tree (Some [i])))
            (λ _, for_each (children child) TraktorParser.read_song)
     else ret tt) s = (r1, s1) → traktor_reading s1) as Hfirst.
  { intros r1 s1. destruct (String.eqb (tag child) "COLLECTION").
    - intros H1. run_inv H1; [|by apply on_self_inv in H1 as [? _]].
      apply on_self_inv in Hstep as [_ ->]. revert H1.
      apply (for_each_invariant traktor_reading).
      + intros ??????. by eapply traktor_read_song_reading.
      + by apply (reading_on_handles _ _ _ (set_songs_tree (Some [i]))).
    - by intros [_ ->]%ret_inv. }
  run_inv H; [|by eapply Hfirst]. apply Hfirst in Hstep.
  destruct (String.eqb (tag child) "PLAYLISTS");
    [|by apply ret_inv in H as [_ ->]].
  revert H. apply (for_each_invariant traktor_reading); [|done].
  intros [j node] s1 r1 s2 _ Hs1.
  apply (for_each_invariant traktor_reading); [|done].
  intros [k subnodes] s3 r3 s4 _ Hs3 H3.
  run_inv H3; [|by apply on_self_inv in H3 as [? _]].
  apply on_self_inv in Hstep0 as [_ ->]. revert H3.
  apply (for_each_invariant traktor_reading).
  - intros ??????. by eapply traktor_read_playlist_reading.
  - by apply (reading_on_handles _ _ _ (set_playlists_tree (Some [i; j; k]))).
Qed.

(** The Traktor traversal resets the collection, so this holds whatever
    the state before and however the traversal ends. *)
Lemma traktor_traversal_reading (w : World) (r : result unit) (w' : World) :
  TraktorParser.get_songs_and_playlists w = (r, w') →
  Forall traktor_made (songs (self w')) ∧ playlists_within (self w').
Proof.
  unfold TraktorParser.get_songs_and_playlists, with_locals.
  destruct (bind _ _ _) as [r1 [p l]] eqn:H. intros [= -> <-].
  cbn [self set_self].
  run_inv H; [|by apply gets_inv in H as [? _]].
  apply gets_inv in Hstep as [[= ->] ->].
  run_inv H; [|by apply on_self_inv in H as [? _]].
  apply on_self_inv in Hstep as [_ ->].
  run_inv H; [|by apply on_self_inv in H as [? _]].
  apply on_self_inv in Hstep as [_ ->].
  apply (for_each_invariant traktor_reading) in H.
  - destruct H as (Hmade & Hwithin & _). done.
  - intros ??????. by eapply traktor_read_root_child_reading.
  - split; [constructor|]. split.
    + intros pl Hpl. by apply elem_of_nil in Hpl.
    + intros k v Hv. cbn in Hv. by rewrite lookup_empty in Hv.
Qed.

Section RecordBox_reading.
Variable unquote : string → string.
Variable int : string → option Z.

Local Abbreviation recordbox_reading :=
  (reading (recordbox_made unquote) (λ d : gmap string Song, d) recordbox_keyed).

Lemma recordbox_read_song_reading ch s r s' :
  recordbox_reading s → RecordBoxParser.read_song unquote int ch s = (r, s') →
  recordbox_reading s'.
Proof.
  intros Hs. unfold RecordBoxParser.read_song. intros H.
  run_steps; try done.
  match goal with
  | |- reading _ _ _ (_, <[?id := new_RecordSong _ _ ?name ?loc ?size]> _) =>
      apply (reading_add_song _ _ _ (new_RecordSong unquote id name loc size) id)
  end; done.
Qed.

Lemma recordbox_read_playlist_reading playlist s r s' :
  recordbox_reading s → RecordBoxParser.read_playlist playlist s = (r, s') →
  recordbox_reading s'.
Proof.
  intros Hs. unfold RecordBoxParser.read_playlist. intros H.
  run_steps; try done.
  apply reading_add_playlist; [|done].
  match goal with
  | Hc : Ok ?found = _ |- ∀ x, x ∈ ?found → _ =>
      symmetry in Hc;
      apply (collect_elem_of _ _ _ (λ x, ∃ k, s.2 !! k = Some x)) in Hc;
      [rewrite Forall_forall in Hc; exact Hc|]
  end.
  intros id ys _. unfold result_bind.
  destruct (s.2 !! id) as [x|] eqn:Hx; [|done]. intros [= <-].
  repeat constructor. eauto.
Qed.

Lemma recordbox_read_root_child_reading ic s r s' :
  recordbox_reading s →
  RecordBoxParser.read_root_child unquote int ic s = (r, s') →
  recordbox_reading s'.
Proof.
  destruct ic as [i child]. intros Hs. unfold RecordBoxParser.read_root_child.
  intros H.
  assert (∀ r1 s1,
    (if String.eqb (tag child) "COLLECTION"
     then bind (on_self (set_songs_tree (Some [i])))
            (λ _, for_each (children child)
                    (RecordBoxParser.read_song unquote int))
     else ret tt) s = (r1, s1) → recordbox_reading s1) as Hfirst.
  { intros r1 s1. destruct (String.eqb (tag child) "COLLECTION").
    - intros H1. run_inv H1; [|by apply on_self_inv in H1 as [? _]].
      apply on_self_inv in Hstep as [_ ->]. revert H1.
      apply (for_each_invariant recordbox_reading).
      + intros ??????. by eapply recordbox_read_song_reading.
      + by apply (reading_on_handles _ _ _ (set_songs_tree (Some [i]))).
    - by intros [_ ->]%ret_inv. }
  run_inv H; [|by eapply Hfirst]. apply Hfirst in Hstep.
  destruct (String.eqb (tag child) "PLAYLISTS");
    [|by apply ret_inv in H as [_ ->]].
  revert H. apply (for_each_invariant recordbox_reading); [|done].
  intros [j node_root] s1 r1 s2 _ Hs1 H1.
  run_inv H1; [|by apply on_self_inv in H1 as [? _]].
  apply on_self_inv in Hstep0 as [_ ->]. revert H1.
  apply (for_each_invariant recordbox_reading).
  - intros ??????. by eapply recordbox_read_playlist_reading.
  - by apply (reading_on_handles _ _ _ (set_playlists_tree (Some [i; j]))).
Qed.

Lemma recordbox_traversal_reading w r w' :
  Forall (recordbox_made unquote) (songs (self w)) →
  playlists_within (self w) →
  RecordBoxParser.get_songs_and_playlists unquote int w = (r, w') →
  Forall (recordbox_made unquote) (songs (self w'))
  ∧ playlists_within (self w').
Proof.
  intros Hmade Hwithin.
  unfold RecordBoxParser.get_songs_and_playlists, with_locals.
  destruct (bind _ _ _) as [r1 [p l]] eqn:H. intros [= -> <-].
  cbn [self set_self].
  run_inv H; [|by apply gets_inv in H as [? _]].
  apply gets_inv in Hstep as [[= ->] ->].
  apply (for_each_invariant recordbox_reading) in H.
  - destruct H as (? & ? & _). done.
  - intros ??????. by eapply recordbox_read_root_child_reading.
  - split; [done|]. split; [done|].
    intros k v Hv. cbn in Hv. by rewrite lookup_empty in Hv.
Qed.

End RecordBox_reading.

(** X7. A parser built from a document holds a closed collection: in the
    Traktor dialect its songs are [TraktorSong]s with the decoded path, in
    the RecordBox dialect [RecordSong]s with an id, a size, the decoded path
    and its last component; in both, every song of every playlist is one of
    the songs of the collection. *)
Theorem parsed_collection_closed (unquote : string → string)
    (int : string → option Z) (path : string) (doc : Element) (verbose : bool)
    (w w' : World) :
  (TraktorParser.init path doc verbose w = (Ok tt, w') →
   Forall traktor_made (songs (self w')) ∧ playlists_within (self w'))
  ∧ (RecordBoxParser.init unquote int path doc verbose w = (Ok tt, w') →
     Forall (recordbox_made unquote) (songs (self w'))
     ∧ playlists_within (self w')).
Proof.
  split.
  - unfold TraktorParser.init, Parser_.init. intros H. run_inv H.
    by eapply traktor_traversal_reading.
  - unfold RecordBoxParser.init, Parser_.init. intros H. run_inv H.
    apply modify_inv in Hstep as [_ ->].
    eapply recordbox_traversal_reading; [| |exact H].
    + constructor.
    + intros pl Hpl. by apply elem_of_nil in Hpl.
Qed.

Lemma parsed_collection_closed_witness :
  playlists_within (self Sample.recordbox_world)
  ∧ playlists_within (self Sample.traktor_world).
Proof.
  split.
  - destruct (parsed_collection_closed Sample.unquote Sample.int
                "recordbox.xml" (Sample.recordbox_doc Sample.both_tracks) true
                Sample.blank Sample.recordbox_world) as [_ H].
    apply H. vm_compute. reflexivity.
  - destruct (parsed_collection_closed Sample.unquote Sample.int
                "collection.nml" Sample.traktor_doc true Sample.blank
                Sample.traktor_world) as [H _].
    apply H. vm_compute. reflexivity.
Defined.

(** ** When an insertion succeeds *)

Lemma add_tracks_ok_iff (s : Parser) (songs : list Song) (node : Element) :
  (∃ node', RecordBoxParser.add_tracks s node songs = Ok node') ↔
  Forall (λ song, ∃ id, result_bind (resolve s song) song_id = Ok id) songs.
Proof.
  split.
  - intros (node' & (ids & Hall & _)%add_tracks_resolve).
    induction Hall; constructor; eauto.
  - intros Hall.
    assert (∃ ids, Forall2 (λ song id,
                              result_bind (resolve s song) song_id = Ok id)
                     songs ids) as [ids Hids].
    { induction Hall as [|song songs [id Hid] _ [ids IH]].
      - exists []. constructor.
      - exists (id :: ids). by constructor. }
    eexists. apply add_tracks_resolve. eauto.
Qed.

(** In a collection of [RecordSong]s, a song of a playlist gets an id
    exactly when it is not a [TraktorSong] without counterpart. *)
Lemma resolve_id_iff (s : Parser) (song : Song) :
  Forall (λ x, is_TraktorSong x = false) (songs s) →
  (∃ id, result_bind (resolve s song) song_id = Ok id) ↔
  (is_TraktorSong song = true →
   ∃ x, x ∈ songs s ∧ song_path x = song_path song).
Proof.
  intros Hrecord. unfold resolve. destruct (is_TraktorSong song) eqn:Hsong.
  - split.
    + intros [id Hid] _.
      destruct (Exporter.convert_traktor_song_to_recordbox song s) as [x|]
        eqn:Hx; [|done].
      apply convert_ok_iff in Hx as (l1 & l2 & Hs & Hp & _).
      exists x. split; [|done]. rewrite Hs. apply elem_of_app. right. by left.
    + intros Hmatch. destruct (Hmatch eq_refl) as (x & Hin & Hp).
      destruct (Exporter.convert_traktor_song_to_recordbox song s) as [y|e]
        eqn:Hy.
      * apply convert_ok_iff in Hy as (l1 & l2 & Hs & _ & _).
        assert (y ∈ songs s) as Hyin.
        { rewrite Hs. apply elem_of_app. right. by left. }
        rewrite Forall_forall in Hrecord. apply Hrecord in Hyin.
        destruct y; [cbn; eauto|done].
      * exfalso. assert (∃ e, Exporter.convert_traktor_song_to_recordbox song s
                              = Raise e) as Hraise by eauto.
        apply convert_raise_iff in Hraise. rewrite Forall_forall in Hraise.
        by apply (Hraise x Hin).
  - split; [done|]. intros _. destruct song; [cbn; eauto|done].
Qed.

(** X8. [TraktorParser.add_playlist_to_tree] succeeds exactly when the parser
    has its playlists fragment and the index it inserts at (the ceiling, or
    the index given when that is not above it) fits a C [ssize_t], whatever
    the playlist and its songs; when it raises, the parser is as it was.
    On a collection of [RecordSong]s, [RecordBoxParser.add_playlist_to_tree]
    succeeds exactly when the parser has its playlists fragment, the index
    it inserts at (the one given, or the number of children of the
    fragment) fits a C [ssize_t], and every [TraktorSong] of the playlist
    has a song of the same path in the collection. *)
Theorem add_playlist_succeeds_iff (playlist : Playlist) (index : option Z)
    (w : World) :
  ((∃ w', TraktorParser.add_playlist_to_tree playlist index w = (Ok tt, w'))
   ↔ is_Some (playlists_fragment (self w))
     ∧ fits_ssize_t (traktor_index (traktor_max_index (self w)) index))
  ∧ (∀ e w', TraktorParser.add_playlist_to_tree playlist index w = (Raise e, w') →
             self w' = self w)
  ∧ (Forall (λ x, is_TraktorSong x = false) (songs (self w)) →
     (∃ w', RecordBoxParser.add_playlist_to_tree playlist index w = (Ok tt, w'))
     ↔ is_Some (playlists_fragment (self w))
       ∧ fits_ssize_t (recordbox_index (self w) index)
       ∧ ∀ song, song ∈ playlist_songs playlist → is_TraktorSong song = true →
                 ∃ x, x ∈ songs (self w) ∧ song_path x = song_path song).
Proof.
  split; [|split].
  - split.
    + intros (w' & [(h & frag & Hh & Hd & Hfits & _)|(e & [=] & _)]
                     %traktor_add_cases).
      split; [|done]. unfold playlists_fragment. rewrite Hh. eauto.
    + intros [[frag Hf] Hfits]. unfold playlists_fragment in Hf.
      destruct (playlists_tree (self w)) as [h|] eqn:Hh; [|done].
      eexists. rewrite (traktor_add_run _ _ _ h frag) by done.
      by rewrite as_ssize_t_fits.
  - by intros e w' [(h & frag & _ & _ & _ & [=] & _)|(e' & _ & ->)]
                    %traktor_add_cases.
  - intros Hrecord. split.
    + intros (w' & [(h & frag & node & Hh & Hd & Hn & Hfits & _)|(e & [=] & _)]
                     %recordbox_add_cases).
      split; [unfold playlists_fragment; rewrite Hh; eauto|].
      split; [done|].
      intros song Hin Hsong.
      assert (∃ node', RecordBoxParser.add_tracks (self w)
                         (RecordBoxParser.playlist_header playlist)
                         (playlist_songs playlist) = Ok node') as Hok by eauto.
      apply add_tracks_ok_iff in Hok. rewrite Forall_forall in Hok.
      by apply (proj1 (resolve_id_iff _ song Hrecord) (Hok song Hin)).
    + intros ([frag Hf] & Hfits & Hmatch). unfold playlists_fragment in Hf.
      destruct (playlists_tree (self w)) as [h|] eqn:Hh; [|done].
      destruct (proj2 (add_tracks_ok_iff (self w) (playlist_songs playlist)
                         (RecordBoxParser.playlist_header playlist)))
        as [node Hnode].
      { apply Forall_forall. intros song Hin.
        apply (resolve_id_iff _ _ Hrecord). by apply Hmatch. }
      eexists. rewrite (recordbox_add_run _ _ _ h frag node) by done.
      by rewrite as_ssize_t_fits.
Qed.

Lemma add_playlist_succeeds_iff_witness :
  ∃ w', RecordBoxParser.add_playlist_to_tree Sample.house None
          Sample.recordbox_world = (Ok tt, w').
Proof.
  destruct (add_playlist_succeeds_iff Sample.house None Sample.recordbox_world)
    as (_ & _ & H).
  apply H.
  - repeat constructor.
  - split; [vm_compute; eauto|]. split; [vm_compute; split; discriminate|].
    intros song Hin _.
    apply elem_of_cons in Hin as [->|Hin].
    + eexists. split; [by left|reflexivity].
    + apply list_elem_of_singleton in Hin as ->.
      eexists. split; [right; by left|reflexivity].
Defined.

(** ** A transfer cut short *)

(** A loop that raises did so in one iteration, after running those before
    it to their end. *)
Lemma for_each_raise {St A} (body : A → SE St unit) (l : list A) s e s' :
  for_each l body s = (Raise e, s') →
  ∃ l1 x l2 s1,
    l = l1 ++ x :: l2
    ∧ for_each l1 body s = (Ok tt, s1)
    ∧ body x s1 = (Raise e, s').
Proof.
  revert s. induction l as [|x l IH]; intros s; [done|].
  intros [(e' & Hx & [= ->])|(s1 & Hx & Hl)]%for_each_cons_ok.
  - exists [], x, l, s. done.
  - destruct (IH _ Hl) as (l1 & y & l2 & s2 & -> & Hl1 & Hy).
    exists (x :: l1), y, l2, s2. split; [done|]. split; [|done].
    cbn. unfold bind. by rewrite Hx.
Qed.

Lemma recordbox_appends_in_order_nodes (unquote : string → string)
    (int : string → option Z) (given : list Playlist) (w w' : World) :
  RecordBoxParser.add_playlists_to_tree unquote int given w = (Ok tt, w') →
  ∃ nodes,
    Forall2 (λ playlist node, recordbox_node (self w) playlist = Ok node)
      given nodes
    ∧ playlist_nodes (self w') = playlist_nodes (self w) ++ nodes.
Proof.
  unfold RecordBoxParser.add_playlists_to_tree, Parser_.add_playlists_to_tree.
  cbn [add_playlist_to_tree RecordBoxParser.class].
  revert w. induction given as [|playlist given IH]; intros w.
  - cbn. intros [= <-]. exists []. rewrite app_nil_r. by split.
  - intros [(e & _ & [=])|(w1 & Hfirst & Hrest)]%for_each_cons_ok.
    apply recordbox_add_none in Hfirst as (node & Hn & Hnodes & Hsongs & _).
    apply IH in Hrest as (nodes & Hall & Hnodes').
    exists (node :: nodes). split.
    + constructor; [done|]. eapply Forall2_impl; [exact Hall|].
      intros p n. unfold recordbox_node.
      by rewrite (add_tracks_songs (self w1) (self w)).
    + by rewrite Hnodes', Hnodes, <- app_assoc.
Qed.

(** X9. When [add_playlists_to_tree] raises in the RecordBox dialect, it does
    so on one playlist of the given ones, with the exception that inserting
    this playlist raises.  The playlists before it have been inserted and
    stay so, this one and those after it have not: the world is the one
    after inserting the first ones, with their nodes at the end of the tree
    fragment. *)
Theorem recordbox_transfer_cut_short (unquote : string → string)
    (int : string → option Z) (given : list Playlist) (w : World) (e : exn)
    (w' : World) :
  RecordBoxParser.add_playlists_to_tree unquote int given w = (Raise e, w') →
  ∃ inserted failing rest nodes,
    given = inserted ++ failing :: rest
    ∧ RecordBoxParser.add_playlists_to_tree unquote int inserted w = (Ok tt, w')
    ∧ RecordBoxParser.add_playlist_to_tree failing None w' = (Raise e, w')
    ∧ Forall2 (λ playlist node, recordbox_node (self w) playlist = Ok node)
        inserted nodes
    ∧ playlist_nodes (self w') = playlist_nodes (self w) ++ nodes.
Proof.
  intros Hrun.
  assert (∃ inserted failing rest w1,
            given = inserted ++ failing :: rest
            ∧ RecordBoxParser.add_playlists_to_tree unquote int inserted w
              = (Ok tt, w1)
            ∧ RecordBoxParser.add_playlist_to_tree failing None w1
              = (Raise e, w'))
    as (inserted & failing & rest & w1 & Hgiven & Hins & Hfail).
  { apply for_each_raise in Hrun as (l1 & x & l2 & s1 & ? & ? & ?).
    exists l1, x, l2, s1. done. }
  pose proof (recordbox_add_raise _ _ _ _ _ Hfail) as ->.
  destruct (recordbox_appends_in_order_nodes unquote int inserted w w1 Hins)
    as (nodes & Hall & Hnodes).
  exists inserted, failing, rest, nodes. done.
Qed.

Lemma recordbox_transfer_cut_short_witness :
  ∃ inserted failing rest nodes,
    [mkPlaylist "Opening" [Sample.song_a]; Sample.house; Sample.techno]
    = inserted ++ failing :: rest
    ∧ playlist_nodes
        (self (snd (RecordBoxParser.add_playlists_to_tree Sample.unquote
                      Sample.int
                      [mkPlaylist "Opening" [Sample.song_a]; Sample.house;
                       Sample.techno]
                      Sample.recordbox_world_one_track)))
      = playlist_nodes (self Sample.recordbox_world_one_track) ++ nodes
    ∧ length nodes = length inserted.
Proof.
  destruct (recordbox_transfer_cut_short Sample.unquote Sample.int
              [mkPlaylist "Opening" [Sample.song_a]; Sample.house;
               Sample.techno]
              Sample.recordbox_world_one_track
              (Exception
                 "Traktor Song B doesn't exist in RecordBox Collection. Please add it to collection first")
              (snd (RecordBoxParser.add_playlists_to_tree Sample.unquote
                      Sample.int
                      [mkPlaylist "Opening" [Sample.song_a]; Sample.house;
                       Sample.techno]
                      Sample.recordbox_world_one_track)))
    as (inserted & failing & rest & nodes & Hgiven & _ & _ & Hall & Hnodes).
  - vm_compute. reflexivity.
  - exists inserted, failing, rest, nodes. split; [exact Hgiven|].
    split; [exact Hnodes|]. symmetry. exact (Forall2_length _ _ _ Hall).
Defined.

(** ** An entry without location *)

Lemma read_locations_absent (nodes : list Element)
    (s : Parser * TraktorParser.locals) :
  Forall (λ elmt, String.eqb (tag elmt) "LOCATION" = false) nodes →
  for_each nodes TraktorParser.read_location s = (Ok tt, s).
Proof.
  induction 1 as [|elmt nodes Hx _ IH]; [done|].
  cbn [for_each]. unfold bind, TraktorParser.read_location at 1.
  rewrite Hx. cbn. exact IH.
Qed.

(** X10. A song entry of a Traktor collection that has a [TITLE] and no
    [LOCATION] child is read with the location of the entry read before it,
    and takes its place in the dict of songs; when no entry with a location
    was read before, the traversal raises [UnboundLocalError].  An entry
    without [TITLE] raises [KeyError].  In both cases of failure nothing has
    been added. *)
Theorem traktor_entry_without_location (song : Element) (p : Parser)
    (l : TraktorParser.locals) :
  Forall (λ elmt, String.eqb (tag elmt) "LOCATION" = false) (children song) →
  TraktorParser.read_song song (p, l)
  = match ET.dict_get "TITLE" (attrib song), TraktorParser.traktor_path l with
    | None, _ => (Raise (KeyError "TITLE"), (p, l))
    | Some _, None => (Raise (UnboundLocalError "traktor_path"), (p, l))
    | Some name, Some previous =>
        (Ok tt,
         (set_songs (songs p ++ [new_TraktorSong name previous]) p,
          TraktorParser.mkLocals
            (<[previous := new_TraktorSong name previous]>
               (TraktorParser.songs_dict l))
            (Some previous)))
    end.
Proof.
  intros Hnone. unfold TraktorParser.read_song, bind, lift, ET.get.
  destruct (ET.dict_get "TITLE" (attrib song)) as [name|]; cbn [of_option];
    [|done].
  rewrite (read_locations_absent _ _ Hnone). cbn [gets fst snd].
  destruct l as [d [previous|]]; cbn; done.
Qed.

Lemma traktor_entry_without_location_witness :
  TraktorParser.read_song (Sample.elem "ENTRY" [("TITLE", "C")] [])
    (self Sample.traktor_world,
     TraktorParser.mkLocals ∅ (Some "C:/:M/:b.mp3"))
  = (Ok tt,
     (set_songs (songs (self Sample.traktor_world)
                 ++ [new_TraktorSong "C" "C:/:M/:b.mp3"])
        (self Sample.traktor_world),
      TraktorParser.mkLocals
        (<["C:/:M/:b.mp3" := new_TraktorSong "C" "C:/:M/:b.mp3"]> ∅)
        (Some "C:/:M/:b.mp3"))).
Proof.
  apply (traktor_entry_without_location
           (Sample.elem "ENTRY" [("TITLE", "C")] [])
           (self Sample.traktor_world)
           (TraktorParser.mkLocals ∅ (Some "C:/:M/:b.mp3"))).
  constructor.
Defined.

(** ** Saving twice *)

Lemma string_length_app (s1 s2 : string) :
  String.length (s1 +:+ s2) = String.length s1 + String.length s2.
Proof.
  induction s1 as [|c s1 IH]; [done|].
  rewrite string_app_cons. cbn. by rewrite IH.
Qed.

Lemma backup_path_differs (s : string) : s ≠ s +:+ ".bak".
Proof.
  intros H. apply (f_equal String.length) in H.
  rewrite string_length_app in H. cbn in H. lia.
Qed.

Lemma save_twice `{ParserClass} (options : write_options) (w w1 : World) :
  (∀ p, _save_tree p = tree_write p options) →
  Parser_.save_file None true w = (Ok tt, w1) →
  ∃ w2,
    Parser_.save_file None true w1 = (Ok tt, w2)
    ∧ self w2 = self w
    ∧ disk w2 !! file_path (self w)
      = Some (Serialized options (tree (self w)))
    ∧ disk w2 !! (file_path (self w) +:+ ".bak")
      = Some (Serialized options (tree (self w))).
Proof.
  intros Hsave Hrun.
  pose proof (save_file_answers options _ _ _ Hsave Hrun)
    as (Hbak & Hdest & Hfs).
  apply (save_file_run options) in Hrun as (f & Hf & Hdisk & Hself); [|done].
  cbn [default] in Hdisk, Hdest.
  rewrite (save_file_backup_run options) by done. cbv zeta.
  rewrite Hself, Hfs, Hbak. cbn [default]. rewrite Hdest.
  rewrite Hdisk, lookup_insert_eq.
  eexists. split; [reflexivity|]. cbn [self disk set_disk].
  split; [done|]. split.
  - by rewrite lookup_insert_eq.
  - rewrite lookup_insert_ne by apply backup_path_differs.
    by rewrite lookup_insert_eq.
Qed.

(** X11. After [save_file()] with its backup, a second [save_file()], which
    the file system answers as it did the first, succeeds too, and its
    backup overwrites the first: the file at the load path and the [.bak]
    file both hold the serialized tree, so the copy of what the load path
    held before the first save is gone. *)
Theorem save_file_twice_loses_original (unquote : string → string)
    (int : string → option Z) (w w1 : World) :
  (TraktorParser.save_file None true w = (Ok tt, w1) →
   ∃ w2,
     TraktorParser.save_file None true w1 = (Ok tt, w2)
     ∧ self w2 = self w
     ∧ disk w2 !! file_path (self w)
       = Some (Serialized traktor_options (tree (self w)))
     ∧ disk w2 !! (file_path (self w) +:+ ".bak")
       = Some (Serialized traktor_options (tree (self w))))
  ∧ (RecordBoxParser.save_file unquote int None true w = (Ok tt, w1) →
     ∃ w2,
       RecordBoxParser.save_file unquote int None true w1 = (Ok tt, w2)
       ∧ self w2 = self w
       ∧ disk w2 !! file_path (self w)
         = Some (Serialized recordbox_options (tree (self w)))
       ∧ disk w2 !! (file_path (self w) +:+ ".bak")
         = Some (Serialized recordbox_options (tree (self w)))).
Proof.
  split.
  - by apply save_twice.
  - by apply save_twice.
Qed.

Lemma save_file_twice_loses_original_witness :
  disk Sample.recordbox_on_disk !! "recordbox.xml" = Some (Bytes "library")
  ∧ ∃ w2,
      RecordBoxParser.save_file Sample.unquote Sample.int None true
        (snd (RecordBoxParser.save_file Sample.unquote Sample.int None true
                Sample.recordbox_on_disk))
      = (Ok tt, w2)
      ∧ disk w2 !! "recordbox.xml.bak"
        = Some (Serialized recordbox_options
                  (tree (self Sample.recordbox_on_disk))).
Proof.
  split; [vm_compute; reflexivity|].
  destruct (save_file_twice_loses_original Sample.unquote Sample.int
              Sample.recordbox_on_disk
              (snd (RecordBoxParser.save_file Sample.unquote Sample.int None
                      true Sample.recordbox_on_disk))) as [_ H].
  destruct H as (w2 & Hrun & _ & _ & Hbak).
  - vm_compute. reflexivity.
  - exists w2. split; [exact Hrun|exact Hbak].
Defined.

(** ** Printing the playlists of the tree *)

Lemma out_for_each_names (key : string) (rest : Element → Out unit)
    (nodes : list Element) (l : list Playlist) :
  (∀ node, rest node = ([], Ok tt)) →
  node_name key <$> nodes = (λ p, Some (playlist_name p)) <$> l →
  out_for_each nodes
    (λ playlist,
       out_bind ([], ET.get key playlist)
         (λ name, out_bind (print (Text name)) (λ _, rest playlist)))
  = ((λ p, Text (playlist_name p)) <$> l, Ok tt).
Proof.
  intros Hrest. revert l. induction nodes as [|node nodes IH]; intros [|p l];
    try done.
  rewrite !fmap_cons. intros [= Hnode Hnodes]. cbn [out_for_each].
  rewrite (IH l Hnodes). unfold ET.get. unfold node_name in Hnode.
  rewrite Hnode. cbn. by rewrite Hrest.
Qed.

(** X12. [get_playlists_from_tree()] of a parser in lock-step prints the
    names of its playlists, one for each, in the order of the sequence, and
    ends without an exception; on a parser without a playlists fragment it
    prints nothing and raises. *)
Theorem control_prints_playlist_names (s : Parser) :
  (is_Some (playlists_fragment s) → lockstep "NAME" s →
   TraktorControl.get_playlists_from_tree s false
   = ((λ p, Text (playlist_name p)) <$> playlists s, Ok tt))
  ∧ (is_Some (playlists_fragment s) → lockstep "Name" s →
     RecordBoxControl.get_playlists_from_tree s false
     = ((λ p, Text (playlist_name p)) <$> playlists s, Ok tt))
  ∧ (playlists_fragment s = None →
     ∃ e, TraktorControl.get_playlists_from_tree s false = ([], Raise e)
          ∧ RecordBoxControl.get_playlists_from_tree s false = ([], Raise e)).
Proof.
  unfold TraktorControl.get_playlists_from_tree,
    RecordBoxControl.get_playlists_from_tree, for_playlists_tree, lockstep,
    playlist_nodes.
  split; [|split].
  - intros [frag ->] Hlock. by apply out_for_each_names.
  - intros [frag ->] Hlock. by apply out_for_each_names.
  - intros ->. eauto.
Qed.

Lemma control_prints_playlist_names_witness :
  TraktorControl.get_playlists_from_tree (self Sample.traktor_world) false
  = ([Text "House"; Text "_LOOPS"; Text "_RECORDINGS"], Ok tt)
  ∧ RecordBoxControl.get_playlists_from_tree (self Sample_script.after) false
    = ([Text "Warmup"; Text "House"], Ok tt).
Proof.
  split.
  - destruct (control_prints_playlist_names (self Sample.traktor_world))
      as (H & _ & _).
    rewrite H; [reflexivity|vm_compute; eauto|vm_compute; reflexivity].
  - destruct (control_prints_playlist_names (self Sample_script.after))
      as (_ & H & _).
    rewrite H; [reflexivity|vm_compute; eauto|vm_compute; reflexivity].
Defined.

(** ** The script *)

Lemma slice_until_minus_two {A} (l : list A) :
  Main.slice_until (-2) l = take (length l - 2) l.
Proof.
  unfold Main.slice_until. cbn [Z.ltb Z.compare]. f_equal. lia.
Qed.

Lemma with_locals_disk {L A} (init : L) (c : SE (Parser * L) A) w r w' :
  with_locals init c w = (r, w') → disk w' = disk w.
Proof.
  unfold with_locals. destruct (c (self w, init)) as [r1 [p l]].
  by intros [= _ <-].
Qed.

Section Traversal_keeps.
Context {B : Type} (field : Parser → B).
Hypothesis keeps_songs_tree : ∀ h p, field (set_songs_tree h p) = field p.
Hypothesis keeps_playlists_tree :
  ∀ h p, field (set_playlists_tree h p) = field p.
Hypothesis keeps_songs : ∀ l p, field (set_songs l p) = field p.
Hypothesis keeps_playlists : ∀ l p, field (set_playlists l p) = field p.
Variable unquote : string → string.
Variable int : string → option Z.

Local Abbreviation kept b := (λ s : Parser * gmap string Song, field (fst s) = b).

Lemma recordbox_read_song_keeps b ch s r s' :
  kept b s → RecordBoxParser.read_song unquote int ch s = (r, s') → kept b s'.
Proof.
  intros Hs. unfold RecordBoxParser.read_song. intros H.
  run_steps; cbn; by rewrite ?keeps_songs.
Qed.

Lemma recordbox_read_playlist_keeps b playlist s r s' :
  kept b s → RecordBoxParser.read_playlist playlist s = (r, s') → kept b s'.
Proof.
  intros Hs. unfold RecordBoxParser.read_playlist. intros H.
  run_steps; cbn; by rewrite ?keeps_playlists.
Qed.

Lemma recordbox_read_root_child_keeps b ic s r s' :
  kept b s → RecordBoxParser.read_root_child unquote int ic s = (r, s') →
  kept b s'.
Proof.
  destruct ic as [i child]. intros Hs. unfold RecordBoxParser.read_root_child.
  intros H.
  assert (∀ r1 s1,
    (if String.eqb (tag child) "COLLECTION"
     then bind (on_self (set_songs_tree (Some [i])))
            (λ _, for_each (children child)
                    (RecordBoxParser.read_song unquote int))
     else ret tt) s = (r1, s1) → kept b s1) as Hfirst.
  { intros r1 s1. destruct (String.eqb (tag child) "COLLECTION").
    - intros H1. run_inv H1; [|by apply on_self_inv in H1 as [? _]].
      apply on_self_inv in Hstep as [_ ->]. revert H1.
      apply (for_each_invariant (kept b)).
      + intros ??????. by eapply recordbox_read_song_keeps.
      + cbn. by rewrite keeps_songs_tree.
    - by intros [_ ->]%ret_inv. }
  run_inv H; [|by eapply Hfirst]. apply Hfirst in Hstep.
  destruct (String.eqb (tag child) "PLAYLISTS");
    [|by apply ret_inv in H as [_ ->]].
  revert H. apply (for_each_invariant (kept b)); [|done].
  intros [j node_root] s1 r1 s2 _ Hs1 H1.
  run_inv H1; [|by apply on_self_inv in H1 as [? _]].
  match goal with
  | Hs : on_self _ _ = _ |- _ => apply on_self_inv in Hs as [_ ->]
  end.
  revert H1. apply (for_each_invariant (kept b)).
  - intros ??????. by eapply recordbox_read_playlist_keeps.
  - cbn. by rewrite keeps_playlists_tree.
Qed.

Lemma recordbox_traversal_keeps w r w' :
  RecordBoxParser.get_songs_and_playlists unquote int w = (r, w') →
  field (self w') = field (self w).
Proof.
  unfold RecordBoxParser.get_songs_and_playlists, with_locals.
  destruct (bind _ _ _) as [r1 [p l]] eqn:H. intros [= -> <-].
  cbn [self set_self].
  run_inv H; [|by apply gets_inv in H as [? _]].
  apply gets_inv in Hstep as [[= ->] ->].
  apply (for_each_invariant (kept (field (self w)))) in H; [done| |done].
  intros ??????. by eapply recordbox_read_root_child_keeps.
Qed.

End Traversal_keeps.

Lemma traktor_init_disk path doc verbose w r w' :
  TraktorParser.init path doc verbose w = (r, w') → disk w' = disk w.
Proof.
  unfold TraktorParser.init, Parser_.init. intros H.
  run_inv H; [|by apply modify_inv in H as [? _]].
  apply modify_inv in Hstep as [_ ->].
  by apply with_locals_disk in H.
Qed.

Lemma recordbox_init_disk unquote int path doc verbose w r w' :
  RecordBoxParser.init unquote int path doc verbose w = (r, w') →
  disk w' = disk w ∧ file_path (self w') = path.
Proof.
  unfold RecordBoxParser.init, Parser_.init. intros H.
  run_inv H; [|by apply modify_inv in H as [? _]].
  apply modify_inv in Hstep as [_ ->]. split.
  - by apply with_locals_disk in H.
  - by apply (recordbox_traversal_keeps file_path) in H.
Qed.

Lemma recordbox_add_all_disk unquote int given w r w' :
  RecordBoxParser.add_playlists_to_tree unquote int given w = (r, w') →
  disk w' = disk w ∧ file_path (self w') = file_path (self w).
Proof.
  unfold RecordBoxParser.add_playlists_to_tree, Parser_.add_playlists_to_tree.
  cbn [add_playlist_to_tree RecordBoxParser.class].
  apply (for_each_invariant
           (λ w1, disk w1 = disk w ∧ file_path (self w1) = file_path (self w)));
    [|done].
  intros playlist w1 [[]|e] w2 _ Hw1.
  - by intros (h & frag & node & _ & _ & _ & ->)%recordbox_add_inv.
  - by intros ->%recordbox_add_raise.
Qed.

Lemma recordbox_add_all_run unquote int given w w' :
  RecordBoxParser.add_playlists_to_tree unquote int given w = (Ok tt, w') →
  ∃ nodes,
    Forall2 (λ playlist node, recordbox_node (self w) playlist = Ok node)
      given nodes
    ∧ playlist_nodes (self w') = playlist_nodes (self w) ++ nodes
    ∧ songs (self w') = songs (self w)
    ∧ (length (playlist_nodes (self w)) = length (playlists (self w)) →
       playlists (self w') = playlists (self w) ++ given).
Proof.
  unfold RecordBoxParser.add_playlists_to_tree, Parser_.add_playlists_to_tree.
  cbn [add_playlist_to_tree RecordBoxParser.class].
  revert w. induction given as [|playlist given IH]; intros w.
  - cbn. intros [= <-]. exists []. rewrite !app_nil_r. by repeat split.
  - intros [(e & _ & [=])|(w1 & Hfirst & Hrest)]%for_each_cons_ok.
    apply recordbox_add_none in Hfirst as (node & Hn & Hnodes & Hsongs & Hpl).
    apply IH in Hrest as (nodes & Hall & Hnodes' & Hsongs' & Hpl').
    exists (node :: nodes). split; [|split; [|split]].
    + constructor; [done|]. eapply Forall2_impl; [exact Hall|].
      intros p n. unfold recordbox_node.
      by rewrite (add_tracks_songs (self w1) (self w)).
    + by rewrite Hnodes', Hnodes, <- app_assoc.
    + congruence.
    + intros Hlen. rewrite Hlen, insert_at_length in Hpl.
      rewrite Hpl', Hpl, <- ?app_assoc; [done|].
      by rewrite Hnodes, Hpl, !length_app, Hlen.
Qed.

(** The disk after the script, in each of the ways it can end. *)
Lemma main_disk_cases (unquote : string → string) (int : string → option Z)
    (traktor_doc recordbox_doc : Element) (w : World) (r : result unit)
    (w' : World) :
  Main.main unquote int traktor_doc recordbox_doc w = (r, w') →
  let collection := Main.RECORDBOX_COLLECTION_PATH in
  let backup := collection +:+ ".bak" in
  ((∃ e, r = Raise e) ∧ disk w' = disk w)
  ∨ ∃ f,
      disk w !! collection = Some f
      ∧ (((∃ e, r = Raise e) ∧ disk w' = <[backup := Partial]> (disk w))
         ∨ ((∃ e, r = Raise e) ∧ disk w' = <[backup := f]> (disk w))
         ∨ ((∃ e, r = Raise e)
            ∧ disk w' = <[collection := Partial]> (<[backup := f]> (disk w)))
         ∨ (r = Ok tt
            ∧ disk w'
              = <[collection := Serialized recordbox_options (tree (self w'))]>
                  (<[backup := f]> (disk w)))).
Proof.
  intros Hrun. cbv zeta. unfold Main.main in Hrun.
  apply bind_inv in Hrun as [(? & w1 & Hd1 & Hrun)|(e & Hrun & ->)];
    [|apply traktor_init_disk in Hrun; eauto].
  apply traktor_init_disk in Hd1.
  apply bind_inv in Hrun as [(? & ? & Hself & Hrun)|(e & Hrun & ->)];
    [|by apply gets_inv in Hrun as [? _]].
  apply gets_inv in Hself as [[= ->] ->].
  apply bind_inv in Hrun as [(? & w2 & Hd2 & Hrun)|(e & Hrun & ->)];
    [|apply recordbox_init_disk in Hrun as [Hd2 _]; left; split; [eauto|];
      congruence].
  apply recordbox_init_disk in Hd2 as [Hd2 Hp2].
  apply bind_inv in Hrun as [(? & w3 & Hd3 & Hrun)|(e & Hrun & ->)];
    [|apply recordbox_add_all_disk in Hrun as [Hd3 _]; left; split; [eauto|];
      congruence].
  apply recordbox_add_all_disk in Hd3 as [Hd3 Hp3].
  unfold RecordBoxParser.save_file in Hrun.
  rewrite (save_file_backup_run recordbox_options) in Hrun by done.
  cbv zeta in Hrun. cbn [default] in Hrun.
  rewrite Hp3, Hp2, Hd3, Hd2, Hd1 in Hrun.
  destruct (disk w !! Main.RECORDBOX_COLLECTION_PATH) as [f|] eqn:Hf.
  - destruct (fs_write w3 (Main.RECORDBOX_COLLECTION_PATH +:+ ".bak")).
    + destruct (fs_write w3 Main.RECORDBOX_COLLECTION_PATH);
        injection Hrun as <- <-; right; exists f; (split; [done|]);
        cbn [disk set_disk self]; eauto 10.
    + injection Hrun as <- <-. left. split; [eauto|]. congruence.
    + injection Hrun as <- <-. right. exists f. split; [done|].
      cbn [disk set_disk]. eauto 10.
  - injection Hrun as <- <-. left. split; [eauto|]. congruence.
Qed.

(** X13. What the script can leave on disk.  Only the RecordBox collection
    file and its [.bak] are ever written; the Traktor collection file is as
    it was.  When the script ends, the [.bak] holds what the collection file
    held and the collection file the serialized tree of the RecordBox
    parser.  When it raises, wherever it does, what the collection file held
    is still on disk: in the collection file itself, or, when the write of
    the tree failed after the file was opened, in its [.bak]. *)
Theorem main_disk_outcomes (unquote : string → string)
    (int : string → option Z) (traktor_doc recordbox_doc : Element)
    (w : World) (r : result unit) (w' : World) :
  Main.main unquote int traktor_doc recordbox_doc w = (r, w') →
  let collection := Main.RECORDBOX_COLLECTION_PATH in
  let backup := collection +:+ ".bak" in
  (∀ path, path ≠ collection → path ≠ backup →
           disk w' !! path = disk w !! path)
  ∧ disk w' !! Main.TRAKTOR_COLLECTION_PATH
    = disk w !! Main.TRAKTOR_COLLECTION_PATH
  ∧ match r with
    | Ok _ =>
        is_Some (disk w !! collection)
        ∧ disk w' !! backup = disk w !! collection
        ∧ disk w' !! collection
          = Some (Serialized recordbox_options (tree (self w')))
    | Raise _ =>
        disk w' !! collection = disk w !! collection
        ∨ (disk w' !! collection = Some Partial
           ∧ is_Some (disk w !! collection)
           ∧ disk w' !! backup = disk w !! collection)
    end.
Proof.
  intros Hrun. cbv zeta.
  pose proof (main_disk_cases _ _ _ _ _ _ _ Hrun) as Hcases.
  cbv zeta in Hcases.
  pose proof (backup_path_differs Main.RECORDBOX_COLLECTION_PATH) as Hne.
  assert (∀ path, path ≠ Main.RECORDBOX_COLLECTION_PATH →
                  path ≠ Main.RECORDBOX_COLLECTION_PATH +:+ ".bak" →
                  disk w' !! path = disk w !! path) as Hother.
  { intros path H1 H2.
    destruct Hcases
      as [[_ ->]|(f & Hf & [[_ ->]|[[_ ->]|[[_ ->]|[_ ->]]]])];
      by rewrite ?lookup_insert_ne. }
  split; [exact Hother|]. split.
  { apply Hother; intros Heq; vm_compute in Heq; discriminate Heq. }
  destruct Hcases
    as [[[e ->] ->]|(f & Hf & [[[e ->] ->]|[[[e ->] ->]|[[[e ->] ->]|[-> ->]]]])].
  - by left.
  - left. by rewrite lookup_insert_ne.
  - left. by rewrite lookup_insert_ne.
  - right. rewrite lookup_insert_eq. split; [done|]. split; [by rewrite Hf|].
    rewrite lookup_insert_ne by done. by rewrite lookup_insert_eq.
  - rewrite lookup_insert_eq. split; [by rewrite Hf|]. split; [|done].
    rewrite lookup_insert_ne by done. by rewrite lookup_insert_eq.
Qed.

Lemma main_disk_outcomes_witness :
  fst (Main.main Sample.unquote Sample.int Sample.traktor_doc
         (Sample.recordbox_doc Sample.both_tracks) Sample_script.read_only)
  = Raise (OSError Main.RECORDBOX_COLLECTION_PATH)
  ∧ disk Sample_script.after_read_only !! Main.RECORDBOX_COLLECTION_PATH
    = Some (Bytes "library")
  ∧ disk Sample_script.after_read_only
      !! (Main.RECORDBOX_COLLECTION_PATH +:+ ".bak")
    = Some (Bytes "library")
  ∧ disk Sample_script.after_read_only !! Main.TRAKTOR_COLLECTION_PATH
    = Some (Bytes "collection").
Proof.
  destruct (main_disk_outcomes Sample.unquote Sample.int
              Sample.traktor_doc (Sample.recordbox_doc Sample.both_tracks)
              Sample_script.read_only
              (Raise (OSError Main.RECORDBOX_COLLECTION_PATH))
              Sample_script.after_read_only)
    as (_ & Htraktor & Hcollection); [vm_compute; reflexivity|].
  split; [vm_compute; reflexivity|].
  split; [|split].
  - destruct Hcollection as [->|[Hpartial _]]; [vm_compute; reflexivity|].
    vm_compute in Hpartial. discriminate Hpartial.
  - vm_compute. reflexivity.
  - rewrite Htraktor. vm_compute. reflexivity.
Defined.

(** X14. When the script ends, the RecordBox parser holds, after the playlists
    and nodes of its own document, the playlists that the Traktor parser
    read except the last two, whatever their names, in order, each with the
    node built for it; its songs are those of its own document. *)
Theorem main_transfers_all_but_last_two (unquote : string → string)
    (int : string → option Z) (traktor_doc recordbox_doc : Element)
    (w w' : World) :
  recordbox_single_container recordbox_doc →
  Main.main unquote int traktor_doc recordbox_doc w = (Ok tt, w') →
  ∃ w1 w2 nodes,
    TraktorParser.init Main.TRAKTOR_COLLECTION_PATH traktor_doc true w
    = (Ok tt, w1)
    ∧ RecordBoxParser.init unquote int Main.RECORDBOX_COLLECTION_PATH
        recordbox_doc true w1
      = (Ok tt, w2)
    ∧ let given :=
        take (length (playlists (self w1)) - 2) (playlists (self w1)) in
      Forall2 (λ playlist node, recordbox_node (self w2) playlist = Ok node)
        given nodes
      ∧ playlist_nodes (self w') = playlist_nodes (self w2) ++ nodes
      ∧ playlists (self w') = playlists (self w2) ++ given
      ∧ songs (self w') = songs (self w2).
Proof.
  intros Hsingle Hrun. unfold Main.main in Hrun.
  apply bind_inv in Hrun as [([] & w1 & Hinit1 & Hrun)|(? & _ & [=])].
  apply bind_inv in Hrun as [(? & ? & Hself & Hrun)|(? & _ & [=])].
  apply gets_inv in Hself as [[= ->] ->].
  apply bind_inv in Hrun as [([] & w2 & Hinit2 & Hrun)|(? & _ & [=])].
  apply bind_inv in Hrun as [([] & w3 & Hadd & Hrun)|(? & _ & [=])].
  rewrite slice_until_minus_two in Hadd.
  apply recordbox_add_all_run in Hadd as (nodes & Hall & Hnodes & Hsongs & Hpl).
  apply (save_file_self recordbox_options) in Hrun; [|done].
  pose proof (recordbox_init_lockstep _ _ _ _ _ _ _ Hsingle Hinit2) as Hlock.
  eexists _, _, nodes. split; [eassumption|]. split; [eassumption|].
  cbv zeta. rewrite Hrun. split; [done|]. split; [done|]. split; [|done].
  apply Hpl. unfold lockstep in Hlock.
  apply (f_equal length) in Hlock. by rewrite !length_fmap in Hlock.
Qed.

Lemma main_transfers_all_but_last_two_witness :
  ∃ w1 w2 nodes,
    playlist_name <$> playlists (self w1) = ["House"; "_LOOPS"; "_RECORDINGS"]
    ∧ playlist_nodes (self Sample_script.after)
      = playlist_nodes (self w2) ++ nodes
    ∧ playlists (self Sample_script.after)
      = playlists (self w2) ++ take 1 (playlists (self w1)).
Proof.
  destruct (main_transfers_all_but_last_two Sample.unquote Sample.int
              Sample.traktor_doc (Sample.recordbox_doc Sample.both_tracks)
              Sample_script.before Sample_script.after)
    as (w1 & w2 & nodes & H1 & _ & _ & Hnodes & Hplaylists & _).
  - vm_compute. lia.
  - vm_compute. reflexivity.
  - exists w1, w2, nodes.
    assert (playlist_name <$> playlists (self w1)
            = ["House"; "_LOOPS"; "_RECORDINGS"]) as Hnames.
    { vm_compute in H1. injection H1 as <-. vm_compute. reflexivity. }
    split; [exact Hnames|]. split; [exact Hnodes|].
    rewrite Hplaylists. do 2 f_equal.
    apply (f_equal length) in Hnames. rewrite length_fmap in Hnames.
    by rewrite Hnames.
Defined.

(** ** Traversing again *)

(** X15. A second [get_songs_and_playlists()] on a parser built from a document
    leaves the Traktor parser with the playlist names it had, and the
    RecordBox parser with each of them twice: only the Traktor traversal
    empties the sequence before it fills it. *)
Theorem traversal_again (unquote : string → string) (int : string → option Z)
    (path : string) (doc : Element) (verbose : bool) (w w1 w2 : World) :
  (TraktorParser.init path doc verbose w = (Ok tt, w1) →
   TraktorParser.get_songs_and_playlists w1 = (Ok tt, w2) →
   names (self w2) = names (self w1))
  ∧ (RecordBoxParser.init unquote int path doc verbose w = (Ok tt, w1) →
     RecordBoxParser.get_songs_and_playlists unquote int w1 = (Ok tt, w2) →
     names (self w2) = names (self w1) ++ names (self w1)).
Proof.
  split.
  - unfold TraktorParser.init, Parser_.init. intros H H2. run_inv H.
    apply modify_inv in Hstep as [_ ->].
    apply traktor_traversal in H as (Htree & Hnames & _).
    apply traktor_traversal in H2 as (_ & Hnames2 & _).
    cbv zeta in *. by rewrite Hnames2, Hnames, Htree.
  - unfold RecordBoxParser.init, Parser_.init. intros H H2. run_inv H.
    apply modify_inv in Hstep as [_ ->].
    apply recordbox_traversal in H as (Htree & Hnames & _).
    apply recordbox_traversal in H2 as (_ & Hnames2 & _).
    cbv zeta in *. rewrite Hnames2, Htree. f_equal.
    by rewrite Hnames.
Qed.

Lemma traversal_again_witness :
  names (self (snd (RecordBoxParser.get_songs_and_playlists Sample.unquote
                      Sample.int Sample.recordbox_world)))
  = [Some "Warmup"; Some "Warmup"]
  ∧ names (self (snd (TraktorParser.get_songs_and_playlists
                        Sample.traktor_world)))
    = [Some "House"; Some "_LOOPS"; Some "_RECORDINGS"].
Proof.
  split.
  - destruct (traversal_again Sample.unquote Sample.int "recordbox.xml"
                (Sample.recordbox_doc Sample.both_tracks) true Sample.blank
                Sample.recordbox_world
                (snd (RecordBoxParser.get_songs_and_playlists Sample.unquote
                        Sample.int Sample.recordbox_world))) as [_ H].
    rewrite H; vm_compute; reflexivity.
  - destruct (traversal_again Sample.unquote Sample.int "collection.nml"
                Sample.traktor_doc true Sample.blank Sample.traktor_world
                (snd (TraktorParser.get_songs_and_playlists
                        Sample.traktor_world))) as [H _].
    rewrite H; vm_compute; reflexivity.
Defined.

(** ** A batch of playlists in the Traktor dialect *)

Lemma find_reserved_after_insert (x : Playlist) (l : list Playlist) (c : nat) :
  ¬ reserved x →
  match list_find reserved l with
  | Some (i, q) =>
      list_find reserved (take i l ++ x :: drop i l) = Some (S i, q)
  | None => list_find reserved (take c l ++ x :: drop c l) = None
  end.
Proof.
  intros Hx. destruct (list_find reserved l) as [[i q]|] eqn:Hfind.
  - apply list_find_Some in Hfind as (Hi & Hq & Hbefore).
    apply list_find_Some.
    assert (i < length l) as Hlen by (by eapply lookup_lt_Some).
    assert (length (take i l) = i) as Htake by (rewrite length_take; lia).
    split; [|split; [done|]].
    + rewrite lookup_app_r by lia. rewrite Htake.
      replace (S i - i) with 1 by lia.
      change ((x :: drop i l) !! 1) with (drop i l !! 0).
      by rewrite lookup_drop, Nat.add_0_r.
    + intros j y Hj Hlt. destruct (decide (j < i)) as [Hji|Hji].
      * rewrite lookup_app_l in Hj by lia. rewrite lookup_take_lt in Hj by lia.
        by eapply Hbefore.
      * assert (j = i) as -> by lia.
        rewrite lookup_app_r in Hj by lia. rewrite Htake, Nat.sub_diag in Hj.
        by injection Hj as <-.
  - apply list_find_None in Hfind. apply list_find_None.
    rewrite <- (take_drop c l) in Hfind.
    apply Forall_app in Hfind as [H1 H2].
    apply Forall_app. split; [done|]. by constructor.
Qed.

Lemma traktor_max_index_spliced (node : Element) (p : Playlist) (h : handle)
    (frag : Element) (s : Parser) :
  playlists_tree s = Some h → deref h (tree s) = Some frag →
  ¬ reserved p →
  traktor_max_index
    (spliced (Z.of_nat (traktor_max_index s)) node p h s)
  = S (traktor_max_index s).
Proof.
  intros Hh Hd Hp. unfold traktor_max_index at 1 3.
  rewrite (playlist_nodes_spliced _ _ _ _ _ _ Hh Hd).
  rewrite <- (playlist_nodes_fragment _ _ _ Hh Hd).
  cbn [spliced playlists set_playlists set_tree].
  rewrite !insert_nat.
  pose proof (find_reserved_after_insert p (playlists s)
                (length (playlist_nodes s)) Hp) as Hfind.
  unfold traktor_max_index.
  destruct (list_find reserved (playlists s)) as [[i q]|].
  - by rewrite Hfind.
  - rewrite Hfind. rewrite length_app, length_take. cbn.
    rewrite length_drop. lia.
Qed.

Lemma traktor_add_all_run (given : list Playlist) (w w' : World) :
  Forall (λ p, ¬ reserved p) given →
  TraktorParser.add_playlists_to_tree given w = (Ok tt, w') →
  let c := traktor_max_index (self w) in
  playlists (self w')
  = take c (playlists (self w)) ++ given ++ drop c (playlists (self w))
  ∧ playlist_nodes (self w')
    = take c (playlist_nodes (self w))
      ++ imap (λ k p, TraktorParser.playlist_node
                        (uuid1 w (uuid_calls w + k)) p) given
      ++ drop c (playlist_nodes (self w))
  ∧ songs (self w') = songs (self w)
  ∧ uuid_calls w' = uuid_calls w + length given.
Proof.
  unfold TraktorParser.add_playlists_to_tree, Parser_.add_playlists_to_tree.
  cbn [add_playlist_to_tree TraktorParser.class].
  intros Hgiven. revert w.
  induction Hgiven as [|p given Hp _ IH]; intros w.
  - cbn. intros [= <-]. rewrite !take_drop. by rewrite Nat.add_0_r.
  - intros [(e & _ & [=])|(w1 & Hfirst & Hrest)]%for_each_cons_ok.
    apply traktor_add_inv in Hfirst as (h & frag & Hh & Hd & ->).
    apply IH in Hrest. cbv zeta in Hrest.
    cbn [self set_self tick uuid1 uuid_calls traktor_index] in Hrest.
    rewrite (traktor_max_index_spliced _ _ _ _ _ Hh Hd Hp) in Hrest.
    rewrite (playlist_nodes_spliced _ _ _ _ _ _ Hh Hd) in Hrest.
    rewrite <- (playlist_nodes_fragment _ _ _ Hh Hd) in Hrest.
    cbn [spliced playlists songs set_playlists set_tree] in Hrest.
    rewrite !insert_nat, !take_insert_step, !drop_insert_step in Hrest.
    destruct Hrest as (Hpl & Hnodes & Hsongs & Hcalls).
    cbv zeta. split; [|split; [|split]].
    + by rewrite Hpl, <- app_assoc.
    + rewrite Hnodes, <- app_assoc. cbn [imap app]. do 3 f_equal.
      * by rewrite Nat.add_0_r.
      * apply imap_ext. intros k q _. cbn. do 2 f_equal. lia.
    + done.
    + rewrite Hcalls. cbn. lia.
Qed.

(** X16. [TraktorParser.add_playlists_to_tree] with playlists that do not carry
    a reserved name puts them, in the order given, right before the first
    reserved playlist of the sequence, or at the position equal to the
    number of nodes of the tree fragment when the sequence has no reserved
    playlist; their nodes go to the same position of the tree fragment, in
    the same order, the k-th with the identifier of the k-th call of
    [uuid1].  The songs of the parser are as they were. *)
Theorem traktor_batch_before_reserved (given : list Playlist) (w w' : World) :
  Forall (λ p, ¬ reserved p) given →
  TraktorParser.add_playlists_to_tree given w = (Ok tt, w') →
  let c := traktor_max_index (self w) in
  playlists (self w')
  = take c (playlists (self w)) ++ given ++ drop c (playlists (self w))
  ∧ playlist_nodes (self w')
    = take c (playlist_nodes (self w))
      ++ imap (λ k p, TraktorParser.playlist_node
                        (uuid1 w (uuid_calls w + k)) p) given
      ++ drop c (playlist_nodes (self w))
  ∧ songs (self w') = songs (self w)
  ∧ (∀ i q, list_find reserved (playlists (self w)) = Some (i, q) →
            c = i
            ∧ list_find reserved (playlists (self w'))
              = Some (i + length given, q)).
Proof.
  intros Hgiven Hrun.
  destruct (traktor_add_all_run given w w' Hgiven Hrun)
    as (Hpl & Hnodes & Hsongs & _).
  cbv zeta. split; [done|]. split; [done|]. split; [done|].
  intros i q Hfind.
  assert (traktor_max_index (self w) = i) as Hc.
  { unfold traktor_max_index. by rewrite Hfind. }
  split; [done|]. rewrite Hpl, Hc.
  apply list_find_Some in Hfind as (Hi & Hq & Hbefore).
  assert (i < length (playlists (self w))) as Hlen
    by (by eapply lookup_lt_Some).
  assert (length (take i (playlists (self w))) = i) as Htake
    by (rewrite length_take; lia).
  apply list_find_Some. split; [|split; [done|]].
  - rewrite lookup_app_r by lia. rewrite Htake.
    rewrite lookup_app_r by lia.
    replace (i + length given - i - length given) with 0 by lia.
    by rewrite lookup_drop, Nat.add_0_r.
  - intros j y Hj Hlt. destruct (decide (j < i)) as [Hji|Hji].
    + rewrite lookup_app_l in Hj by lia. rewrite lookup_take_lt in Hj by lia.
      by eapply Hbefore.
    + rewrite lookup_app_r in Hj by lia. rewrite Htake in Hj.
      rewrite lookup_app_l in Hj by lia.
      rewrite Forall_forall in Hgiven. apply Hgiven.
      apply list_elem_of_lookup. eauto.
Qed.

Lemma traktor_batch_before_reserved_witness :
  playlist_name
  <$> playlists
        (self (snd (TraktorParser.add_playlists_to_tree
                      [Sample.techno; Sample.house] Sample.traktor_world)))
  = ["House"; "Techno"; "House"; "_LOOPS"; "_RECORDINGS"].
Proof.
  destruct (traktor_batch_before_reserved [Sample.techno; Sample.house]
              Sample.traktor_world
              (snd (TraktorParser.add_playlists_to_tree
                      [Sample.techno; Sample.house] Sample.traktor_world)))
    as (Hpl & _).
  - repeat constructor; vm_compute; intros [H|H]; discriminate H.
  - vm_compute. reflexivity.
  - rewrite Hpl. vm_compute. reflexivity.
Defined.
